(** * neo-go node core: virtual machine, relay logic and wire payloads

    A shallow embedding of the parts of the node that its specification
    makes checkable statements about:

    - [pkg/vm/vm.go]: the instruction dispatcher [execute], [Step], [Run]
      and the opcode handlers for the slice, shift, comparison, collection
      and multi-signature instructions;
    - [pkg/network/server.go]: [RelayTxn], [RelayDirectly], [handleInvCmd];
    - [pkg/network/payload/version.go], [getblocks.go] and
      [pkg/core/transaction/publish.go]: the binary encoders and decoders.

    Integers of the Go program are modelled as [Z], with the wrap-around of
    fixed-width conversions written out; a [big.Int] on a stack keeps its
    sign and its magnitude, nil or allocated, which is what
    [reflect.DeepEqual] compares; byte slices are [list byte]; pointers to
    collection items are addresses into an explicit heap. *)

From Stdlib Require Import ZArith Lia.
From Stdlib.Strings Require Import Byte.
From stdpp Require Import base gmap list strings.

#[local] Open Scope Z_scope.

(** ** Go runtime conventions *)

Module Go.

(** [int64(u)] for an unsigned 64-bit [u]. *)
Definition int64_of_uint64 (u : Z) : Z :=
  if u <? 2 ^ 63 then u else u - 2 ^ 64.

(** [-v] on [int64]: the most negative value is its own negation. *)
Definition neg_int64 (v : Z) : Z :=
  if v =? - 2 ^ 63 then v else - v.

(** [big.Int.Int64]: the low 64 bits of the magnitude, reinterpreted as
    a signed value and negated when the integer is negative. *)
Definition Int64 (x : Z) : Z :=
  let v := int64_of_uint64 (Z.abs x mod 2 ^ 64) in
  if x <? 0 then neg_int64 v else v.

(** [uint(b)] for an [int64] value [b]. *)
Definition uint_of_int64 (b : Z) : Z := b mod 2 ^ 64.

(** [uint8(x)] for a value of an integer type. *)
Definition uint8 (x : Z) : Z := x mod 2 ^ 8.

(** [big.Int.BitLen]: the length of the magnitude in bits. *)
Definition BitLen (x : Z) : Z :=
  if x =? 0 then 0 else Z.log2 (Z.abs x) + 1.

(** [big.Int] is a sign and a magnitude.  The magnitude [abs] is a slice
    of words without leading zeros, given here by the natural number that
    the words spell; [None] is the nil slice.  Zero has the nil slice or an
    allocated slice of length zero as its magnitude: nothing in the
    arithmetic reads the difference, [reflect.DeepEqual] does. *)
Record Int : Type := mkInt {
  neg : bool;
  abs : option N
}.

(** The number that a [big.Int] stands for. *)
Definition value (x : Int) : Z :=
  let m := Z.of_N (default 0%N (abs x)) in
  if neg x then - m else m.

(** [big.NewInt(x)]: [nat.setUint64] cuts the nil magnitude of the new
    integer to length zero for [x = 0], which leaves it nil, and allocates
    otherwise. *)
Definition NewInt (x : Z) : Int :=
  mkInt (x <? 0) (if x =? 0 then None else Some (Z.to_N (Z.abs x))).

(** The integer [x] as math/big leaves it after it wrote the magnitude
    into a slice that it allocated ([nat.make], then [nat.norm]): the slice
    is not nil, also when [x] is zero. *)
Definition allocated (x : Z) : Int :=
  mkInt (x <? 0) (Some (Z.to_N (Z.abs x))).

(** The length of the magnitude in words of 64 bits. *)
Definition words (x : Z) : Z := (BitLen x + 63) / 64.

(** [z.Lsh(x, s)] into a new [z]: [nat.shl] returns the receiver's slice
    cut to length zero for an empty magnitude and allocates otherwise. *)
Definition Lsh (x s : Z) : Int :=
  if x =? 0 then NewInt 0 else allocated (Z.shiftl x s).

(** [z.Rsh(x, s)] into a new [z]: [nat.shr] returns the receiver's slice
    cut to length zero when the count takes all the words of the magnitude
    and allocates otherwise; a negative [x] is shifted through its
    complement and the result, which is not zero, is allocated. *)
Definition Rsh (x s : Z) : Int :=
  if (0 <=? x) && (words x <=? s / 64) then NewInt 0
  else allocated (Z.shiftr x s).

(** [len(s)] as an [int]. *)
Definition len {A} (s : list A) : Z := Z.of_nat (length s).

(** [s[lo:hi]] for indexes already known to be in range. *)
Definition slice {A} (s : list A) (lo hi : Z) : list A :=
  take (Z.to_nat (hi - lo)) (drop (Z.to_nat lo) s).

Definition byte_to_Z (b : byte) : Z := Z.of_N (Byte.to_N b).

Definition byte_of_Z (z : Z) : byte :=
  default x00 (Byte.of_N (Z.to_N (z mod 256))).

(** Little-endian unsigned reading of a byte slice. *)
Fixpoint le_to_Z (bs : list byte) : Z :=
  match bs with
  | [] => 0
  | b :: bs' => byte_to_Z b + 256 * le_to_Z bs'
  end.

Fixpoint Z_to_le (fuel : nat) (n : Z) : list byte :=
  match fuel with
  | O => []
  | S fuel' =>
      if n =? 0 then [] else byte_of_Z (n mod 256) :: Z_to_le fuel' (n / 256)
  end.

(** Big-endian unsigned reading, as [big.Int.SetBytes] does. *)
Definition be_to_Z (bs : list byte) : Z := le_to_Z (reverse bs).

End Go.

#[global] Instance byte_eq_dec : EqDecision byte := Byte.byte_eq_dec.

#[global] Instance Int_eq_dec : EqDecision Go.Int.
Proof. solve_decision. Defined.

(** ** Results of operations that may panic *)

(** A Go expression either yields a value or panics with a message. *)
Inductive Try (A : Type) : Type :=
| Val (a : A)
| Throw (msg : string).
Arguments Val {A} a.
Arguments Throw {A} msg.

(** * Package keys (crypto/keys/publickey.go) *)

Module keys.

(** The P-256 curve and the ECDSA check of the Go standard library are
    parameters of the development: the curve's field prime and constant,
    the modular square root, the membership test and [ecdsa.Verify]. *)
Record Curve : Type := mkCurve {
  P : Z;
  B : Z;
  ModSqrt : Z -> Z -> option Z;
  IsOnCurve : Z -> Z -> bool;
  ecdsaVerify : Z -> Z -> list byte -> Z -> Z -> bool
}.

(** A public key is a point; both coordinates are nil for the point at
    infinity and for a key that was never decoded. *)
Record PublicKey : Type := mkPublicKey {
  X : option Z;
  Y : option Z
}.

Definition emptyKey : PublicKey := mkPublicKey None None.

Section Keys.

Variable c : Curve.

(** [decodeCompressedY(x, ylsb)]. *)
Definition decodeCompressedY (x : Z) (ylsb : Z) : option Z :=
  let xCubed := (x ^ 3) mod P c in
  let threeX := (x * 3) mod P c in
  let ySquared := (xCubed - threeX + B c) mod P c in
  match ModSqrt c ySquared (P c) with
  | None => None
  | Some y =>
      if Z.land y 1 =? ylsb then Some y else Some ((- y) mod P c)
  end.

(** The end of [DecodeBinary]: the curve and range checks, then the
    assignment of the coordinates. *)
Definition checkPoint (x y : Z) : PublicKey * option string :=
  if negb (IsOnCurve c x y)
  then (emptyKey, Some "enccoded point is not on the P256 curve")
  else if (P c <=? x) || (P c <=? y)
  then (emptyKey, Some "enccoded point is not correct (X or Y is bigger than P")
  else (mkPublicKey (Some x) (Some y), None).

(** [p.DecodeBytes(data)] on a fresh key: the key afterwards and the
    reader's error.  A compressed key whose X has no square root returns
    without an error and leaves the key empty. *)
Definition DecodeBytes (data : list byte) : PublicKey * option string :=
  match data with
  | [] => (emptyKey, Some "EOF")
  | prefix :: rest =>
      let pr := Go.byte_to_Z prefix in
      if pr =? 0 then (emptyKey, None)
      else if (pr =? 2) || (pr =? 3) then
        if (length rest <? 32)%nat then (emptyKey, Some "unexpected EOF")
        else
          let x := Go.be_to_Z (take 32 rest) in
          match decodeCompressedY x (Z.land pr 1) with
          | None => (emptyKey, None)
          | Some y => checkPoint x y
          end
      else if pr =? 4 then
        if (length rest <? 64)%nat then (emptyKey, Some "unexpected EOF")
        else
          checkPoint (Go.be_to_Z (take 32 rest))
                     (Go.be_to_Z (take 32 (drop 32 rest)))
      else (emptyKey, Some "invalid prefix")
  end.

(** [p.Verify(signature, hash)]: false for an empty key; the two halves of
    the signature are sliced before the check, which panics on a signature
    shorter than 64 bytes. *)
Definition Verify (p : PublicKey) (signature hash : list byte) : Try bool :=
  match X p, Y p with
  | Some x, Some y =>
      if (length signature <? 64)%nat
      then Throw "runtime error: slice bounds out of range"
      else Val (ecdsaVerify c x y hash
                  (Go.be_to_Z (take 32 signature))
                  (Go.be_to_Z (take 32 (drop 32 signature))))
  | _, _ => Val false
  end.

End Keys.

End keys.

(** * Package vm *)

Module vm.

(** ** Constants (vm.go) *)

Definition MaxArraySize : Z := 1024.
Definition MaxItemSize : Z := 1024 * 1024.
Definition MaxInvocationStackSize : Z := 1024.
Definition MaxBigIntegerSizeBits : Z := 32 * 8.
Definition MaxStackSize : Z := 2 * 1024.
Definition maxSHLArg : Z := MaxBigIntegerSizeBits.
Definition minSHLArg : Z := - MaxBigIntegerSizeBits.

(** ** Instructions

    Modelled from the spec: the opcode table (instructions.go) is not part
    of the source tree.  [Instruction] is a byte; the numbers are those of
    the NEO virtual machine, with [PUSHBYTES1..PUSHBYTES75] the opcodes
    whose operand is that many immediate bytes. *)

Definition Instruction : Type := Z.

Definition PUSH0 : Instruction := 0x00.
Definition PUSHBYTES1 : Instruction := 0x01.
Definition PUSHBYTES75 : Instruction := 0x4B.
Definition PUSHDATA1 : Instruction := 0x4C.
Definition PUSHDATA2 : Instruction := 0x4D.
Definition PUSHDATA4 : Instruction := 0x4E.
Definition PUSHM1 : Instruction := 0x4F.
Definition PUSH1 : Instruction := 0x51.
Definition PUSH16 : Instruction := 0x60.
Definition NOP : Instruction := 0x61.
Definition RET : Instruction := 0x66.
Definition DUPFROMALTSTACK : Instruction := 0x6A.
Definition TOALTSTACK : Instruction := 0x6B.
Definition FROMALTSTACK : Instruction := 0x6C.
Definition DEPTH : Instruction := 0x74.
Definition DROP : Instruction := 0x75.
Definition DUP : Instruction := 0x76.
Definition SWAP : Instruction := 0x7C.
Definition CAT : Instruction := 0x7E.
Definition SUBSTR : Instruction := 0x7F.
Definition LEFT : Instruction := 0x80.
Definition RIGHT : Instruction := 0x81.
Definition SIZE : Instruction := 0x82.
Definition EQUAL : Instruction := 0x87.
Definition SHL : Instruction := 0x98.
Definition SHR : Instruction := 0x99.
Definition CHECKMULTISIG : Instruction := 0xAE.
Definition NEWARRAY : Instruction := 0xC5.
Definition NEWSTRUCT : Instruction := 0xC6.
Definition NEWMAP : Instruction := 0xC7.
Definition THROW : Instruction := 0xF0.

(** ** Stack items

    Modelled from the spec: the item types (stack_item.go) are not part of
    the source tree; section 4.1 lists the variants.  Array, struct and map
    items are Go pointers: two items are the same object exactly when their
    addresses are equal, and their elements live in the heap.  An integer
    item holds a [*big.Int]; no instruction modelled here writes into a
    [big.Int] that an item holds, so the item is given by the integer. *)

Definition ref : Type := nat.

Inductive StackItem : Type :=
| BoolItem (value : bool)
| BigIntegerItem (value : Go.Int)
| ByteArrayItem (value : list byte)
| ArrayItem (p : ref)
| StructItem (p : ref)
| MapItem (p : ref)
| InteropItem (handle : nat).

#[global] Instance StackItem_eq_dec : EqDecision StackItem.
Proof. solve_decision. Defined.

(** What an address holds: the element slice of an array or struct, or the
    entries of a map. *)
Inductive Object : Type :=
| Slice (items : list StackItem)
| Table (entries : list (StackItem * StackItem)).

(** The address behind a collection item. *)
Definition compound (item : StackItem) : option ref :=
  match item with
  | ArrayItem p | StructItem p | MapItem p => Some p
  | _ => None
  end.

Definition children (h : gmap ref Object) (p : ref) : list StackItem :=
  match h !! p with
  | Some (Slice items) => items
  | Some (Table entries) => entries.*2
  | None => []
  end.

(** ** Element accessors

    Modelled from the spec: [Element.BigInt], [Element.Bytes] and
    [Element.Bool] (stack.go) are not part of the source tree; the tests
    fix their behaviour on booleans, integers and byte arrays, and that
    they panic on collections.  [BigInt] is the number that the integer
    returned by [e.BigInt()] stands for. *)

Definition BigInt (item : StackItem) : Try Z :=
  match item with
  | BigIntegerItem z => Val (Go.value z)
  | BoolItem b => Val (if b then 1 else 0)
  | ByteArrayItem bs => Val (Go.le_to_Z bs)
  | _ => Throw "interface conversion: interface {} is not []uint8"
  end.

Definition Bytes (item : StackItem) : Try (list byte) :=
  match item with
  | ByteArrayItem bs => Val bs
  | BigIntegerItem z =>
      let n := Z.abs (Go.value z) in
      Val (Go.Z_to_le (S (Z.to_nat (Z.log2 n))) n)
  | BoolItem b => Val (if b then [x01] else [])
  | _ => Throw "can't convert to []byte"
  end.

(** ** The machine *)

(** Modelled from the spec: the state flags (state.go) are not part of the
    source tree; they are bit flags, not exclusive. *)
Definition State : Type := Z.
Definition noneState : State := 0.
Definition haltState : State := 2.
Definition faultState : State := 4.
Definition breakState : State := 8.
Definition HasFlag (s f : State) : bool := negb (Z.land s f =? 0).

(** Modelled from the spec: the execution context (context.go) is not part
    of the source tree: current script, instruction pointer, return-value
    count and break-points. *)
Record Context : Type := mkContext {
  prog : list byte;
  ip : Z;
  nextip : Z;
  rvcount : Z;
  breakPoints : list Z
}.

Record VM : Type := mkVM {
  state : State;
  istack : list Context;          (* invocation stack, top first *)
  estack : list StackItem;        (* evaluation stack, top first *)
  astack : list StackItem;        (* alt stack, top first *)
  checkhash : option (list byte); (* nil until SetCheckedHash *)
  itemCount : gmap ref nat;
  size : Z;
  heap : gmap ref Object
}.

Record errorAtInstruct : Type := newError {
  err_ip : Z;
  err_op : Instruction;
  err : string
}.

(** ** Item accounting

    Modelled from the spec: [Stack.updateSizeAdd] and
    [Stack.updateSizeRemove] (stack.go) are not part of the source tree.
    vm.go shows that the evaluation and alt stacks share the machine's
    [size] and [itemCount] ([newItemStack]) while the invocation stack is a
    plain [NewStack]; TestStackLimit fixes the counting: every pushed item
    counts for one, a collection counts its elements when it is referenced
    for the first time and stops counting them with its last reference.

    The recursion follows the elements of collections; [fuel] bounds its
    depth and [None] means that the bound was too small. *)

Definition Counter : Type := (Z * gmap ref nat)%type.

Fixpoint updateSizeAdd (fuel : nat) (h : gmap ref Object) (item : StackItem)
    (c : Counter) : option Counter :=
  match fuel with
  | O => None
  | S fuel' =>
      match compound item with
      | None => Some (c.1 + 1, c.2)
      | Some p =>
          let n := S (default O (c.2 !! p)) in
          let c' := (c.1 + 1, <[p := n]> c.2) in
          if decide (1 < n)%nat then Some c'
          else foldl (fun acc it => acc ≫= updateSizeAdd fuel' h it)
                     (Some c') (children h p)
      end
  end.

Fixpoint updateSizeRemove (fuel : nat) (h : gmap ref Object) (item : StackItem)
    (c : Counter) : option Counter :=
  match fuel with
  | O => None
  | S fuel' =>
      match compound item with
      | None => Some (c.1 - 1, c.2)
      | Some p =>
          let n := default O (c.2 !! p) in
          if decide (1 < n)%nat then Some (c.1 - 1, <[p := pred n]> c.2)
          else foldl (fun acc it => acc ≫= updateSizeRemove fuel' h it)
                     (Some (c.1 - 1, delete p c.2)) (children h p)
      end
  end.

(** Depth that the accounting of one item can reach: every level below the
    first enters a collection that the traversal has not met before. *)
Definition acctFuel (v : VM) : nat :=
  S (S (base.size (heap v) + base.size (itemCount v))).

(** ** Computations on the machine

    An opcode handler runs on the machine and either returns, panics (the
    machine keeps what the handler did before the panic), or leaves the
    part of the machine that is modelled here. *)

Inductive Result (A : Type) : Type :=
| Ok (a : A) (v : VM)
| Panic (msg : string) (v : VM)
| Stuck.
Arguments Ok {A} a v.
Arguments Panic {A} msg v.
Arguments Stuck {A}.

Definition M (A : Type) : Type := VM -> Result A.

Definition ret {A} (a : A) : M A := fun v => Ok a v.

Definition bind {A B} (m : M A) (k : A -> M B) : M B := fun v =>
  match m v with
  | Ok a v' => k a v'
  | Panic msg v' => Panic msg v'
  | Stuck => Stuck
  end.

Definition panic {A} (msg : string) : M A := fun v => Panic msg v.

Definition try {A} (t : Try A) : M A :=
  match t with
  | Val a => ret a
  | Throw msg => panic msg
  end.

Notation "'let*' x ':=' m 'in' k" := (bind m (fun x => k))
  (at level 10, x name, m at level 100, k at level 200, only parsing).

Definition nilDereference : string :=
  "runtime error: invalid memory address or nil pointer dereference".
Definition sliceOutOfRange : string :=
  "runtime error: slice bounds out of range".
Definition makesliceOutOfRange : string :=
  "runtime error: makeslice: len out of range".

(** ** Stacks (stack.go)

    Modelled from the spec: the [Stack] type is not part of the source
    tree.  A stack is LIFO; [Pop] on an empty stack returns nil and a call
    through a nil element panics. *)

Inductive StackName : Type := Evaluation | Alt.

Definition getStack (n : StackName) (v : VM) : list StackItem :=
  match n with
  | Evaluation => estack v
  | Alt => astack v
  end.

Definition setStack (n : StackName) (s : list StackItem) (c : Counter)
    (v : VM) : VM :=
  match n with
  | Evaluation =>
      mkVM (state v) (istack v) s (astack v) (checkhash v) c.2 c.1 (heap v)
  | Alt =>
      mkVM (state v) (istack v) (estack v) s (checkhash v) c.2 c.1 (heap v)
  end.

Definition setState (st : State) (v : VM) : VM :=
  mkVM st (istack v) (estack v) (astack v) (checkhash v)
       (itemCount v) (size v) (heap v).

Definition setIstack (s : list Context) (v : VM) : VM :=
  mkVM (state v) s (estack v) (astack v) (checkhash v)
       (itemCount v) (size v) (heap v).

Definition setHeap (h : gmap ref Object) (v : VM) : VM :=
  mkVM (state v) (istack v) (estack v) (astack v) (checkhash v)
       (itemCount v) (size v) h.

(** [s.Push(e)] for a non-nil element. *)
Definition PushItem (n : StackName) (item : StackItem) : M unit := fun v =>
  match updateSizeAdd (acctFuel v) (heap v) item (size v, itemCount v) with
  | Some c => Ok tt (setStack n (item :: getStack n v) c v)
  | None => Stuck
  end.

(** [s.Push(e)]: inserting a nil element dereferences it. *)
Definition Push (n : StackName) (e : option StackItem) : M unit :=
  match e with
  | Some item => PushItem n item
  | None => panic nilDereference
  end.

(** [s.Pop()]: nil on an empty stack. *)
Definition Pop (n : StackName) : M (option StackItem) := fun v =>
  match getStack n v with
  | [] => Ok None v
  | item :: rest =>
      match updateSizeRemove (acctFuel v) (heap v) item
              (size v, itemCount v) with
      | Some c => Ok (Some item) (setStack n rest c v)
      | None => Stuck
      end
  end.

(** [s.Dup(n)]: a new element holding the same value; nil when absent. *)
Definition Dup (n : StackName) (i : nat) : M (option StackItem) := fun v =>
  Ok (getStack n v !! i) v.

(** A fresh address holding [o]: [&ArrayItem{...}], [NewMapItem()]. *)
Definition alloc (o : Object) : M ref := fun v =>
  let p := fresh (dom (heap v)) in
  Ok p (setHeap (<[p := o]> (heap v)) v).

(** [e.BigInt()], [e.Bytes()] and [e.value] through a possibly nil element. *)
Definition elemBigInt (e : option StackItem) : M Z :=
  match e with
  | Some item => try (BigInt item)
  | None => panic nilDereference
  end.

Definition elemBytes (e : option StackItem) : M (list byte) :=
  match e with
  | Some item => try (Bytes item)
  | None => panic nilDereference
  end.

Definition elemValue (e : option StackItem) : M StackItem :=
  match e with
  | Some item => ret item
  | None => panic nilDereference
  end.

(** [s[lo:hi]], with the bounds check of the Go runtime. *)
Definition goSlice (s : list byte) (lo hi : Z) : M (list byte) :=
  if (0 <=? lo) && (lo <=? hi) && (hi <=? Go.len s)
  then ret (Go.slice s lo hi)
  else panic sliceOutOfRange.

(** [v.checkBigIntSize(a)]. *)
Definition checkBigIntSize (a : Z) : M unit :=
  if MaxBigIntegerSizeBits <? Go.BitLen a
  then panic "big integer is too big"
  else ret tt.

(** [makeArrayOfFalses(n)] for [n >= 0]. *)
Definition makeArrayOfFalses (n : Z) : list StackItem :=
  replicate (Z.to_nat n) (BoolItem false).
(** ** reflect.DeepEqual on stack items

    [EQUAL] hands two popped elements to [reflect.DeepEqual] of the Go
    standard library.  Two items are deeply equal when they have the same
    dynamic type and equal values; pointers are equal when they are the
    same address or point to deeply equal objects; a pair of addresses met
    again during the traversal is taken as equal, which is how the library
    ends on cyclic values.  An integer item points to a [big.Int], a
    struct of a sign and a slice of words: two of them are deeply equal
    when the signs are the same and the slices are both nil or both
    allocated and hold the same words, which is equality in [Go.Int].
    [fuel] bounds the depth of the traversal. *)

Definition seen (visited : list (ref * ref)) (p q : ref) : bool :=
  bool_decide ((p, q) ∈ visited) || bool_decide ((q, p) ∈ visited).

Definition lookupEntry (k : StackItem) (m : list (StackItem * StackItem))
    : option StackItem :=
  match list_find (fun e => e.1 = k) m with
  | Some (_, e) => Some e.2
  | None => None
  end.

Definition Visit : Type := option (bool * list (ref * ref)).

(** Two slices: equal lengths, then element by element until a
    difference. *)
Definition deepSlices (rec : StackItem -> StackItem -> list (ref * ref) -> Visit)
    (xs ys : list StackItem) (visited : list (ref * ref)) : Visit :=
  if decide (length xs = length ys)
  then foldl (fun (acc : Visit) xy =>
                match acc with
                | Some (true, vis) => rec xy.1 xy.2 vis
                | other => other
                end)
             (Some (true, visited)) (zip xs ys)
  else Some (false, visited).

(** Two maps: equal sizes, then every key of the first is looked up in the
    second and the values are compared. *)
Definition deepTables (rec : StackItem -> StackItem -> list (ref * ref) -> Visit)
    (m1 m2 : list (StackItem * StackItem)) (visited : list (ref * ref))
    : Visit :=
  if decide (length m1 = length m2)
  then foldl (fun (acc : Visit) kv =>
                match acc with
                | Some (true, vis) =>
                    match lookupEntry kv.1 m2 with
                    | Some v2 => rec kv.2 v2 vis
                    | None => Some (false, vis)
                    end
                | other => other
                end)
             (Some (true, visited)) m1
  else Some (false, visited).

(** Two pointers of the same type. *)
Definition deepPointees (rec : StackItem -> StackItem -> list (ref * ref) -> Visit)
    (h : gmap ref Object) (p q : ref) (visited : list (ref * ref)) : Visit :=
  if decide (p = q) then Some (true, visited)
  else if seen visited p q then Some (true, visited)
  else
    let vis := (p, q) :: visited in
    match h !! p, h !! q with
    | Some (Slice xs), Some (Slice ys) => deepSlices rec xs ys vis
    | Some (Table m1), Some (Table m2) => deepTables rec m1 m2 vis
    | _, _ => Some (false, vis)
    end.

Fixpoint deepValueEqual (fuel : nat) (h : gmap ref Object)
    (a b : StackItem) (visited : list (ref * ref)) : Visit :=
  match fuel with
  | O => None
  | S fuel' =>
      match a, b with
      | BoolItem x, BoolItem y => Some (bool_decide (x = y), visited)
      | BigIntegerItem x, BigIntegerItem y =>
          Some (bool_decide (x = y), visited)
      | ByteArrayItem x, ByteArrayItem y =>
          Some (bool_decide (x = y), visited)
      | InteropItem x, InteropItem y => Some (bool_decide (x = y), visited)
      | ArrayItem p, ArrayItem q =>
          deepPointees (deepValueEqual fuel' h) h p q visited
      | StructItem p, StructItem q =>
          deepPointees (deepValueEqual fuel' h) h p q visited
      | MapItem p, MapItem q =>
          deepPointees (deepValueEqual fuel' h) h p q visited
      | _, _ => Some (false, visited)
      end
  end.

(** One more level than there are pairs of addresses. *)
Definition deepFuel (h : gmap ref Object) : nat :=
  S (base.size (cprod (dom h) (dom h) : gset (ref * ref))).

Definition DeepEqual (h : gmap ref Object) (a b : StackItem) : option bool :=
  fst <$> deepValueEqual (deepFuel h) h a b [].

Definition reflectDeepEqual (a b : StackItem) : M bool := fun v =>
  match DeepEqual (heap v) a b with
  | Some r => Ok r v
  | None => Stuck
  end.

(** ** Opcode handlers (the cases of [execute]) *)

Definition PushVal (item : StackItem) : M unit := PushItem Evaluation item.

Definition Len (n : StackName) : M Z := fun v => Ok (Go.len (getStack n v)) v.

Definition opPUSHBYTES (parameter : list byte) : M unit :=
  PushVal (ByteArrayItem parameter).

Definition opPUSHINT (op : Instruction) : M unit :=
  let val := op - PUSH1 + 1 in
  PushVal (BigIntegerItem (Go.NewInt val)).

Definition opPUSH0 : M unit := PushVal (ByteArrayItem []).

Definition opTOALTSTACK : M unit :=
  let* e := Pop Evaluation in Push Alt e.

Definition opFROMALTSTACK : M unit :=
  let* e := Pop Alt in Push Evaluation e.

Definition opDUPFROMALTSTACK : M unit :=
  let* e := Dup Alt 0 in Push Evaluation e.

Definition opDUP : M unit :=
  let* e := Dup Evaluation 0 in Push Evaluation e.

Definition opSWAP : M unit :=
  let* a := Pop Evaluation in
  let* b := Pop Evaluation in
  let* _ := Push Evaluation a in
  Push Evaluation b.

(** [CAT].  [append(a, b...)] returns a slice that holds the bytes of [a]
    followed by those of [b], which is the item pushed here.  When [a] has
    spare capacity Go writes the bytes of [b] into the array behind [a];
    byte strings are values here, so an item that shares that array keeps
    its bytes in the model. *)
Definition opCAT : M unit :=
  let* eb := Pop Evaluation in
  let* b := elemBytes eb in
  let* ea := Pop Evaluation in
  let* a := elemBytes ea in
  if MaxItemSize <? Go.len a + Go.len b then panic "too big item"
  else PushVal (ByteArrayItem (a ++ b)).

Definition opSUBSTR : M unit :=
  let* el := Pop Evaluation in
  let* lz := elemBigInt el in
  let l := Go.Int64 lz in
  if l <? 0 then panic "negative length" else
  let* eo := Pop Evaluation in
  let* oz := elemBigInt eo in
  let o := Go.Int64 oz in
  if o <? 0 then panic "negative index" else
  let* es := Pop Evaluation in
  let* s := elemBytes es in
  if Go.len s <? o then PushVal (ByteArrayItem [])
  else
    let last := Go.int64_of_uint64 ((l + o) mod 2 ^ 64) in
    let last := if Go.len s <? last then Go.len s else last in
    let* r := goSlice s o last in
    PushVal (ByteArrayItem r).

Definition opLEFT : M unit :=
  let* el := Pop Evaluation in
  let* lz := elemBigInt el in
  let l := Go.Int64 lz in
  if l <? 0 then panic "negative length" else
  let* es := Pop Evaluation in
  let* s := elemBytes es in
  let l := if Go.len s <? l then Go.len s else l in
  let* r := goSlice s 0 l in
  PushVal (ByteArrayItem r).

Definition opRIGHT : M unit :=
  let* el := Pop Evaluation in
  let* lz := elemBigInt el in
  let l := Go.Int64 lz in
  if l <? 0 then panic "negative length" else
  let* es := Pop Evaluation in
  let* s := elemBytes es in
  let* r := goSlice s (Go.len s - l) (Go.len s) in
  PushVal (ByteArrayItem r).

Definition opDEPTH : M unit :=
  let* n := Len Evaluation in PushVal (BigIntegerItem (Go.NewInt n)).

Definition opDROP : M unit :=
  let* n := Len Evaluation in
  if n <? 1 then panic "stack is too small"
  else let* _ := Pop Evaluation in ret tt.

Definition opSIZE : M unit :=
  let* e := Pop Evaluation in
  let* arr := elemBytes e in
  PushVal (BigIntegerItem (Go.NewInt (Go.len arr))).

Definition opEQUAL : M unit :=
  let* eb := Pop Evaluation in
  match eb with
  | None => panic "no top-level element found"
  | Some b =>
      let* ea := Pop Evaluation in
      match ea with
      | None => panic "no second-to-the-top element found"
      | Some a =>
          match a, b with
          | ArrayItem ta, ArrayItem tb =>
              PushVal (BoolItem (bool_decide (ta = tb)))
          | MapItem ma, MapItem mb =>
              PushVal (BoolItem (bool_decide (ma = mb)))
          | _, _ =>
              let* r := reflectDeepEqual a b in PushVal (BoolItem r)
          end
      end
  end.

(** [SHL] and [SHR].  The count is converted with [uint(b)], which sends a
    negative count to [2^64 + b].  Go panics while it allocates the result
    of a left shift by such a count; here the result exists as an integer
    and the check of its size panics: the handler panics either way. *)
Definition opSHIFT (op : Instruction) : M unit :=
  let* eb := Pop Evaluation in
  let* bz := elemBigInt eb in
  let b := Go.Int64 bz in
  if b =? 0 then ret tt
  else if (b <? minSHLArg) || (maxSHLArg <? b)
  then panic "operand must be between -256 and 256"
  else
    let* ea := Pop Evaluation in
    let* a := elemBigInt ea in
    let* _ := checkBigIntSize a in
    let item := if op =? SHL
                then Go.Lsh a (Go.uint_of_int64 b)
                else Go.Rsh a (Go.uint_of_int64 b) in
    let* _ := checkBigIntSize (Go.value item) in
    PushVal (BigIntegerItem item).

(** The slice behind an array or struct item, [t.value]. *)
Definition sliceOf (p : ref) : M (list StackItem) := fun v =>
  Ok (children (heap v) p) v.

Definition newSliceOfFalses (what : string) (item : StackItem)
    : M (list StackItem) :=
  let* nz := try (BigInt item) in
  let n := Go.Int64 nz in
  if MaxArraySize <? n then panic what
  else if n <? 0 then panic makesliceOutOfRange
  else ret (makeArrayOfFalses n).

Definition opNEWARRAY : M unit :=
  let* e := Pop Evaluation in
  let* item := elemValue e in
  match item with
  | StructItem t =>
      let* arr := sliceOf t in
      let* p := alloc (Slice arr) in
      PushVal (ArrayItem p)
  | ArrayItem t => PushVal (ArrayItem t)
  | _ =>
      let* items := newSliceOfFalses "too long array" item in
      let* p := alloc (Slice items) in
      PushVal (ArrayItem p)
  end.

Definition opNEWSTRUCT : M unit :=
  let* e := Pop Evaluation in
  let* item := elemValue e in
  match item with
  | ArrayItem t =>
      let* arr := sliceOf t in
      let* p := alloc (Slice arr) in
      PushVal (StructItem p)
  | StructItem t => PushVal (StructItem t)
  | _ =>
      let* items := newSliceOfFalses "too long struct" item in
      let* p := alloc (Slice items) in
      PushVal (StructItem p)
  end.

Definition opNEWMAP : M unit :=
  let* p := alloc (Table []) in
  PushItem Evaluation (MapItem p).
(** [RET]: every context of the modelled machine was loaded by
    [LoadScript] and is bound to the machine's own evaluation and alt
    stacks, so the old and the new evaluation stack are the same object and
    no element moves. *)
Definition opRET : M unit := fun v =>
  match istack v with
  | [] => Panic nilDereference v
  | oldCtx :: rest =>
      let v1 := setIstack rest v in
      if (0 <? rvcount oldCtx) && (Go.len (estack v1) <? rvcount oldCtx)
      then Panic "missing some return elements" v1
      else match rest with
           | [] => Ok tt (setState haltState v1)
           | _ :: _ => Ok tt v1
           end
  end.

(** *** CHECKMULTISIG *)

(** Modelled from the spec: [Stack.popSigElements] (stack.go) is not part
    of the source tree.  The tests pass keys and signatures as an array of
    byte arrays; scripts push the elements followed by their number.  It
    returns the byte strings or an error. *)

Definition asBytes (item : StackItem) : option (list byte) :=
  match item with
  | ByteArrayItem bs => Some bs
  | _ => None
  end.

Fixpoint popBytes (n : nat) : M (list (list byte)) :=
  match n with
  | O => ret []
  | S n' =>
      let* e := Pop Evaluation in
      let* b := elemBytes e in
      let* rest := popBytes n' in
      ret (b :: rest)
  end.

Definition popSigElements : M (Try (list (list byte))) :=
  let* e := Pop Evaluation in
  match e with
  | None => ret (Throw "nothing on the stack")
  | Some (ArrayItem p) =>
      let* arr := sliceOf p in
      if (length arr <? 1)%nat
      then ret (Throw "less than one element in the array")
      else match mapM asBytes arr with
           | Some elems => ret (Val elems)
           | None => ret (Throw "bad element")
           end
  | Some item =>
      let* nz := try (BigInt item) in
      let num := Go.Int64 nz in
      let* n := Len Evaluation in
      if (num <? 1) || (n <? num)
      then ret (Throw "wrong number of elements")
      else let* elems := popBytes (Z.to_nat num) in ret (Val elems)
  end.

Section Machine.

Variable crypto : keys.Curve.

(** One pass through the body of the matching loop: key [j] is decoded and
    checked against signature [i]; the result is the new [sigok], [i], [j]. *)
Definition multisigBody (pkeys sigs : list (list byte)) (hash : list byte)
    (i j : nat) : Try (bool * nat * nat) :=
  match pkeys !! j, sigs !! i with
  | Some key, Some sig =>
      match keys.DecodeBytes crypto key with
      | (_, Some e) => Throw e
      | (pkey, None) =>
          match keys.Verify crypto pkey sig hash with
          | Throw e => Throw e
          | Val ok =>
              let i' := if ok then S i else i in
              let j' := S j in
              let sigok :=
                negb (Go.len pkeys - Z.of_nat j' <? Go.len sigs - Z.of_nat i') in
              Val (sigok, i', j')
          end
      end
  | _, _ => Throw "runtime error: index out of range"
  end.

(** [for i := 0; sigok && j < len(pkeys) && i < len(sigs); { ... }] *)
Fixpoint multisigLoop (fuel : nat) (pkeys sigs : list (list byte))
    (hash : list byte) (sigok : bool) (i j : nat) : option (Try bool) :=
  if sigok && (j <? length pkeys)%nat && (i <? length sigs)%nat then
    match fuel with
    | O => None
    | S fuel' =>
        match multisigBody pkeys sigs hash i j with
        | Throw e => Some (Throw e)
        | Val (sigok', i', j') =>
            multisigLoop fuel' pkeys sigs hash sigok' i' j'
        end
    end
  else Some (Val sigok).

Definition getCheckhash : M (option (list byte)) := fun v => Ok (checkhash v) v.

Definition opCHECKMULTISIG : M unit :=
  let* r := popSigElements in
  match r with
  | Throw e => panic ("wrong parameters: " +:+ e)
  | Val pkeys =>
      let* r := popSigElements in
      match r with
      | Throw e => panic ("wrong parameters: " +:+ e)
      | Val sigs =>
          if Go.len pkeys <? Go.len sigs
          then panic "more signatures than there are keys"
          else
            let* h := getCheckhash in
            match h with
            | None => panic "VM is not set up properly for signature checks"
            | Some hash =>
                match multisigLoop (length pkeys) pkeys sigs hash true 0 0 with
                | None => fun _ => Stuck
                | Some (Throw e) => panic e
                | Some (Val sigok) => PushVal (BoolItem sigok)
                end
            end
      end
  end.

(** ** The dispatcher *)

(** The cases of the [switch] in [execute] that are modelled; any other
    opcode leaves the model. *)
Definition dispatch (op : Instruction) (parameter : list byte) : M unit :=
  if (PUSHBYTES1 <=? op) && (op <=? PUSHBYTES75) then opPUSHBYTES parameter
  else if (op =? PUSHM1) || ((PUSH1 <=? op) && (op <=? PUSH16))
  then opPUSHINT op
  else if op =? PUSH0 then opPUSH0
  else if (op =? PUSHDATA1) || (op =? PUSHDATA2) || (op =? PUSHDATA4)
  then opPUSHBYTES parameter
  else if op =? TOALTSTACK then opTOALTSTACK
  else if op =? FROMALTSTACK then opFROMALTSTACK
  else if op =? DUPFROMALTSTACK then opDUPFROMALTSTACK
  else if op =? DUP then opDUP
  else if op =? SWAP then opSWAP
  else if op =? CAT then opCAT
  else if op =? SUBSTR then opSUBSTR
  else if op =? LEFT then opLEFT
  else if op =? RIGHT then opRIGHT
  else if op =? DEPTH then opDEPTH
  else if op =? DROP then opDROP
  else if op =? EQUAL then opEQUAL
  else if (op =? SHL) || (op =? SHR) then opSHIFT op
  else if op =? NEWARRAY then opNEWARRAY
  else if op =? NEWSTRUCT then opNEWSTRUCT
  else if op =? SIZE then opSIZE
  else if op =? RET then opRET
  else if op =? CHECKMULTISIG then opCHECKMULTISIG
  else if op =? NEWMAP then opNEWMAP
  else if op =? NOP then ret tt
  else if op =? THROW then panic "THROW"
  else fun _ => Stuck.

Inductive error : Type :=
| ErrorAt (e : errorAtInstruct)
| ErrorNew (msg : string).

(** What a call on the machine comes to: it returns with the machine and
    an error or nil; it panics outside the dispatcher's [recover]; it
    meets an instruction outside the model; or the loop bound of the model
    is used up. *)
Inductive Outcome : Type :=
| Returned (v : VM) (e : option error)
| Crashed
| OutOfModel
| Unfinished.

(** [v.execute(ctx, op, parameter)]: the deferred function turns a panic
    into the fault state and an error, and does the same when the handler
    returns with more than [MaxStackSize] items counted. *)
Definition execute (ctx_ip : Z) (op : Instruction) (parameter : list byte)
    (v : VM) : Outcome :=
  match dispatch op parameter v with
  | Stuck => OutOfModel
  | Panic msg v' =>
      Returned (setState faultState v')
               (Some (ErrorAt (newError ctx_ip op msg)))
  | Ok _ v' =>
      if MaxStackSize <? size v'
      then Returned (setState faultState v')
                    (Some (ErrorAt (newError ctx_ip op "stack is too big")))
      else Returned v' None
  end.

(** Modelled from the spec: [Context.Next] (context.go) is not part of the
    source tree.  It fetches the opcode at the instruction pointer and its
    immediate bytes, [RET] past the end of the script.  Only the opcodes
    without an operand that [dispatch] covers and [PUSHBYTES1..75] are
    decoded here. *)
Definition noOperand (op : Instruction) : bool :=
  bool_decide (op ∈ [PUSH0; PUSHM1; NOP; RET; DUPFROMALTSTACK; TOALTSTACK;
                     FROMALTSTACK; DEPTH; DROP; DUP; SWAP; CAT; SUBSTR; LEFT;
                     RIGHT; SIZE; EQUAL; SHL; SHR; CHECKMULTISIG; NEWARRAY;
                     NEWSTRUCT; NEWMAP; THROW])
  || ((PUSH1 <=? op) && (op <=? PUSH16)).

Definition setIp (c : Context) (i n : Z) : Context :=
  mkContext (prog c) i n (rvcount c) (breakPoints c).

Definition Next (c : Context)
    : option (Context * Instruction * list byte * option string) :=
  let c := setIp c (nextip c) (nextip c) in
  if Go.len (prog c) <=? ip c then Some (c, RET, [], None)
  else
    match prog c !! Z.to_nat (ip c) with
    | None => None
    | Some instrbyte =>
        let instr := Go.byte_to_Z instrbyte in
        let c := setIp c (ip c) (nextip c + 1) in
        if (PUSHBYTES1 <=? instr) && (instr <=? PUSHBYTES75) then
          let numtoread := Z.to_nat instr in
          let rest := drop (Z.to_nat (nextip c)) (prog c) in
          if (length rest <? numtoread)%nat
          then Some (c, instr, [], Some "failed to read instruction parameter")
          else Some (setIp c (ip c) (nextip c + instr), instr,
                     take numtoread rest, None)
        else if noOperand instr then Some (c, instr, [], None)
        else None
    end.

(** [v.Step()].  Without a context [ctx.Next()] dereferences nil. *)
Definition Step (v : VM) : Outcome :=
  match istack v with
  | [] => Crashed
  | ctx :: rest =>
      match Next ctx with
      | None => OutOfModel
      | Some (ctx', op, param, Some e) =>
          Returned (setState faultState (setIstack (ctx' :: rest) v))
                   (Some (ErrorAt (newError (ip ctx') op e)))
      | Some (ctx', op, param, None) =>
          execute (ip ctx') op param (setIstack (ctx' :: rest) v)
      end
  end.

Definition atBreakPoint (c : Context) : bool :=
  bool_decide (ip c ∈ breakPoints c).

(** The loop of [Run]; [fuel] bounds the number of instructions. *)
Fixpoint runLoop (fuel : nat) (v : VM) : Outcome :=
  match fuel with
  | O => Unfinished
  | S fuel' =>
      let v :=
        match istack v with
        | ctx :: _ =>
            if atBreakPoint ctx
            then setState (Z.lor (state v) breakState) v
            else v
        | [] => v
        end in
      if HasFlag (state v) faultState
      then Returned v (Some (ErrorNew "VM has failed"))
      else if HasFlag (state v) haltState || HasFlag (state v) breakState
      then Returned v None
      else if state v =? noneState then
        match Step v with
        | Returned v' None => runLoop fuel' v'
        | other => other
        end
      else Returned (setState faultState v) (Some (ErrorNew "unknown state"))
  end.

Definition Ready (v : VM) : bool := 0 <? Go.len (istack v).

Definition Run (fuel : nat) (v : VM) : Outcome :=
  if negb (Ready v)
  then Returned (setState faultState v) (Some (ErrorNew "no program loaded"))
  else if HasFlag (state v) faultState
  then Returned v (Some (ErrorNew "VM has failed"))
  else runLoop fuel (setState noneState v).

End Machine.

Definition HasFailed (v : VM) : bool := HasFlag (state v) faultState.
Definition HasHalted (v : VM) : bool := HasFlag (state v) haltState.

Definition New : VM :=
  mkVM haltState [] [] [] None ∅ 0 ∅.

Definition NewContext (b : list byte) : Context :=
  mkContext b 0 0 (-1) [].

Definition LoadScript (b : list byte) (v : VM) : VM :=
  setIstack (NewContext b :: istack v) v.

Definition SetCheckedHash (h : list byte) (v : VM) : VM :=
  mkVM (state v) (istack v) (estack v) (astack v) (Some h)
       (itemCount v) (size v) (heap v).

(** The test helpers [makeProgram] and [load]. *)
Definition makeProgram (opcodes : list Instruction) : list byte :=
  (Go.byte_of_Z <$> opcodes) ++ [Go.byte_of_Z RET].

Definition load (prog : list byte) : VM := LoadScript prog New.
(** A stand-in for the curve in examples: every point is on it, and a
    signature is valid for a key when its first half reads as the key's X
    coordinate. *)
Definition exampleCurve : keys.Curve :=
  keys.mkCurve 97 3 (fun _ _ => None) (fun _ _ => true)
               (fun x _ _ r _ => r =? x).

End vm.


(** * Package io

    Modelled from the spec: the binary reader and writer (pkg/io) are not
    part of the source tree.  Section 6 fixes the wire format: primitives
    are little-endian, and a variable-length integer takes one byte below
    [0xFD], and otherwise a marker [0xFD], [0xFE] or [0xFF] followed by 2, 4
    or 8 bytes.  A reader keeps the first error it met and reads nothing
    after it.  Byte slices are lists: a nil slice and an empty slice are
    the same value here. *)

Module io.

Fixpoint putLE (n : nat) (x : Z) : list byte :=
  match n with
  | O => []
  | S n' => Go.byte_of_Z (x mod 256) :: putLE n' (x / 256)
  end.

(** [w.WriteLE(x)] for an unsigned integer of [n] bytes, and for a bool. *)
Definition WriteLE (n : nat) (x : Z) : list byte := putLE n x.

Definition WriteBool (b : bool) : list byte := WriteLE 1 (if b then 1 else 0).

Definition WriteVarUint (val : Z) : list byte :=
  if val <? 0xfd then WriteLE 1 val
  else if val <=? 0xFFFF then WriteLE 1 0xfd ++ WriteLE 2 val
  else if val <=? 0xFFFFFFFF then WriteLE 1 0xfe ++ WriteLE 4 val
  else WriteLE 1 0xff ++ WriteLE 8 val.

Definition WriteBytes (b : list byte) : list byte :=
  WriteVarUint (Go.len b) ++ b.

Definition WriteString (s : list byte) : list byte := WriteBytes s.

Record BinReader : Type := mkReader {
  buf : list byte;
  Err : option string
}.

Definition NewBinReaderFromBuf (b : list byte) : BinReader := mkReader b None.

Definition Reader (A : Type) : Type := BinReader -> A * BinReader.

Definition pure {A} (a : A) : Reader A := fun r => (a, r).

Definition andThen {A B} (m : Reader A) (k : A -> Reader B) : Reader B :=
  fun r => let '(a, r') := m r in k a r'.

(** The next [n] bytes, or an error. *)
Definition readN (n : nat) : Reader (option (list byte)) := fun r =>
  match Err r with
  | Some _ => (None, r)
  | None =>
      if (length (buf r) <? n)%nat
      then (None, mkReader [] (Some "unexpected EOF"))
      else (Some (take n (buf r)), mkReader (drop n (buf r)) None)
  end.

(** [r.ReadLE(&x)] for an unsigned integer of [n] bytes: the variable
    keeps its zero value when the read fails. *)
Definition ReadLE (n : nat) : Reader Z :=
  andThen (readN n) (fun o =>
    pure (match o with Some bs => Go.le_to_Z bs | None => 0 end)).

Definition ReadBool : Reader bool :=
  andThen (ReadLE 1) (fun b => pure (negb (b =? 0))).

Definition ReadVarUint : Reader Z :=
  andThen (ReadLE 1) (fun b =>
    if b =? 0xfd then ReadLE 2
    else if b =? 0xfe then ReadLE 4
    else if b =? 0xff then ReadLE 8
    else pure b).

(** [make([]byte, n)] filled by [ReadLE]. *)
Definition ReadBytes : Reader (list byte) :=
  andThen ReadVarUint (fun n =>
  andThen (readN (Z.to_nat n)) (fun o =>
    pure (match o with
          | Some bs => bs
          | None => replicate (Z.to_nat n) x00
          end))).

Definition ReadString : Reader (list byte) := ReadBytes.

(** [count] values read one after the other. *)
Fixpoint readMany {A} (m : Reader A) (count : nat) : Reader (list A) :=
  match count with
  | O => pure []
  | S count' =>
      andThen m (fun a => andThen (readMany m count') (fun l => pure (a :: l)))
  end.

End io.

(** * Package util *)

Module util.

(** [Uint256] is an array of 32 bytes. *)
Definition Uint256 : Type := list byte.
Definition Uint256Size : nat := 32.
Definition validUint256 (h : Uint256) : Prop := length h = Uint256Size.

End util.

(** * Package payload (network/payload) *)

Module payload.

(** ** version.go *)

(** The field [Version] of the Go struct is [Version0] here. *)
Record Version : Type := mkVersion {
  Version0 : Z;          (* uint32 *)
  Services : Z;          (* uint64 *)
  Timestamp : Z;         (* uint32 *)
  Port : Z;              (* uint16 *)
  Nonce : Z;             (* uint32 *)
  UserAgent : list byte;
  StartHeight : Z;       (* uint32 *)
  Relay : bool
}.

Definition Version_EncodeBinary (p : Version) : list byte :=
  io.WriteLE 4 (Version0 p) ++
  io.WriteLE 8 (Services p) ++
  io.WriteLE 4 (Timestamp p) ++
  io.WriteLE 2 (Port p) ++
  io.WriteLE 4 (Nonce p) ++
  io.WriteBytes (UserAgent p) ++
  io.WriteLE 4 (StartHeight p) ++
  io.WriteBool (Relay p).

Definition Version_DecodeBinary : io.Reader Version :=
  io.andThen (io.ReadLE 4) (fun version =>
  io.andThen (io.ReadLE 8) (fun services =>
  io.andThen (io.ReadLE 4) (fun timestamp =>
  io.andThen (io.ReadLE 2) (fun port =>
  io.andThen (io.ReadLE 4) (fun nonce =>
  io.andThen io.ReadBytes (fun userAgent =>
  io.andThen (io.ReadLE 4) (fun startHeight =>
  io.andThen io.ReadBool (fun relay =>
  io.pure (mkVersion version services timestamp port nonce userAgent
                     startHeight relay))))))))).

(** ** getblocks.go *)

Record GetBlocks : Type := NewGetBlocks {
  HashStart : list util.Uint256;
  HashStop : util.Uint256
}.

Definition GetBlocks_EncodeBinary (p : GetBlocks) : list byte :=
  io.WriteVarUint (Go.len (HashStart p)) ++
  concat (HashStart p) ++
  HashStop p.

(** A [Uint256] read in place: 32 bytes, zero when the read fails. *)
Definition readUint256 : io.Reader util.Uint256 :=
  io.andThen (io.readN util.Uint256Size) (fun o =>
    io.pure (match o with
             | Some bs => bs
             | None => replicate util.Uint256Size x00
             end)).

Definition GetBlocks_DecodeBinary : io.Reader GetBlocks :=
  io.andThen io.ReadVarUint (fun lenStart =>
  io.andThen (io.readMany readUint256 (Z.to_nat lenStart)) (fun hashStart =>
  io.andThen readUint256 (fun hashStop =>
  io.pure (NewGetBlocks hashStart hashStop)))).

(** ** inventory.go

    Modelled from the spec: the inventory payload is not part of the
    source tree: a type (block, tx or consensus) and a list of hashes. *)

Inductive InventoryType : Type := TXType | BlockType | ConsensusType.

Record Inventory : Type := NewInventory {
  Type_ : InventoryType;
  Hashes : list util.Uint256
}.

End payload.

(** * Package transaction (core/transaction) *)

Module transaction.

(** Modelled from the spec: the declaration of [smartcontract.ParamType]
    is not part of the source tree.  It is an integer type: the encoder
    converts its values with [uint8], the decoder converts a [uint8] back. *)
Definition ParamType : Type := Z.

(** ** publish.go *)

(** The field [Version] of the Go struct is [Version0] here: the version
    of the enclosing transaction, set before the body is decoded. *)
Record PublishTX : Type := mkPublishTX {
  Script : list byte;
  ParamList : list ParamType;
  ReturnType : ParamType;
  NeedStorage : bool;
  Name : list byte;
  CodeVersion : list byte;
  Author : list byte;
  Email : list byte;
  Description : list byte;
  Version0 : Z          (* uint8 *)
}.

Definition PublishTX_EncodeBinary (tx : PublishTX) : list byte :=
  io.WriteBytes (Script tx) ++
  io.WriteVarUint (Go.len (ParamList tx)) ++
  concat ((fun param => io.WriteLE 1 (Go.uint8 param)) <$> ParamList tx) ++
  io.WriteLE 1 (Go.uint8 (ReturnType tx)) ++
  (if 1 <=? Version0 tx then io.WriteBool (NeedStorage tx) else []) ++
  io.WriteString (Name tx) ++
  io.WriteString (CodeVersion tx) ++
  io.WriteString (Author tx) ++
  io.WriteString (Email tx) ++
  io.WriteString (Description tx).

Definition readParamType : io.Reader ParamType :=
  io.andThen (io.ReadLE 1) (fun ptype => io.pure ptype).

(** [tx.DecodeBinary(br)] on a body whose [Version] is [version]. *)
Definition PublishTX_DecodeBinary (version : Z) : io.Reader PublishTX :=
  io.andThen io.ReadBytes (fun script =>
  io.andThen io.ReadVarUint (fun lenParams =>
  io.andThen (io.readMany readParamType (Z.to_nat lenParams)) (fun paramList =>
  io.andThen readParamType (fun rtype =>
  io.andThen (if 1 <=? version then io.ReadBool else io.pure false)
    (fun needStorage =>
  io.andThen io.ReadString (fun name =>
  io.andThen io.ReadString (fun codeVersion =>
  io.andThen io.ReadString (fun author =>
  io.andThen io.ReadString (fun email =>
  io.andThen io.ReadString (fun description =>
  io.pure (mkPublishTX script paramList rtype needStorage name codeVersion
                       author email description version))))))))))).

(** ** The transaction as the relay logic sees it

    Modelled from the spec: the transaction type is not part of the source
    tree; section 3 lists the variants of [Type], and the hash is a
    function of the content. *)

Inductive TXType : Type :=
| MinerType | IssueType | ClaimType | EnrollmentType | RegisterType
| VoteType | PublishType | InvocationType | ContractType.

#[global] Instance TXType_eq_dec : EqDecision TXType.
Proof. solve_decision. Defined.

Record Transaction : Type := mkTransaction {
  Type_ : TXType;
  Hash : util.Uint256
}.

End transaction.

(** * Package network (network/server.go) *)

Module network.

(** Modelled from the spec: [RelayReason] (relay_reason.go) is not part of
    the source tree; these are the six results that section 4.3 lists and
    that the RPC server switches on. *)
Inductive RelayReason : Type :=
| RelaySucceed
| RelayAlreadyExists
| RelayOutOfMemory
| RelayUnableToVerify
| RelayInvalid
| RelayPolicyFail.

Inductive CommandType : Type := CMDInv | CMDGetData | CMDTX | CMDBlock.

Record Message : Type := NewMessage {
  Magic : Z;
  Command : CommandType;
  Payload : payload.Inventory
}.

(** Modelled from the spec: the [Peer] interface is not part of the source
    tree.  A peer is known by its address and by the version payload it
    sent, a pointer that is nil as long as the handshake has not got that
    far; [WriteMsg] puts a message on its connection. *)
Record Peer : Type := mkPeer {
  PeerAddr : Z;
  Version : option payload.Version
}.

(** What a call of [RelayTxn] comes to: a result, or a panic. *)
Inductive Relayed : Type :=
| Returns (r : RelayReason)
| Panics (msg : string).

Section Server.

(** The chain behind the [core.Blockchainer] interface: its state, and the
    three calls that [RelayTxn] makes.  [TryAdd] is
    [GetMemPool().TryAdd(hash, NewPoolItem(t, chain))]: whether the pool
    took the transaction, and the chain with the pool afterwards. *)
Variable Chain : Type.
Variable HasTransaction : Chain -> util.Uint256 -> bool.
Variable VerifyTx : Chain -> transaction.Transaction -> option string.
Variable TryAdd :
  Chain -> util.Uint256 -> transaction.Transaction -> bool * Chain.

(** The map [s.peers] is the list of its keys, in the order in which a
    [range] over it visits them. *)
Record Server : Type := mkServer {
  Net : Z;
  chain : Chain;
  peers : list Peer
}.

(** Messages written to peers, in the order of the calls to [WriteMsg]. *)
Definition Sent : Type := list (Peer * Message).

(** [s.RelayDirectly(p, inv)]: the messages written, or the panic of
    [p.Version().Relay] on a nil version. *)
Definition RelayDirectly (s : Server) (p : Peer) (inv : payload.Inventory)
    : Try Sent :=
  match Version p with
  | None => Throw "invalid memory address or nil pointer dereference"
  | Some version =>
      if negb (payload.Relay version) then Val []
      else Val [(p, NewMessage (Net s) CMDInv inv)]
  end.

(** The loop of [RelayTxn] over the peers [ps] that are left, after [sent]
    was written. *)
Fixpoint relayLoop (s : Server) (t : transaction.Transaction)
    (ps : list Peer) (sent : Sent) : option string * Sent :=
  match ps with
  | [] => (None, sent)
  | p :: ps' =>
      let payload :=
        payload.NewInventory payload.TXType [transaction.Hash t] in
      match RelayDirectly s p payload with
      | Throw msg => (Some msg, sent)
      | Val out => relayLoop s t ps' (sent ++ out)
      end
  end.

(** [s.RelayTxn(t)]: the result, the chain afterwards and what was sent. *)
Definition RelayTxn (s : Server) (t : transaction.Transaction)
    : Relayed * Chain * Sent :=
  if decide (transaction.Type_ t = transaction.MinerType)
  then (Returns RelayInvalid, chain s, [])
  else if HasTransaction (chain s) (transaction.Hash t)
  then (Returns RelayAlreadyExists, chain s, [])
  else
    match VerifyTx (chain s) t with
    | Some _ => (Returns RelayInvalid, chain s, [])
    | None =>
        let '(ok, chain') := TryAdd (chain s) (transaction.Hash t) t in
        if negb ok then (Returns RelayOutOfMemory, chain', [])
        else
          match relayLoop s t (peers s) [] with
          | (Some msg, sent) => (Panics msg, chain', sent)
          | (None, sent) => (Returns RelaySucceed, chain', sent)
          end
    end.

(** [s.handleInvCmd(p, inv)]. *)
Definition handleInvCmd (s : Server) (p : Peer) (inv : payload.Inventory)
    : Sent :=
  let payload :=
    payload.NewInventory (payload.Type_ inv) (payload.Hashes inv) in
  [(p, NewMessage (Net s) CMDGetData payload)].

End Server.

Arguments mkServer {Chain} Net chain peers.
Arguments Net {Chain} s.
Arguments chain {Chain} s.
Arguments peers {Chain} s.
Arguments RelayDirectly {Chain} s p inv.
Arguments relayLoop {Chain} s t ps sent.
Arguments RelayTxn {Chain} HasTransaction VerifyTx TryAdd s t.
Arguments handleInvCmd {Chain} s p inv.

End network.

(** * The vocabulary of the statements

    The predicates and functions that the properties below are stated
    with, and the values of the repository's tests on which they are
    evaluated. *)

Section VMVocabulary.

Import vm.

Variable crypto : keys.Curve.

(** The machine after a handler replaced the top of the evaluation stack:
    [rest] below, [item] on top, [n] items counted. *)
Definition replaced (v : VM) (item : StackItem) (rest : list StackItem)
    (n : Z) : VM :=
  setStack Evaluation (item :: rest) (n, itemCount v) v.

(** The shift of [a] by a count [b] that is not negative. *)
Definition shifted (op : Instruction) (a b : Z) : Z :=
  if op =? SHL then Z.shiftl a b else Z.shiftr a b.

(** The integer that holds it: what [Lsh] or [Rsh] leaves in a new
    [big.Int]. *)
Definition shiftedInt (op : Instruction) (a b : Z) : Go.Int :=
  if op =? SHL then Go.Lsh a b else Go.Rsh a b.

(** Addresses of the heap that the counter does not count yet: adding an
    item descends only into those. *)
Definition uncounted (h : gmap ref Object) (cnt : gmap ref nat) : gset ref :=
  filter (fun p => default O (cnt !! p) = O) (dom h).

(** A counter that counts at least what another one counts. *)
Definition grows (c c' : Counter) : Prop :=
  c.1 <= c'.1 /\
  forall p, (default O (c.2 !! p) <= default O (c'.2 !! p))%nat.





(** The entries of two maps agree: the maps have the same number of
    entries, and every key of the first map is a key of the second, with
    the same value. *)
Definition agree (m1 m2 : list (StackItem * StackItem)) : Prop :=
  length m1 = length m2 /\
  Forall (fun kv => lookupEntry kv.1 m2 = Some kv.2) m1.

#[global] Instance agree_dec m1 m2 : Decision (agree m1 m2).
Proof. unfold agree. apply _. Defined.

(** Two objects hold the same elements. *)
Definition objectsEqual (o1 o2 : Object) : Prop :=
  match o1, o2 with
  | Slice xs, Slice ys => xs = ys
  | Table m1, Table m2 => agree m1 m2
  | _, _ => False
  end.

#[global] Instance objectsEqual_dec o1 o2 : Decision (objectsEqual o1 o2).
Proof. destruct o1, o2; simpl; apply _. Defined.


(** The item of the instruction's own kind, and of the other kind. *)
Definition own (op : Instruction) (p : ref) : StackItem :=
  if op =? NEWARRAY then ArrayItem p else StructItem p.

Definition other (op : Instruction) (p : ref) : StackItem :=
  if op =? NEWARRAY then StructItem p else ArrayItem p.




(** States of the machine that running a loaded script leads to, through
    instructions that [dispatch] has a case for. *)
Inductive reachable : VM -> Prop :=
| reach_load prog : reachable (load prog)
| reach_SetCheckedHash h v :
    reachable v -> reachable (SetCheckedHash h v)
| reach_Step v v' e :
    reachable v -> Step crypto v = Returned v' e -> reachable v'
| reach_Run fuel v v' e :
    reachable v -> Run crypto fuel v = Returned v' e -> reachable v'.


(** [n] times [Step], as long as it returns without an error. *)
Fixpoint steps (n : nat) (v : VM) : option VM :=
  match n with
  | O => Some v
  | S n' =>
      match Step crypto v with
      | Returned v' None => steps n' v'
      | _ => None
      end
  end.

(** ** The counter and the items on the stacks *)

(** How often the collection at [p] is on a stack. *)
Fixpoint occurrences (p : ref) (l : list StackItem) : nat :=
  match l with
  | [] => 0
  | item :: l' =>
      (if decide (compound item = Some p) then 1 else 0) + occurrences p l'
  end.

(** The elements of the collections that are counted. *)
Definition weight (h : gmap ref Object) (cnt : gmap ref nat) : Z :=
  map_fold (fun p (_ : nat) acc => acc + Go.len (children h p)) 0 cnt.

(** An item whose collection, if it is one, is in the heap. *)
Definition valid (h : gmap ref Object) (item : StackItem) : Prop :=
  forall p, compound item = Some p -> is_Some (h !! p).

(** The counter agrees with the stacks: no collection holds a collection,
    every counted collection is in the heap, a collection is counted as
    often as it is on the evaluation and alt stacks, and [size] is the
    number of items on the two stacks and of elements of the counted
    collections. *)
Definition accounted (v : VM) : Prop :=
  (forall p, Forall (fun it => compound it = None) (children (heap v) p)) /\
  (forall p n, itemCount v !! p = Some n -> is_Some (heap v !! p)) /\
  (forall p,
     itemCount v !! p =
       let n := occurrences p (estack v ++ astack v) in
       if decide (n = 0)%nat then None else Some n) /\
  size v =
    Go.len (estack v) + Go.len (astack v) + weight (heap v) (itemCount v).

(** What a handler leaves: the machine is accounted when it returns and
    when it panics, and a result satisfies [Q]. *)
Definition post {A} (Q : A -> VM -> Prop) (r : Result A) : Prop :=
  match r with
  | Ok a v' => accounted v' /\ Q a v'
  | Panic _ v' => accounted v'
  | Stuck => True
  end.

(** The stacks after a push and before a pop. *)
Definition stacks (v : VM) : list StackItem := estack v ++ astack v.

(** The number of items on the two stacks. *)
Definition depth (v : VM) : Z := Go.len (estack v) + Go.len (astack v).

(** The invariant in terms of a counter and the stacks it is for. *)
Definition counts (h : gmap ref Object) (c : Counter) (l : list StackItem)
    (d : Z) : Prop :=
  (forall p n, c.2 !! p = Some n -> is_Some (h !! p)) /\
  (forall p,
     c.2 !! p =
       let n := occurrences p l in
       if decide (n = 0)%nat then None else Some n) /\
  c.1 = d + weight h c.2.

(** No collection of the heap holds a collection. *)
Definition flat (h : gmap ref Object) : Prop :=
  forall p, Forall (fun it => compound it = None) (children h p).

(** Computations that only read the machine. *)
Definition reads {A} (m : M A) : Prop :=
  forall v, match m v with
            | Ok _ v' | Panic _ v' => v' = v
            | Stuck => True
            end.

(** A handler that leaves an accounted machine accounted. *)
Definition keeps (m : M unit) : Prop :=
  forall v, accounted v -> post (fun _ _ => True) (m v).

(** ** Machines of the tests *)

(** The string of the tests of SUBSTR, LEFT and RIGHT. *)
Definition abcdef : list byte := [x61; x62; x63; x64; x65; x66].




(** The number 4 below the shift count -1. *)
Definition negativeCount : VM :=
  setStack Evaluation
    [BigIntegerItem (Go.NewInt (-1)); BigIntegerItem (Go.NewInt 4)]
    (2, ∅) (load (makeProgram [SHR])).











End VMVocabulary.

(** ** Encoders and decoders *)

(** A reader on [bs] that has met no error. *)
Definition ready (bs : list byte) : io.BinReader := io.mkReader bs None.

Section WireVocabulary.

Import payload.

(** The values of the Go types: every integer field in the range of its
    type, every length in the range of [uint64], every hash of 32 bytes. *)
Definition validVersion (p : Version) : Prop :=
  0 <= Version0 p < 2 ^ 32 /\ 0 <= Services p < 2 ^ 64 /\
  0 <= Timestamp p < 2 ^ 32 /\ 0 <= Port p < 2 ^ 16 /\
  0 <= Nonce p < 2 ^ 32 /\ Go.len (UserAgent p) < 2 ^ 64 /\
  0 <= StartHeight p < 2 ^ 32.

Definition validGetBlocks (p : GetBlocks) : Prop :=
  Forall util.validUint256 (HashStart p) /\ util.validUint256 (HashStop p) /\
  Go.len (HashStart p) < 2 ^ 64.

End WireVocabulary.

Section PublishVocabulary.

Import transaction.

(** The values of the type: [Version] is a [uint8], a parameter type fits
    the byte it is written as, a length fits a [uint64]. *)
Definition validPublishTX (tx : PublishTX) : Prop :=
  0 <= Version0 tx < 2 ^ 8 /\
  Forall (fun param => 0 <= param < 2 ^ 8) (ParamList tx) /\
  0 <= ReturnType tx < 2 ^ 8 /\
  Go.len (Script tx) < 2 ^ 64 /\ Go.len (ParamList tx) < 2 ^ 64 /\
  Go.len (Name tx) < 2 ^ 64 /\ Go.len (CodeVersion tx) < 2 ^ 64 /\
  Go.len (Author tx) < 2 ^ 64 /\ Go.len (Email tx) < 2 ^ 64 /\
  Go.len (Description tx) < 2 ^ 64.

End PublishVocabulary.

(** A value of each of the three types. *)
Definition exampleVersion : payload.Version :=
  payload.mkVersion 0 1 1571000000 10333 2147483647
                    [x2f; x4e; x45; x4f; x2d; x47; x4f; x2f] 4096 true.

Definition exampleGetBlocks : payload.GetBlocks :=
  payload.NewGetBlocks [replicate 32 x01; replicate 32 x02]
                       (replicate 32 x00).

(** A publish body of version 1 with the storage flag. *)
Definition examplePublish : transaction.PublishTX :=
  transaction.mkPublishTX [x51; x66] [7; 2] 1 true [x61] [x31] [x62] [x63]
                          [x64] 1.

(** The same body in a transaction of version 0. *)
Definition publishVersion0 : transaction.PublishTX :=
  transaction.mkPublishTX [x51; x66] [7; 2] 1 true [x61] [x31] [x62] [x63]
                          [x64] 0.

(** ** The server *)

Section ServerVocabulary.

Import network.

Variable Chain : Type.

(** A peer that sent its version. *)
Definition handshaked (p : Peer) : Prop := is_Some (Version p).

(** A peer whose version asks for relaying. *)
Definition relays (p : Peer) : bool :=
  match Version p with
  | Some version => payload.Relay version
  | None => false
  end.

(** The inv message that announces [t] to [p]. *)
Definition invOf (s : Server Chain) (t : transaction.Transaction)
    (p : Peer) : Peer * Message :=
  (p, NewMessage (Net s) CMDInv
        (payload.NewInventory payload.TXType [transaction.Hash t])).

(** A stand-in for the chain: the hashes of its transactions, a
    verification that accepts everything and a pool that takes
    everything. *)
Definition exampleChain : Type := list util.Uint256.

Definition exampleHas (c : exampleChain) (h : util.Uint256) : bool :=
  bool_decide (h ∈ c).

Definition exampleVerify (c : exampleChain) (t : transaction.Transaction)
    : option string := None.

Definition exampleTryAdd (c : exampleChain) (h : util.Uint256)
    (t : transaction.Transaction) : bool * exampleChain := (true, c).

(** A hash that the chain of [exampleServer] has, and one that it has
    not; a peer that asked for relaying, and one that did not. *)
Definition knownHash : util.Uint256 := replicate 32 x01.
Definition newHash : util.Uint256 := replicate 32 x02.

Definition relayingPeer : Peer :=
  mkPeer 1 (Some (payload.mkVersion 0 1 0 10333 1 [] 0 true)).

Definition silentPeer : Peer :=
  mkPeer 2 (Some (payload.mkVersion 0 1 0 10333 2 [] 0 false)).

Definition exampleServer : Server exampleChain :=
  mkServer 56753 [knownHash] [relayingPeer; silentPeer].

End ServerVocabulary.

Arguments invOf {Chain} s t p.

(** * More of the Go library *)

(** [a.Cmp(b)] of [big.Int]: -1, 0 or 1. *)
Definition Cmp (a b : Z) : Z :=
  match a ?= b with
  | Lt => -1
  | Eq => 0
  | Gt => 1
  end.

(** [s[i]] for an [int] index: nil stands for the panic of the runtime. *)
Definition index {A} (s : list A) (i : Z) : option A :=
  if i <? 0 then None else s !! Z.to_nat i.

(** [new(big.Int).Add(x, y)] and [new(big.Int).Sub(x, y)]: [nat.add] and
    [nat.sub] return the receiver's slice cut to length zero, which is
    nil, when both magnitudes are empty; in every other case they
    allocate, also for the zero that two equal magnitudes leave. *)
Definition newAdd (x y : Z) : Go.Int :=
  if (x =? 0) && (y =? 0) then Go.NewInt 0 else Go.allocated (x + y).

Definition newSub (x y : Z) : Go.Int :=
  if (x =? 0) && (y =? 0) then Go.NewInt 0 else Go.allocated (x - y).

(** [new(big.Int).Mul(x, y)]: [nat.mul] and [nat.sqr] return the
    receiver's slice cut to length zero for an empty factor. *)
Definition newMul (x y : Z) : Go.Int := Go.NewInt (x * y).

(** * More of package keys (publickey.go) *)

Section MoreKeys.

Import keys.

(** [keys.Less(i, j)] of the sort interface.  A comparison through a nil
    coordinate is the panic of a nil dereference here (newer versions of
    the library answer 0 for two nil pointers); the properties below are
    about keys whose X coordinates are set. *)
Definition Less (ks : list PublicKey) (i j : Z) : Try bool :=
  match index ks i, index ks j with
  | Some ki, Some kj =>
      match X ki, X kj with
      | Some xi, Some xj =>
          if Cmp xi xj =? -1 then Val true
          else if Cmp xi xj =? 1 then Val false
          else if Cmp xi xj =? 0 then Val false
          else
            match Y ki, Y kj with
            | Some yi, Some yj => Val (Cmp yi yj =? -1)
            | _, _ => Throw vm.nilDereference
            end
      | _, _ => Throw vm.nilDereference
      end
  | _, _ => Throw "runtime error: index out of range"
  end.

(** [p.IsInfinity()]. *)
Definition IsInfinity (p : PublicKey) : bool :=
  match X p, Y p with
  | None, None => true
  | _, _ => false
  end.

(** [x.Bytes()] of [big.Int]: the absolute value, big-endian, without
    leading zeros. *)
Definition bigBytes (x : Z) : list byte :=
  reverse (Go.Z_to_le (S (Z.to_nat (Z.log2 (Z.abs x)))) (Z.abs x)).

(** [p.Bytes()]: one zero byte for the empty key, and otherwise the
    prefix 2 or 3 by the lowest bit of Y, followed by X padded to 32
    bytes.  [bytes.Repeat] panics on a negative count. *)
Definition PublicKey_Bytes (p : PublicKey) : Try (list byte) :=
  if IsInfinity p then Val [x00]
  else
    match X p with
    | None => Throw vm.nilDereference
    | Some x =>
        let xb := bigBytes x in
        if 32 <? Go.len xb then Throw "bytes: negative Repeat count"
        else
          let paddedX := replicate (Z.to_nat (32 - Go.len xb)) x00 ++ xb in
          match Y p with
          | None => Throw vm.nilDereference
          | Some y =>
              let prefix := if Z.testbit y 0 then x03 else x02 in
              Val (prefix :: paddedX)
          end
    end.

(** A curve whose square root recovers [y] from [x] and the lowest bit of
    [y]. *)
Definition recovers (c : Curve) (x y : Z) : Prop :=
  decodeCompressedY c x (Z.b2z (Z.testbit y 0)) = Some y.

(** A curve for the examples on which the square root is always 5. *)
Definition rootFive : Curve :=
  mkCurve 97 3 (fun _ _ => Some 5) (fun _ _ => true) (fun _ _ _ _ _ => false).

(** Two keys with the same X coordinate and different Y coordinates. *)
Definition twins : list PublicKey :=
  [mkPublicKey (Some 5) (Some 1); mkPublicKey (Some 5) (Some 2)].

End MoreKeys.

(** * More of package vm (vm.go)

    Cases of the switch of [execute] that work on integers, with the stack
    helpers of the cases above. *)

Section MoreCases.

Import vm.

(** Opcodes of these cases, and [PUSH2], numbered as the others are. *)
Definition PUSH2 : Instruction := 0x52.
Definition INC : Instruction := 0x8B.
Definition DEC : Instruction := 0x8C.
Definition DIV : Instruction := 0x96.
Definition MOD : Instruction := 0x97.
Definition MIN : Instruction := 0xA3.
Definition WITHIN : Instruction := 0xA5.

(** [big.Int.Div] and [big.Int.Mod] of the Go library are Euclidean: the
    remainder is never negative.  Both panic on a zero divisor. *)
Definition bigDiv (a b : Z) : Z := Z.sgn b * (a / Z.abs b).
Definition bigMod (a b : Z) : Z := a mod Z.abs b.

(** [new(big.Int).Div(a, b)] for [b <> 0]: [nat.div] returns the
    receiver's slice cut to length zero as the quotient of a dividend
    that is smaller than the divisor, and the correction of a quotient
    for a negative remainder never gives zero. *)
Definition newDiv (a b : Z) : Go.Int := Go.NewInt (bigDiv a b).

(** [new(big.Int).Mod(a, b)] for [b <> 0]: the remainder is written into
    the receiver; [nat.div] leaves it nil when it is empty and comes from
    a dividend smaller than the divisor or from the division by one
    word, and the long division by more than one word of 64 bits
    allocates it. *)
Definition newMod (a b : Z) : Go.Int :=
  if (bigMod a b =? 0) && ((a =? 0) || (Z.abs b <? 2 ^ 64))
  then Go.NewInt 0
  else Go.allocated (bigMod a b).

(** Modelled from the spec: [Element.BigInt] (stack.go) is not part of
    the source tree.  [Integer] is the [*big.Int] that it returns: the
    integer that an integer item holds, [big.NewInt] of 1 or 0 for a
    boolean, and for a byte array the integer that [SetBytes] makes of
    the bytes, whose magnitude stays nil when there is no byte. *)
Definition Integer (item : StackItem) : Try Go.Int :=
  match item with
  | BigIntegerItem z => Val z
  | BoolItem b => Val (Go.NewInt (if b then 1 else 0))
  | ByteArrayItem bs =>
      Val (if decide (bs = []) then Go.NewInt 0
           else Go.allocated (Go.le_to_Z bs))
  | _ => Throw "interface conversion: interface {} is not []uint8"
  end.

Definition elemInteger (e : option StackItem) : M Go.Int :=
  match e with
  | Some item => try (Integer item)
  | None => panic nilDereference
  end.

Definition divisionByZero : string := "division by zero".

Definition opADD : M unit :=
  let* ea := Pop Evaluation in
  let* a := elemBigInt ea in
  let* _ := checkBigIntSize a in
  let* eb := Pop Evaluation in
  let* b := elemBigInt eb in
  let* _ := checkBigIntSize b in
  let c := newAdd a b in
  let* _ := checkBigIntSize (Go.value c) in
  PushVal (BigIntegerItem c).

Definition opSUB : M unit :=
  let* eb := Pop Evaluation in
  let* b := elemBigInt eb in
  let* _ := checkBigIntSize b in
  let* ea := Pop Evaluation in
  let* a := elemBigInt ea in
  let* _ := checkBigIntSize a in
  let c := newSub a b in
  let* _ := checkBigIntSize (Go.value c) in
  PushVal (BigIntegerItem c).

Definition opMUL : M unit :=
  let* ea := Pop Evaluation in
  let* a := elemBigInt ea in
  let* _ := checkBigIntSize a in
  let* eb := Pop Evaluation in
  let* b := elemBigInt eb in
  let* _ := checkBigIntSize b in
  let c := newMul a b in
  let* _ := checkBigIntSize (Go.value c) in
  PushVal (BigIntegerItem c).

Definition opDIV : M unit :=
  let* eb := Pop Evaluation in
  let* b := elemBigInt eb in
  let* _ := checkBigIntSize b in
  let* ea := Pop Evaluation in
  let* a := elemBigInt ea in
  let* _ := checkBigIntSize a in
  if b =? 0 then panic divisionByZero
  else PushVal (BigIntegerItem (newDiv a b)).

Definition opMOD : M unit :=
  let* eb := Pop Evaluation in
  let* b := elemBigInt eb in
  let* _ := checkBigIntSize b in
  let* ea := Pop Evaluation in
  let* a := elemBigInt ea in
  let* _ := checkBigIntSize a in
  if b =? 0 then panic divisionByZero
  else PushVal (BigIntegerItem (newMod a b)).

Definition opINC : M unit :=
  let* ex := Pop Evaluation in
  let* x := elemBigInt ex in
  let a := newAdd x 1 in
  let* _ := checkBigIntSize (Go.value a) in
  PushVal (BigIntegerItem a).

Definition opDEC : M unit :=
  let* ex := Pop Evaluation in
  let* x := elemBigInt ex in
  let a := newSub x 1 in
  let* _ := checkBigIntSize (Go.value a) in
  PushVal (BigIntegerItem a).

Definition opNUMEQUAL : M unit :=
  let* eb := Pop Evaluation in
  let* b := elemBigInt eb in
  let* ea := Pop Evaluation in
  let* a := elemBigInt ea in
  PushVal (BoolItem (Cmp a b =? 0)).

Definition opNUMNOTEQUAL : M unit :=
  let* eb := Pop Evaluation in
  let* b := elemBigInt eb in
  let* ea := Pop Evaluation in
  let* a := elemBigInt ea in
  PushVal (BoolItem (negb (Cmp a b =? 0))).

Definition opLT : M unit :=
  let* eb := Pop Evaluation in
  let* b := elemBigInt eb in
  let* ea := Pop Evaluation in
  let* a := elemBigInt ea in
  PushVal (BoolItem (Cmp a b =? -1)).

Definition opGT : M unit :=
  let* eb := Pop Evaluation in
  let* b := elemBigInt eb in
  let* ea := Pop Evaluation in
  let* a := elemBigInt ea in
  PushVal (BoolItem (Cmp a b =? 1)).

Definition opLTE : M unit :=
  let* eb := Pop Evaluation in
  let* b := elemBigInt eb in
  let* ea := Pop Evaluation in
  let* a := elemBigInt ea in
  PushVal (BoolItem (Cmp a b <=? 0)).

Definition opGTE : M unit :=
  let* eb := Pop Evaluation in
  let* b := elemBigInt eb in
  let* ea := Pop Evaluation in
  let* a := elemBigInt ea in
  PushVal (BoolItem (0 <=? Cmp a b)).

Definition opMIN : M unit :=
  let* eb := Pop Evaluation in
  let* b := elemInteger eb in
  let* ea := Pop Evaluation in
  let* a := elemInteger ea in
  let val := if Cmp (Go.value a) (Go.value b) =? 1 then b else a in
  PushVal (BigIntegerItem val).

Definition opMAX : M unit :=
  let* eb := Pop Evaluation in
  let* b := elemInteger eb in
  let* ea := Pop Evaluation in
  let* a := elemInteger ea in
  let val := if Cmp (Go.value a) (Go.value b) =? -1 then b else a in
  PushVal (BigIntegerItem val).

Definition opWITHIN : M unit :=
  let* eb := Pop Evaluation in
  let* b := elemBigInt eb in
  let* ea := Pop Evaluation in
  let* a := elemBigInt ea in
  let* ex := Pop Evaluation in
  let* x := elemBigInt ex in
  PushVal (BoolItem ((Cmp a x <=? 0) && (Cmp x b =? -1))).

(** The body of [execute] around one case of its switch: the deferred
    function turns a panic of the case into the fault state and an error,
    and does the same when the case returns with more than [MaxStackSize]
    items counted.  [execute] is this function on the case that [dispatch]
    selects. *)
Definition executeCase (ctx_ip : Z) (op : Instruction) (case : M unit)
    (v : VM) : Outcome :=
  match case v with
  | Stuck => OutOfModel
  | Panic msg v' =>
      Returned (setState faultState v')
               (Some (ErrorAt (newError ctx_ip op msg)))
  | Ok _ v' =>
      if MaxStackSize <? size v'
      then Returned (setState faultState v')
                    (Some (ErrorAt (newError ctx_ip op "stack is too big")))
      else Returned v' None
  end.

(** An outcome that is a fault: an error, and the fault flag set. *)
Definition faults (o : Outcome) : Prop :=
  exists v e, o = Returned v (Some e) /\ HasFailed v = true.

(** An integer that [checkBigIntSize] lets through. *)
Definition fits (a : Z) : Prop := Z.abs a < 2 ^ MaxBigIntegerSizeBits.

#[global] Instance fits_dec a : Decision (fits a).
Proof. unfold fits. apply _. Defined.

(** What a case makes of the machine [v] whose two top operands read as
    [x] (below) and [y] (top), when the exact result is [r]: the result
    replaces the operands when the operands and the result fit, and the
    machine faults otherwise. *)
Definition exactOrFault (case : M unit) (v : VM) (rest : list StackItem)
    (x y : Z) (r : Go.Int) : Prop :=
  forall ctx_ip op,
    (fits x /\ fits y /\ fits (Go.value r) ->
     executeCase ctx_ip op case v =
       Returned (replaced v (BigIntegerItem r) rest (size v - 1)) None) /\
    (~ (fits x /\ fits y /\ fits (Go.value r)) ->
     faults (executeCase ctx_ip op case v)).

(** What a case that pushes a truth value makes of the machine: [r]
    replaces the operands, [n] items are counted. *)
Definition pushesBool (case : M unit) (v : VM) (rest : list StackItem)
    (r : bool) (n : Z) : Prop :=
  forall ctx_ip op,
    executeCase ctx_ip op case v =
      Returned (replaced v (BoolItem r) rest n) None.

(** The machine of the arithmetic tests before it runs: a loaded machine
    with scalar items pushed on its evaluation stack, the last one first
    in the list. *)
Definition pushed (items : list StackItem) : VM :=
  setStack Evaluation items (Go.len items, ∅) (load (makeProgram [])).

(** The machine of TestAdd, TestSub and TestMul: 4 below 2. *)
Definition fourBelowTwo : VM :=
  pushed [BigIntegerItem (Go.NewInt 2); BigIntegerItem (Go.NewInt 4)].

(** The machine with -7 below 2. *)
Definition minusSevenBelowTwo : VM :=
  pushed [BigIntegerItem (Go.NewInt 2); BigIntegerItem (Go.NewInt (-7))].

(** The bounds 1 and 5 above the number 5. *)
Definition fiveInOneFive : VM :=
  pushed [BigIntegerItem (Go.NewInt 5); BigIntegerItem (Go.NewInt 1);
          BigIntegerItem (Go.NewInt 5)].

(** The machine after [n] instructions of a script, for scripts that run
    that far. *)
Definition afterSteps (n : nat) (opcodes : list Instruction) : VM :=
  default New (steps exampleCurve n (load (makeProgram opcodes))).

(** What [Run] returns, when it returns: an error exactly with the fault
    flag set, and without an error a machine that has halted or stands at
    a break-point. *)
Definition runResult (o : Outcome) : Prop :=
  match o with
  | Returned v' e =>
      (is_Some e <-> HasFailed v' = true) /\
      (e = None ->
       HasHalted v' = true \/ HasFlag (state v') breakState = true)
  | _ => True
  end.

(** What a machine keeps when only its stacks and counter change. *)
Definition sameBut (v v' : VM) : Prop :=
  state v' = state v /\ istack v' = istack v /\
  checkhash v' = checkhash v /\ heap v' = heap v.

End MoreCases.

(** * More of package transaction (output.go) *)

Section MoreTransaction.

(** [Uint160] is an array of 20 bytes. *)
Definition Uint160Size : nat := 20.

(** [Amount] is a [util.Fixed8], an [int64]. *)
Record Output : Type := mkOutput {
  AssetID : util.Uint256;
  Amount : Z;
  ScriptHash : list byte;
  Position : Z
}.

Definition NewOutput (assetID : util.Uint256) (amount : Z)
    (scriptHash : list byte) : Output :=
  mkOutput assetID amount scriptHash 0.

(** [w.WriteLE(x)] for an [int64]: the eight bytes of its two's
    complement. *)
Definition WriteInt64 (x : Z) : list byte := io.WriteLE 8 (x mod 2 ^ 64).

Definition Output_EncodeBinary (out : Output) : list byte :=
  AssetID out ++ WriteInt64 (Amount out) ++ ScriptHash out.

(** [r.ReadLE(&a)] for an array of [n] bytes and for an [int64] that are
    fields of the receiver: a field keeps its value when the read fails. *)
Definition readArray (n : nat) (old : list byte) : io.Reader (list byte) :=
  io.andThen (io.readN n) (fun o => io.pure (default old o)).

Definition readInt64 (old : Z) : io.Reader Z :=
  io.andThen (io.readN 8) (fun o =>
    io.pure (match o with
             | Some bs => Go.int64_of_uint64 (Go.le_to_Z bs)
             | None => old
             end)).

(** [out.DecodeBinary(br)] on the receiver [out]. *)
Definition Output_DecodeBinary (out : Output) : io.Reader Output :=
  io.andThen (readArray util.Uint256Size (AssetID out)) (fun assetID =>
  io.andThen (readInt64 (Amount out)) (fun amount =>
  io.andThen (readArray Uint160Size (ScriptHash out)) (fun scriptHash =>
  io.pure (mkOutput assetID amount scriptHash (Position out))))).

(** The values of the type: arrays of 32 and 20 bytes, an [int64]. *)
Definition validOutput (out : Output) : Prop :=
  util.validUint256 (AssetID out) /\
  - 2 ^ 63 <= Amount out < 2 ^ 63 /\
  length (ScriptHash out) = Uint160Size.

(** An output with a negative amount at position 7. *)
Definition exampleOutput : Output :=
  mkOutput (replicate 32 x01) (-100000000) (replicate 20 x02) 7.

End MoreTransaction.

(** * More of package network (server.go) *)

Section MoreServer.

Import network.

(** More of the chain behind the [core.Blockchainer] interface: the
    heights, which are [uint32], and the hashes of the headers. *)
Variable Chain : Type.
Variable BlockHeight : Chain -> Z.
Variable HeaderHeight : Chain -> Z.
Variable GetHeaderHash : Chain -> Z -> util.Uint256.
Variable CurrentHeaderHash : Chain -> util.Uint256.

Definition maxBlockBatch : Z := 200.

(** What is written to a peer: a message with an inventory, as above, or
    a getheaders message with its payload. *)
Inductive Written : Type :=
| WriteInventory (m : Message)
| WriteGetHeaders (magic : Z) (p : payload.GetBlocks).

(** [s.requestHeaders(p)]. *)
Definition requestHeaders (s : Server Chain) (p : Peer)
    : list (Peer * Written) :=
  let start := [CurrentHeaderHash (chain s)] in
  let payload := payload.NewGetBlocks start (replicate 32 x00) in
  [(p, WriteGetHeaders (Net s) payload)].

(** The loop of [requestBlocks]; the bound on the number of hashes bounds
    the number of its passes, and [fuel] is that bound. *)
Fixpoint collectHashes (c : Chain) (fuel : nat) (hashStart headerHeight : Z)
    (hashes : list util.Uint256) : list util.Uint256 :=
  match fuel with
  | O => hashes
  | S fuel' =>
      if (hashStart <=? headerHeight) && (Go.len hashes <? maxBlockBatch)
      then
        let hash := GetHeaderHash c hashStart in
        collectHashes c fuel' ((hashStart + 1) mod 2 ^ 32) headerHeight
                      (hashes ++ [hash])
      else hashes
  end.

(** [s.requestBlocks(p)]: what is written, or the panic of
    [p.Version().StartHeight] on a nil version. *)
Definition requestBlocks (s : Server Chain) (p : Peer)
    : Try (list (Peer * Written)) :=
  let hashStart := (BlockHeight (chain s) + 1) mod 2 ^ 32 in
  let headerHeight := HeaderHeight (chain s) in
  let hashes :=
    collectHashes (chain s) (Z.to_nat maxBlockBatch) hashStart headerHeight
                  [] in
  if 0 <? Go.len hashes then
    let payload := payload.NewInventory payload.BlockType hashes in
    Val [(p, WriteInventory (NewMessage (Net s) CMDGetData payload))]
  else
    match Version p with
    | None => Throw "invalid memory address or nil pointer dereference"
    | Some version =>
        if HeaderHeight (chain s) <? payload.StartHeight version
        then Val (requestHeaders s p)
        else Val []
    end.

End MoreServer.

Arguments requestHeaders {Chain} CurrentHeaderHash s p.
Arguments collectHashes {Chain} GetHeaderHash c fuel hashStart headerHeight
  hashes.
Arguments requestBlocks {Chain} BlockHeight HeaderHeight GetHeaderHash
  CurrentHeaderHash s p.

Section MoreServerVocabulary.

Import network.

(** A stand-in for the chain: its block height and its header height;
    the hash of the header at a height is the height written on 32
    bytes. *)
Definition heights : Type := (Z * Z)%type.
Definition heightHash (c : heights) (i : Z) : util.Uint256 := io.putLE 32 i.

(** A server that has 10 blocks and 500 headers. *)
Definition behind : Server heights := mkServer 56753 (10, 500) [].

End MoreServerVocabulary.

(** * Package rpc (rpc/server.go) *)

Section RPC.

Import network.

Variable Chain : Type.
Variable HasTransaction : Chain -> util.Uint256 -> bool.
Variable VerifyTx : Chain -> transaction.Transaction -> option string.
Variable TryAdd :
  Chain -> util.Uint256 -> transaction.Transaction -> bool * Chain.

(** The switch of [sendrawtransaction] over the result of [RelayTxn]:
    [results] and the message of [err]. *)
Definition relayAnswer (relayReason : RelayReason)
    : option bool * option string :=
  match relayReason with
  | RelaySucceed => (Some true, None)
  | RelayAlreadyExists =>
      (None, Some "block or transaction already exists and cannot be sent repeatedly")
  | RelayOutOfMemory =>
      (None, Some "the memory pool is full and no more transactions can be sent")
  | RelayUnableToVerify => (None, Some "the block cannot be validated")
  | RelayInvalid => (None, Some "block or transaction validation failed")
  | RelayPolicyFail => (None, Some "one of the Policy filters failed")
  end.

(** [s.sendrawtransaction(reqParams)] from the point where the parameter
    was decoded into the transaction [tx]: [results] and the message of
    [resultsErr], or the panic of [RelayTxn]; the chain afterwards and what
    was sent to the peers. *)
Definition sendrawtransaction (s : Server Chain) (tx : transaction.Transaction)
    : Try (option bool * option string) * Chain * Sent :=
  match RelayTxn HasTransaction VerifyTx TryAdd s tx with
  | (Returns relayReason, chain', sent) =>
      (Val (relayAnswer relayReason), chain', sent)
  | (Panics msg, chain', sent) => (Throw msg, chain', sent)
  end.

(** The three messages that [sendrawtransaction] can answer with. *)
Definition refusals : list string :=
  ["block or transaction already exists and cannot be sent repeatedly";
   "the memory pool is full and no more transactions can be sent";
   "block or transaction validation failed"].

End RPC.

Arguments sendrawtransaction {Chain} HasTransaction VerifyTx TryAdd s tx.

(** * Package core (blockchain utilities) *)

Section Core.

Context {Header : Type}.

(** The loop of [headerSliceReverse] on the slice [dest], which it updates
    in place; [fuel] bounds the number of its passes. *)
Fixpoint reverseLoop (fuel : nat) (i j : Z) (dest : list Header)
    : Try (list Header) :=
  match fuel with
  | O => Val dest
  | S fuel' =>
      if i <? j then
        match index dest i, index dest j with
        | Some a, Some b =>
            reverseLoop fuel' (i + 1) (j - 1)
              (<[Z.to_nat j := a]> (<[Z.to_nat i := b]> dest))
        | _, _ => Throw "runtime error: index out of range"
        end
      else Val dest
  end.

(** [headerSliceReverse(dest)]: the slice afterwards. *)
Definition headerSliceReverse (dest : list Header) : Try (list Header) :=
  reverseLoop (length dest) 0 (Go.len dest - 1) dest.

End Core.

(** ** Multi-signature scripts (smartcontract/contract.go, core/util.go) *)

Section Consensus.

(** What follows the checks of [CreateMultiSigRedeemScript]: the script
    is written with [vm.EmitInt], [sort.Sort], [vm.EmitBytes] and
    [vm.EmitOpcode], which are not part of the source tree, as is
    [hash.Hash160]. *)
Variable emitScript : Z -> list keys.PublicKey -> Try (list byte).
Variable Hash160 : list byte -> list byte.

(** [CreateMultiSigRedeemScript(m, publicKeys)]; the messages of its
    errors are without the numbers that the source formats into them. *)
Definition CreateMultiSigRedeemScript (m : Z)
    (publicKeys : list keys.PublicKey) : Try (list byte) :=
  if m <=? 1 then Throw "param m cannot be smaller or equal to 1"
  else if Go.len publicKeys <? m
  then Throw "length of the signatures is higher then the number of public keys"
  else if 1024 <? m
  then Throw "public key count exceeds maximum of length 1024"
  else emitScript m publicKeys.

(** [getNextConsensusAddress(validators)]; the division of Go truncates. *)
Definition getNextConsensusAddress (validators : list keys.PublicKey)
    : Try (list byte) :=
  let vlen := Go.len validators in
  match CreateMultiSigRedeemScript (vlen - (vlen - 1) ÷ 3) validators with
  | Throw err => Throw err
  | Val raw => Val (Hash160 raw)
  end.

(** The script of the genesis block's issue output, for the validators of
    the configuration: [CreateMultiSigRedeemScript(len/2+1, validators)]. *)
Definition genesisScript (validators : list keys.PublicKey)
    : Try (list byte) :=
  CreateMultiSigRedeemScript (Go.len validators ÷ 2 + 1) validators.

End Consensus.

(** Four validators, and a script writer and a hash for the examples. *)
Definition fourValidators : list keys.PublicKey :=
  replicate 4 (keys.mkPublicKey (Some 1) (Some 1)).

Definition thresholdOnly (m : Z) (ks : list keys.PublicKey)
    : Try (list byte) :=
  Val [Go.byte_of_Z m].

(** * Package server of the command line (cli/server/server.go) *)

Section DumpRestore.

(** The blocks of the chain and of the file.  [blockAt i] is
    [chain.GetBlock(chain.GetHeaderHash(i))], nil when it returns an
    error; the encoder and the decoder of a block and [chain.AddBlock]
    are not part of the source tree. *)
Variable Block : Type.
Variable blockAt : Z -> option Block.
Variable EncodeBinary : Block -> list byte.
Variable DecodeBinary : io.Reader Block.
Variable Chain : Type.
Variable AddBlock : Chain -> Block -> Try Chain.

(** [uint32] arithmetic wraps around. *)
Definition uint32 (x : Z) : Z := x mod 2 ^ 32.

(** The loop of [dumpDB] from the block [i] on, after [out] was written;
    [fuel] bounds the number of its passes and nil means that the bound
    was too small. *)
Fixpoint dumpLoop (fuel : nat) (i count : Z) (out : list byte)
    : option (Try (list byte)) :=
  match fuel with
  | O => None
  | S fuel' =>
      if i <=? count then
        match blockAt i with
        | None => Some (Throw "failed to get block")
        | Some b =>
            dumpLoop fuel' (uint32 (i + 1)) count (out ++ EncodeBinary b)
        end
      else Some (Val out)
  end.

(** [dumpDB] for a chain of the height [chainHeight] and the flags
    [count] and [skip]: the bytes written, or an exit error, whose message
    is shortened here.  The writer is a file and is taken not to fail. *)
Definition dumpDB (fuel : nat) (chainHeight count skip : Z)
    : option (Try (list byte)) :=
  if chainHeight <? uint32 (skip + count)
  then Some (Throw "chain is not that high")
  else
    let count := if count =? 0 then uint32 (chainHeight - skip) else count in
    dumpLoop fuel (uint32 (skip + 1)) count (io.WriteLE 4 count).

(** The two loops of [restoreDB]: [n] blocks are read and dropped, then
    [n] blocks are read and added; a loop ends early with an exit error. *)
Fixpoint skipBlocks (n : nat) (r : io.BinReader) : Try io.BinReader :=
  match n with
  | O => Val r
  | S n' =>
      let '(b, r') := DecodeBinary r in
      match io.Err r' with
      | Some _ => Throw "exit 1"
      | None => skipBlocks n' r'
      end
  end.

Fixpoint addBlocks (n : nat) (r : io.BinReader) (chain : Chain)
    : Try Chain :=
  match n with
  | O => Val chain
  | S n' =>
      let '(b, r') := DecodeBinary r in
      match io.Err r' with
      | Some _ => Throw "exit 1"
      | None =>
          match AddBlock chain b with
          | Throw err => Throw ("failed to add block: " +:+ err)
          | Val chain' => addBlocks n' r' chain'
          end
      end
  end.

(** [restoreDB] on the bytes [input] with the flags [count] and [skip]:
    the chain afterwards, or an exit error, whose message is shortened
    here.  The counter [i] runs from 0 to [skip] in the first loop and on
    to [count] in the second. *)
Definition restoreDB (input : list byte) (count skip : Z) (chain : Chain)
    : Try Chain :=
  let '(allBlocks, r) := io.ReadLE 4 (io.NewBinReaderFromBuf input) in
  match io.Err r with
  | Some _ => Throw "exit 1"
  | None =>
      if allBlocks <? uint32 (skip + count)
      then Throw "input file has not that many blocks"
      else
        let count := if count =? 0 then allBlocks else count in
        match skipBlocks (Z.to_nat skip) r with
        | Throw err => Throw err
        | Val r' => addBlocks (Z.to_nat (count - skip)) r' chain
        end
  end.

(** The chain after the blocks [bs] were added one after the other. *)
Fixpoint added (bs : list Block) (chain : Chain) : Try Chain :=
  match bs with
  | [] => Val chain
  | b :: bs' =>
      match AddBlock chain b with
      | Throw err => Throw ("failed to add block: " +:+ err)
      | Val chain' => added bs' chain'
      end
  end.

End DumpRestore.

Arguments dumpLoop {Block} blockAt EncodeBinary fuel i count out.
Arguments dumpDB {Block} blockAt EncodeBinary fuel chainHeight count skip.
Arguments skipBlocks {Block} DecodeBinary n r.
Arguments addBlocks {Block} DecodeBinary {Chain} AddBlock n r chain.
Arguments restoreDB {Block} DecodeBinary {Chain} AddBlock input count skip
  chain.
Arguments added {Block Chain} AddBlock bs chain.

(** Blocks for the examples: a block is one byte, the block at a height
    is the height, and the chain is the list of the blocks added, the last
    one first. *)
Definition byteBlock (b : byte) : list byte := [b].
Definition readByteBlock : io.Reader byte :=
  io.andThen (io.readN 1) (fun o =>
    io.pure (match o with Some [b] => b | _ => x00 end)).
Definition byteAt (i : Z) : option byte := Some (Go.byte_of_Z i).
Definition consBlock (chain : list byte) (b : byte) : Try (list byte) :=
  Val (b :: chain).

(** * The invocation stack and the end of a run *)

Section RunVocabulary.

Import vm.

(** Computations that leave the invocation stack as it is. *)
Definition still {A} (m : M A) : Prop :=
  forall v, match m v with
            | Ok _ v' | Panic _ v' => istack v' = istack v
            | Stuck => True
            end.

(** An upper bound on the instructions that the contexts of an invocation
    stack can still execute when no instruction jumps or calls: the bytes
    after the instruction pointer of each context, and its return. *)
Fixpoint remaining (s : list Context) : nat :=
  match s with
  | [] => 0
  | ctx :: s' => S (Z.to_nat (Go.len (prog ctx) - nextip ctx)) + remaining s'
  end.

(** A run that came to an end, or met an instruction outside the model. *)
Definition ended (o : Outcome) : Prop :=
  match o with
  | Returned _ _ | OutOfModel => True
  | Crashed | Unfinished => False
  end.

End RunVocabulary.

(** * Properties of the virtual machine *)

Section GoFacts.


Lemma BitLen_shiftl_big a n :
  a <> 0 -> vm.MaxBigIntegerSizeBits <= n ->
  vm.MaxBigIntegerSizeBits < Go.BitLen (Z.shiftl a n).
Proof.
  intros Ha Hn. unfold vm.MaxBigIntegerSizeBits in *.
  assert (Hp : 0 < 2 ^ n) by (apply Z.pow_pos_nonneg; lia).
  unfold Go.BitLen. rewrite Z.shiftl_mul_pow2 by lia.
  destruct (Z.eqb_spec (a * 2 ^ n) 0) as [E|E]; [nia|].
  rewrite Z.abs_mul, (Z.abs_eq (2 ^ n)) by lia.
  rewrite <- Z.shiftl_mul_pow2 by lia.
  rewrite Z.log2_shiftl by lia.
  pose proof (Z.log2_nonneg (Z.abs a)). lia.
Qed.

Lemma shiftr_big_count a n : 0 <= a -> Z.log2 a < n -> Z.shiftr a n = 0.
Proof. intros. apply Z.shiftr_eq_0; lia. Qed.

Lemma uint_of_negative b :
  - 2 ^ 63 <= b < 0 -> 2 ^ 63 <= Go.uint_of_int64 b.
Proof.
  intros Hb. unfold Go.uint_of_int64.
  replace b with (b + 2 ^ 64 - 1 * 2 ^ 64) by lia.
  rewrite Zminus_mod, Z_mod_mult, Z.sub_0_r, Z.mod_mod by lia.
  rewrite Z.mod_small; lia.
Qed.

Lemma uint_nonneg b : 0 <= Go.uint_of_int64 b.
Proof.
  unfold Go.uint_of_int64.
  pose proof (Z.mod_pos_bound b (2 ^ 64)). lia.
Qed.

Lemma value_allocated x : Go.value (Go.allocated x) = x.
Proof.
  unfold Go.value, Go.allocated. simpl.
  destruct (Z.ltb_spec x 0); lia.
Qed.

Lemma value_NewInt x : Go.value (Go.NewInt x) = x.
Proof.
  unfold Go.value, Go.NewInt. simpl.
  destruct (Z.eqb_spec x 0) as [->|]; [done|].
  simpl. destruct (Z.ltb_spec x 0); lia.
Qed.

Lemma NewInt_nonzero x : x <> 0 -> Go.NewInt x = Go.allocated x.
Proof.
  intros H. unfold Go.NewInt, Go.allocated.
  by destruct (Z.eqb_spec x 0).
Qed.

Lemma value_Lsh x s : Go.value (Go.Lsh x s) = Z.shiftl x s.
Proof.
  unfold Go.Lsh. destruct (Z.eqb_spec x 0) as [->|].
  - by rewrite Z.shiftl_0_l.
  - apply value_allocated.
Qed.

Lemma words_covers x : 0 < x -> Z.log2 x < 64 * Go.words x.
Proof.
  intros Hx. unfold Go.words, Go.BitLen.
  destruct (Z.eqb_spec x 0) as [->|]; [lia|].
  rewrite Z.abs_eq by lia.
  pose proof (Z.log2_nonneg x).
  pose proof (Z.mul_succ_div_gt (Z.log2 x + 1 + 63) 64). lia.
Qed.

Lemma value_Rsh x s : 0 <= s -> Go.value (Go.Rsh x s) = Z.shiftr x s.
Proof.
  intros Hs. unfold Go.Rsh.
  destruct (Z.leb_spec 0 x) as [Hx|Hx]; simpl; [|apply value_allocated].
  destruct (Z.leb_spec (Go.words x) (s / 64)) as [Hw|Hw];
    [|apply value_allocated].
  destruct (Z.eq_dec x 0) as [->|Hx0]; [by rewrite Z.shiftr_0_l|].
  rewrite Z.shiftr_eq_0; [done|done|].
  pose proof (words_covers x ltac:(lia)).
  pose proof (Z.mul_div_le s 64). lia.
Qed.

(** Two integers that stand for the same number other than zero are the
    same. *)
Lemma Int_nonzero_eq (x y : Go.Int) :
  Go.value x = Go.value y -> Go.value x <> 0 -> x = y.
Proof.
  destruct x as [nx [ax|]], y as [ny [ay|]]; unfold Go.value; simpl;
    destruct nx, ny; intros H H0; try lia;
    f_equal; try f_equal; lia.
Qed.

End GoFacts.

Section VMFacts.

Import vm.

Variable crypto : keys.Curve.

(** *** Stack accounting on items that are not collections *)

Lemma BigInt_scalar item z : BigInt item = Val z -> compound item = None.
Proof. destruct item; simpl; congruence. Qed.

Lemma Bytes_scalar item bs : Bytes item = Val bs -> compound item = None.
Proof. destruct item; simpl; congruence. Qed.

Lemma Pop_scalar item rest v :
  estack v = item :: rest -> compound item = None ->
  Pop Evaluation v =
    Ok (Some item) (setStack Evaluation rest (size v - 1, itemCount v) v).
Proof.
  intros He Hc. unfold Pop. simpl. rewrite He.
  unfold acctFuel. simpl. rewrite Hc. reflexivity.
Qed.

Lemma PushVal_scalar item v :
  compound item = None ->
  PushVal item v =
    Ok tt (setStack Evaluation (item :: estack v)
                    (size v + 1, itemCount v) v).
Proof.
  intros Hc. unfold PushVal, PushItem, acctFuel. simpl.
  rewrite Hc. reflexivity.
Qed.

Lemma bind_Ok {A B} (m : M A) (k : A -> M B) v a v' :
  m v = Ok a v' -> bind m k v = k a v'.
Proof. intros H. unfold bind. rewrite H. reflexivity. Qed.

Lemma bind_Panic {A B} (m : M A) (k : A -> M B) v msg v' :
  m v = Panic msg v' -> bind m k v = Panic msg v'.
Proof. intros H. unfold bind. rewrite H. reflexivity. Qed.

(** Popping an operand that converts to an integer. *)
Lemma pop_BigInt {B} item z rest (k : Z -> M B) v :
  estack v = item :: rest -> BigInt item = Val z ->
  bind (Pop Evaluation) (fun e => bind (elemBigInt e) k) v =
    k z (setStack Evaluation rest (size v - 1, itemCount v) v).
Proof.
  intros He Hz.
  rewrite (bind_Ok _ _ _ _ _ (Pop_scalar _ _ _ He (BigInt_scalar _ _ Hz))).
  unfold bind, elemBigInt, try. rewrite Hz. reflexivity.
Qed.

(** Popping an operand that converts to a byte string. *)
Lemma pop_Bytes {B} item bs rest (k : list byte -> M B) v :
  estack v = item :: rest -> Bytes item = Val bs ->
  bind (Pop Evaluation) (fun e => bind (elemBytes e) k) v =
    k bs (setStack Evaluation rest (size v - 1, itemCount v) v).
Proof.
  intros He Hz.
  rewrite (bind_Ok _ _ _ _ _ (Pop_scalar _ _ _ He (Bytes_scalar _ _ Hz))).
  unfold bind, elemBytes, try. rewrite Hz. reflexivity.
Qed.

Ltac zcases :=
  repeat match goal with
  | |- context [Z.ltb ?a ?b] => destruct (Z.ltb_spec a b); try lia
  | |- context [Z.leb ?a ?b] => destruct (Z.leb_spec a b); try lia
  | |- context [Z.eqb ?a ?b] => destruct (Z.eqb_spec a b); try lia
  end.

(** ** SUBSTR *)



(** ** LEFT and RIGHT *)

Lemma goSlice_ok (s : list byte) lo hi :
  0 <= lo <= hi -> hi <= Go.len s ->
  goSlice s lo hi = ret (Go.slice s lo hi).
Proof. intros. unfold goSlice. by zcases. Qed.

Lemma goSlice_panic (s : list byte) lo hi :
  lo < 0 \/ hi < lo \/ Go.len s < hi ->
  goSlice s lo hi = panic sliceOutOfRange.
Proof. intros. unfold goSlice. by zcases. Qed.






(** ** SHL and SHR *)

Lemma value_shiftedInt op a b :
  0 <= b -> Go.value (shiftedInt op a b) = shifted op a b.
Proof.
  intros Hb. unfold shiftedInt, shifted.
  destruct (op =? SHL); [apply value_Lsh | by apply value_Rsh].
Qed.

Lemma dispatch_shift op parameter :
  op = SHL \/ op = SHR -> dispatch crypto op parameter = opSHIFT op.
Proof. by intros [-> | ->]. Qed.

(** A count read as zero: only the count is popped. *)
Lemma SHIFT_zero ctx_ip op parameter v bit bz rest :
  op = SHL \/ op = SHR ->
  estack v = bit :: rest ->
  BigInt bit = Val bz -> Go.Int64 bz = 0 ->
  size v - 1 <= MaxStackSize ->
  execute crypto ctx_ip op parameter v =
    Returned (setStack Evaluation rest (size v - 1, itemCount v) v) None.
Proof.
  intros Hop He Hb Hb0 Hsz. unfold execute.
  rewrite dispatch_shift by done. unfold opSHIFT.
  rewrite (pop_BigInt bit bz rest) by done.
  rewrite Hb0. simpl. unfold ret.
  destruct v; simpl in *. by zcases.
Qed.

(** A count read outside [minSHLArg..maxSHLArg]. *)
Lemma SHIFT_out_of_range ctx_ip op parameter v bit bz rest :
  op = SHL \/ op = SHR ->
  estack v = bit :: rest ->
  BigInt bit = Val bz ->
  Go.Int64 bz < minSHLArg \/ maxSHLArg < Go.Int64 bz ->
  exists v' e,
    execute crypto ctx_ip op parameter v = Returned v' (Some e) /\
    HasFailed v' = true.
Proof.
  intros Hop He Hb Hr. unfold execute.
  rewrite dispatch_shift by done. unfold opSHIFT.
  rewrite (pop_BigInt bit bz rest) by done.
  unfold minSHLArg, maxSHLArg, MaxBigIntegerSizeBits in *.
  destruct (Z.eqb_spec (Go.Int64 bz) 0); [lia|].
  assert ((Go.Int64 bz <? - (32 * 8)) || (32 * 8 <? Go.Int64 bz) = true)
    as -> by (apply orb_true_iff; lia).
  unfold panic. eauto.
Qed.

(** The handler after the count [b] has been read and found in range. *)
Lemma SHIFT_in_range ctx_ip op parameter v bit bz ait a rest :
  op = SHL \/ op = SHR ->
  estack v = bit :: ait :: rest ->
  BigInt bit = Val bz -> BigInt ait = Val a ->
  Go.Int64 bz <> 0 -> minSHLArg <= Go.Int64 bz <= maxSHLArg ->
  size v <= MaxStackSize ->
  let r := shifted op a (Go.uint_of_int64 (Go.Int64 bz)) in
  let item := shiftedInt op a (Go.uint_of_int64 (Go.Int64 bz)) in
  Go.value item = r /\
  (Go.BitLen a <= MaxBigIntegerSizeBits ->
   Go.BitLen r <= MaxBigIntegerSizeBits ->
   execute crypto ctx_ip op parameter v =
     Returned (replaced v (BigIntegerItem item) rest (size v - 1)) None) /\
  (MaxBigIntegerSizeBits < Go.BitLen a \/
   MaxBigIntegerSizeBits < Go.BitLen r ->
   exists v' e,
     execute crypto ctx_ip op parameter v = Returned v' (Some e) /\
     HasFailed v' = true).
Proof.
  intros Hop He Hb Ha Hb0 Hr Hsz r item.
  assert (Hv : Go.value item = r).
  { apply value_shiftedInt, uint_nonneg. }
  split; [exact Hv|]. unfold execute.
  rewrite dispatch_shift by done. unfold opSHIFT.
  rewrite (pop_BigInt bit bz (ait :: rest)) by done.
  unfold minSHLArg, maxSHLArg, MaxBigIntegerSizeBits in Hr.
  destruct (Z.eqb_spec (Go.Int64 bz) 0); [lia|].
  assert ((Go.Int64 bz <? minSHLArg) || (maxSHLArg <? Go.Int64 bz) = false)
    as -> by (apply orb_false_iff; unfold minSHLArg, maxSHLArg,
              MaxBigIntegerSizeBits; lia).
  rewrite (pop_BigInt ait a rest) by done.
  fold (shiftedInt op a (Go.uint_of_int64 (Go.Int64 bz))). fold item.
  rewrite Hv. unfold checkBigIntSize. split.
  - intros Ha1 Hr1.
    destruct (Z.ltb_spec MaxBigIntegerSizeBits (Go.BitLen a)); [lia|].
    rewrite (bind_Ok _ _ _ tt _ eq_refl).
    destruct (Z.ltb_spec MaxBigIntegerSizeBits (Go.BitLen r)); [lia|].
    rewrite (bind_Ok _ _ _ tt _ eq_refl).
    rewrite PushVal_scalar by done.
    destruct v; simpl in *. zcases.
    unfold replaced. simpl. do 2 f_equal. lia.
  - intros Hbig.
    destruct (Z.ltb_spec MaxBigIntegerSizeBits (Go.BitLen a)).
    { rewrite (bind_Panic _ _ _ _ _ eq_refl). eauto. }
    rewrite (bind_Ok _ _ _ tt _ eq_refl).
    destruct (Z.ltb_spec MaxBigIntegerSizeBits (Go.BitLen r)); [|lia].
    rewrite (bind_Panic _ _ _ _ _ eq_refl). eauto.
Qed.

(** ** Termination of the item accounting and of the deep comparison *)

Lemma grows_refl c : grows c c.
Proof. split; [lia | auto]. Qed.

Lemma grows_trans c1 c2 c3 : grows c1 c2 -> grows c2 c3 -> grows c1 c3.
Proof.
  intros [? H1] [? H2]. split; [lia|].
  intros p. specialize (H1 p). specialize (H2 p). lia.
Qed.

Lemma grows_uncounted h c c' :
  grows c c' -> uncounted h c'.2 ⊆ uncounted h c.2.
Proof.
  intros [_ Hg] p. unfold uncounted. rewrite !elem_of_filter.
  intros [H0 Hd]. split; [|done]. specialize (Hg p). lia.
Qed.

Lemma updateSizeAdd_S f h item c :
  updateSizeAdd (S f) h item c =
    match compound item with
    | None => Some (c.1 + 1, c.2)
    | Some p =>
        let n := S (default O (c.2 !! p)) in
        let c' := (c.1 + 1, <[p := n]> c.2) in
        if decide (1 < n)%nat then Some c'
        else foldl (fun acc it => acc ≫= updateSizeAdd f h it)
                   (Some c') (children h p)
    end.
Proof. reflexivity. Qed.

Lemma updateSizeRemove_S f h item c :
  updateSizeRemove (S f) h item c =
    match compound item with
    | None => Some (c.1 - 1, c.2)
    | Some p =>
        let n := default O (c.2 !! p) in
        if decide (1 < n)%nat then Some (c.1 - 1, <[p := pred n]> c.2)
        else foldl (fun acc it => acc ≫= updateSizeRemove f h it)
                   (Some (c.1 - 1, delete p c.2)) (children h p)
    end.
Proof. reflexivity. Qed.

(** Adding an item always ends when the fuel exceeds the number of
    uncounted addresses, and it counts at least the item itself. *)
Lemma updateSizeAdd_total fuel h : forall item c,
  (base.size (uncounted h c.2) < fuel)%nat ->
  exists c',
    updateSizeAdd fuel h item c = Some c' /\ grows c c' /\ c.1 + 1 <= c'.1.
Proof.
  induction fuel as [|f IH]; intros item c Hf; [lia|].
  rewrite updateSizeAdd_S. destruct (compound item) as [p|] eqn:Hc.
  2:{ eexists. split; [done|].
      split; [split; simpl; [lia|auto] | simpl; lia]. }
  cbv zeta.
  set (c1 := (c.1 + 1, <[p:=S (default O (c.2 !! p))]> c.2)).
  assert (Hg1 : grows c c1).
  { split; [simpl; lia|]. intros q. simpl.
    destruct (decide (p = q)) as [->|Hne].
    - rewrite lookup_insert_eq. simpl. lia.
    - rewrite lookup_insert_ne by done. lia. }
  destruct (decide (1 < S (default O (c.2 !! p)))%nat) as [Hgt|Hle].
  { exists c1. split; [done|]. split; [done|]. simpl. lia. }
  assert (Hfold : forall l c0, grows c1 c0 ->
            (l = [] \/ (base.size (uncounted h c0.2) < f)%nat) ->
            exists c',
              foldl (fun acc it => acc ≫= updateSizeAdd f h it)
                    (Some c0) l = Some c' /\ grows c0 c').
  { induction l as [|x l IHl]; intros c0 Hg0 Hsz.
    - exists c0. split; [done | apply grows_refl].
    - destruct Hsz as [?|Hsz]; [done|].
      simpl. destruct (IH x c0 Hsz) as (c2 & -> & Hg2 & _).
      destruct (IHl c2) as (c3 & -> & Hg3).
      + by eapply grows_trans.
      + right. eapply Nat.le_lt_trans; [|exact Hsz].
        apply subseteq_size. by apply grows_uncounted.
      + exists c3. split; [done|]. by eapply grows_trans. }
  destruct (Hfold (children h p) c1) as (c' & E & Hg').
  { apply grows_refl. }
  { unfold children. destruct (h !! p) as [o|] eqn:Hp; [|by left].
    right.
    assert (Hsub : uncounted h c1.2 ⊂ uncounted h c.2).
    { split; [by apply grows_uncounted|].
      intros Hsub.
      assert (Hin : p ∈ uncounted h c1.2).
      { apply Hsub. apply elem_of_filter. split; [lia|].
        apply elem_of_dom. eauto. }
      apply elem_of_filter in Hin as [Hin _].
      simpl in Hin. rewrite lookup_insert_eq in Hin. done. }
    apply subset_size in Hsub. lia. }
  exists c'. split; [exact E|]. split; [by eapply grows_trans|].
  destruct Hg' as [? _]. simpl in *. lia.
Qed.

(** Pushing never leaves the model. *)
Lemma PushItem_total n item v :
  exists c,
    PushItem n item v = Ok tt (setStack n (item :: getStack n v) c v) /\
    size v + 1 <= c.1.
Proof.
  unfold PushItem.
  destruct (updateSizeAdd_total (acctFuel v) (heap v) item
              (size v, itemCount v)) as (c & -> & _ & Hc).
  { unfold acctFuel. simpl.
    assert (base.size (uncounted (heap v) (itemCount v))
            <= base.size (heap v))%nat.
    { rewrite <- size_dom. apply subseteq_size. unfold uncounted.
      intros p Hp. by apply elem_of_filter in Hp as [_ ?]. }
    lia. }
  eauto.
Qed.





















(** ** EQUAL *)


(** ** NEWARRAY and NEWSTRUCT *)


Lemma foldl_add_scalars f h (l : list StackItem) (c : Counter) :
  Forall (fun it => compound it = None) l ->
  foldl (fun acc it => acc ≫= updateSizeAdd (S f) h it) (Some c) l =
    Some (c.1 + Go.len l, c.2).
Proof.
  intros Hl. revert c. induction Hl as [|x l Hx Hl IH]; intros c.
  - simpl. destruct c. unfold Go.len. simpl. f_equal. f_equal. lia.
  - simpl. rewrite Hx. rewrite IH. simpl. unfold Go.len. simpl length.
    f_equal. f_equal. lia.
Qed.


Lemma replicate_scalar n :
  Forall (fun it => compound it = None) (makeArrayOfFalses n).
Proof. unfold makeArrayOfFalses. by apply Forall_replicate. Qed.




Lemma heap_setStack n s c v : heap (setStack n s c v) = heap v.
Proof. by destruct n. Qed.





(** ** CHECKMULTISIG *)





Lemma foldl_remove_scalars f h (l : list StackItem) (c : Counter) :
  Forall (fun it => compound it = None) l ->
  foldl (fun acc it => acc ≫= updateSizeRemove (S f) h it) (Some c) l =
    Some (c.1 - Go.len l, c.2).
Proof.
  intros Hl. revert c. induction Hl as [|x l Hx Hl IH]; intros c.
  - simpl. destruct c. unfold Go.len. simpl. f_equal. f_equal. lia.
  - simpl. rewrite Hx. rewrite IH. simpl. unfold Go.len. simpl length.
    f_equal. f_equal. lia.
Qed.






(** ** The limit on the number of items *)

Lemma HasFailed_fault v : HasFailed (setState faultState v) = true.
Proof. reflexivity. Qed.







Lemma steps_reachable n : forall v v',
  reachable crypto v -> steps crypto n v = Some v' -> reachable crypto v'.
Proof.
  induction n as [|n IH]; intros v v' Hv; simpl.
  - by intros [= <-].
  - destruct (Step crypto v) as [v1 [e|]| | |] eqn:Hs; try done.
    apply IH. by eapply reach_Step.
Qed.

(** ** The claims about single instructions, assembled *)




(** C8: what SHL and SHR do with the count [b] read from the top of the
    stack.  A zero count pops the count and nothing else; a count outside
    [-256..256] faults; a count in [1..256] pushes the shift of the operand
    by [b], in the new integer that [Lsh] or [Rsh] leaves, and faults when
    the operand or the result is longer than 256 bits.  A count in
    [-256..-1] passes the range check and is converted to an unsigned count
    of at least [2^63]: SHR then pushes 0 for every operand that is not
    negative, and SHL faults on every operand that is not zero. *)
Theorem SHIFT_counts ctx_ip op parameter v bit bz rest :
  op = SHL \/ op = SHR ->
  estack v = bit :: rest ->
  BigInt bit = Val bz ->
  size v <= MaxStackSize ->
  let b := Go.Int64 bz in
  (b = 0 ->
   execute crypto ctx_ip op parameter v =
     Returned (setStack Evaluation rest (size v - 1, itemCount v) v) None) /\
  (b < minSHLArg \/ maxSHLArg < b ->
   exists v' e,
     execute crypto ctx_ip op parameter v = Returned v' (Some e) /\
     HasFailed v' = true) /\
  (forall ait a rest',
     rest = ait :: rest' -> BigInt ait = Val a ->
     (0 < b <= maxSHLArg ->
      Go.value (shiftedInt op a b) = shifted op a b /\
      (Go.BitLen a <= MaxBigIntegerSizeBits ->
       Go.BitLen (shifted op a b) <= MaxBigIntegerSizeBits ->
       execute crypto ctx_ip op parameter v =
         Returned (replaced v (BigIntegerItem (shiftedInt op a b)) rest'
                            (size v - 1)) None) /\
      (MaxBigIntegerSizeBits < Go.BitLen a \/
       MaxBigIntegerSizeBits < Go.BitLen (shifted op a b) ->
       exists v' e,
         execute crypto ctx_ip op parameter v = Returned v' (Some e) /\
         HasFailed v' = true)) /\
     (minSHLArg <= b < 0 ->
      (op = SHR -> 0 <= a -> Go.BitLen a <= MaxBigIntegerSizeBits ->
       execute crypto ctx_ip op parameter v =
         Returned (replaced v (BigIntegerItem (Go.NewInt 0)) rest'
                            (size v - 1)) None) /\
      (op = SHL -> a <> 0 ->
       exists v' e,
         execute crypto ctx_ip op parameter v = Returned v' (Some e) /\
         HasFailed v' = true))).
Proof.
  intros Hop He Hb Hsz b. split; [|split].
  - intros Hb0. apply (SHIFT_zero ctx_ip op parameter v bit bz rest); auto.
    lia.
  - intros Hr. by apply (SHIFT_out_of_range ctx_ip op parameter v bit bz rest).
  - intros ait a rest' -> Ha. split.
    + intros Hpos.
      assert (Hu : Go.uint_of_int64 b = b).
      { unfold Go.uint_of_int64. apply Z.mod_small.
        unfold maxSHLArg, MaxBigIntegerSizeBits in Hpos. lia. }
      destruct (SHIFT_in_range ctx_ip op parameter v bit bz ait a rest')
        as (H0 & H1 & H2); auto; try (fold b; lia).
      { fold b. unfold minSHLArg, maxSHLArg, MaxBigIntegerSizeBits in *. lia. }
      fold b in H0, H1, H2. rewrite Hu in H0, H1, H2. by split.
    + intros Hneg.
      assert (Hu : 2 ^ 63 <= Go.uint_of_int64 b).
      { apply uint_of_negative.
        unfold minSHLArg, MaxBigIntegerSizeBits in Hneg. lia. }
      destruct (SHIFT_in_range ctx_ip op parameter v bit bz ait a rest')
        as (_ & H1 & H2); auto; try (fold b; lia).
      { fold b. unfold minSHLArg, maxSHLArg, MaxBigIntegerSizeBits in *. lia. }
      fold b in H1, H2. split.
      * intros -> Ha0 Hlen.
        assert (Hz : shifted SHR a (Go.uint_of_int64 b) = 0).
        { unfold shifted. change (SHR =? SHL) with false. cbv iota.
          apply shiftr_big_count; [done|].
          unfold Go.BitLen, MaxBigIntegerSizeBits in Hlen.
          destruct (Z.eqb_spec a 0) as [-> |].
          - simpl. lia.
          - rewrite Z.abs_eq in Hlen by lia. lia. }
        assert (Hi : shiftedInt SHR a (Go.uint_of_int64 b) = Go.NewInt 0).
        { unfold shiftedInt. change (SHR =? SHL) with false. cbv iota.
          unfold Go.Rsh.
          destruct (Z.leb_spec 0 a) as [_|]; [|lia]. simpl.
          destruct (Z.leb_spec (Go.words a) (Go.uint_of_int64 b / 64))
            as [_|Hw]; [done|].
          unfold Go.words, MaxBigIntegerSizeBits in *.
          pose proof (Z.div_le_mono (Go.BitLen a + 63) (32 * 8 + 63) 64
                        ltac:(lia) ltac:(lia)) as Hw1.
          pose proof (Z.div_le_mono (2 ^ 63) (Go.uint_of_int64 b) 64
                        ltac:(lia) Hu) as Hw2.
          change ((32 * 8 + 63) / 64) with 4 in Hw1.
          change (2 ^ 63 / 64) with (2 ^ 57) in Hw2. lia. }
        rewrite Hz in H1. rewrite Hi in H1. apply H1; [done|].
        unfold Go.BitLen, MaxBigIntegerSizeBits. simpl. lia.
      * intros -> Ha0. apply H2. right.
        unfold shifted. change (SHL =? SHL) with true. cbv iota.
        apply BitLen_shiftl_big; [done|].
        unfold MaxBigIntegerSizeBits. lia.
Qed.

End VMFacts.

(** * The counter and the items on the stacks *)

Section Accounting.

Import vm.

Variable crypto : keys.Curve.

Lemma occurrences_app p l1 l2 :
  occurrences p (l1 ++ l2) = (occurrences p l1 + occurrences p l2)%nat.
Proof. induction l1 as [|x l1 IH]; simpl; lia. Qed.

Lemma occurrences_elem p l item :
  item ∈ l -> compound item = Some p -> (0 < occurrences p l)%nat.
Proof.
  induction 1 as [|x y l _ IH]; intros Hc; simpl.
  - destruct (decide _); [lia|done].
  - specialize (IH Hc). lia.
Qed.

Lemma weight_empty h : weight h ∅ = 0.
Proof. apply map_fold_empty. Qed.

Lemma weight_insert_new h cnt p n :
  cnt !! p = None ->
  weight h (<[p := n]> cnt) = weight h cnt + Go.len (children h p).
Proof.
  intros Hp. unfold weight. rewrite map_fold_insert_L; [done| |done].
  intros. lia.
Qed.

Lemma weight_delete h cnt p n :
  cnt !! p = Some n ->
  weight h (delete p cnt) = weight h cnt - Go.len (children h p).
Proof.
  intros Hp. unfold weight.
  rewrite (map_fold_delete_L _ _ p n cnt); [lia| |done].
  intros. lia.
Qed.

Lemma weight_insert_old h cnt p n m :
  cnt !! p = Some m -> weight h (<[p := n]> cnt) = weight h cnt.
Proof.
  intros Hp. rewrite <- (insert_delete_eq cnt p n).
  rewrite weight_insert_new by apply lookup_delete_eq.
  rewrite (weight_delete h cnt p m) by done. lia.
Qed.


Lemma children_insert_ne h p q o :
  p <> q -> children (<[q := o]> h) p = children h p.
Proof. intros. unfold children. by rewrite lookup_insert_ne. Qed.

Lemma weight_alloc h cnt q o :
  cnt !! q = None -> weight (<[q := o]> h) cnt = weight h cnt.
Proof.
  induction cnt as [|i x m Hi IH] using map_ind; intros Hq.
  - by rewrite !weight_empty.
  - apply lookup_insert_None in Hq as [Hq Hne].
    rewrite !weight_insert_new by done.
    rewrite IH by done. by rewrite children_insert_ne.
Qed.

Lemma post_bind {A B} (m : M A) (k : A -> M B) Q R v :
  post Q (m v) ->
  (forall a v', accounted v' -> Q a v' -> post R (k a v')) ->
  post R (bind m k v).
Proof.
  unfold bind. destruct (m v) as [a v'|msg v'|]; simpl; [|done..].
  intros [Ha HQ] Hk. by apply Hk.
Qed.

Lemma post_mono {A} (Q R : A -> VM -> Prop) r :
  post Q r -> (forall a v', Q a v' -> R a v') -> post R r.
Proof. destruct r; simpl; [|done..]. intros [Ha HQ] HR. split; auto. Qed.

Lemma valid_scalar h item : compound item = None -> valid h item.
Proof. intros Hc p. by rewrite Hc. Qed.

Lemma valid_insert h q o item : valid h item -> valid (<[q := o]> h) item.
Proof.
  intros Hv p Hp. destruct (decide (p = q)) as [-> |].
  - rewrite lookup_insert_eq. by eexists.
  - rewrite lookup_insert_ne by done. by apply Hv.
Qed.

Lemma valid_on_stack v item :
  accounted v -> item ∈ estack v ++ astack v -> valid (heap v) item.
Proof.
  intros (_ & Hdom & Hcnt & _) Hin p Hp.
  pose proof (occurrences_elem p _ item Hin Hp) as Hocc.
  specialize (Hcnt p). cbv zeta in Hcnt.
  destruct (decide _) as [|_]; [lia|]. by eapply Hdom.
Qed.

Lemma itemCount_setStack n s c v : itemCount (setStack n s c v) = c.2.
Proof. by destruct n. Qed.

Lemma size_setStack n s c v : size (setStack n s c v) = c.1.
Proof. by destruct n. Qed.

Lemma push_occurrences n item c v p :
  occurrences p (stacks (setStack n (item :: getStack n v) c v)) =
    ((if decide (compound item = Some p) then 1 else 0) +
     occurrences p (stacks v))%nat.
Proof. unfold stacks. destruct n; simpl; rewrite ?occurrences_app; simpl; lia. Qed.

Lemma push_depth n item c v :
  depth (setStack n (item :: getStack n v) c v) = 1 + depth v.
Proof. unfold depth, Go.len. destruct n; simpl; lia. Qed.

Lemma pop_occurrences n item rest c v p :
  getStack n v = item :: rest ->
  occurrences p (stacks v) =
    ((if decide (compound item = Some p) then 1 else 0) +
     occurrences p (stacks (setStack n rest c v)))%nat.
Proof.
  unfold stacks. destruct n; simpl; intros ->; rewrite ?occurrences_app;
    simpl; lia.
Qed.

Lemma pop_depth n item rest c v :
  getStack n v = item :: rest ->
  depth v = 1 + depth (setStack n rest c v).
Proof. unfold depth, Go.len. destruct n; simpl; intros ->; simpl; lia. Qed.

Lemma accounted_counts v :
  accounted v <->
  flat (heap v) /\
  counts (heap v) (size v, itemCount v) (stacks v) (depth v).
Proof. unfold accounted, counts, flat, stacks, depth. simpl. tauto. Qed.

(** Counting one more item. *)
Lemma counts_add f h item c l d :
  flat h -> valid h item -> counts h c l d ->
  exists c',
    updateSizeAdd (S (S f)) h item c = Some c' /\
    forall l',
      (forall p, occurrences p l' =
         ((if decide (compound item = Some p) then 1 else 0) +
          occurrences p l)%nat) ->
      counts h c' l' (1 + d).
Proof.
  intros Hflat Hv (Hdom & Hcnt & Hsz). rewrite updateSizeAdd_S.
  destruct (compound item) as [p|] eqn:Hc.
  - cbv zeta. pose proof (Hcnt p) as Hp. cbv zeta in Hp.
    assert (Hother : forall q l',
      (forall p0, occurrences p0 l' =
         ((if decide (Some p = Some p0) then 1 else 0) +
          occurrences p0 l)%nat) ->
      q <> p -> forall x,
      <[p := x]> c.2 !! q =
        (if decide (occurrences q l' = 0)%nat then None
         else Some (occurrences q l'))).
    { intros q l' Hl' Hq x. rewrite lookup_insert_ne by done.
      rewrite Hl'. destruct (decide (Some p = Some q)); [congruence|].
      apply Hcnt. }
    destruct (decide (occurrences p l = 0)%nat) as [Hz|Hnz].
    + rewrite Hp. simpl default.
      destruct (decide (1 < 1)%nat); [lia|].
      rewrite foldl_add_scalars by apply Hflat.
      eexists. split; [reflexivity|]. intros l' Hl'. split; [|split]; simpl.
      * intros q m. destruct (decide (q = p)) as [-> |].
        -- intros _. by apply Hv.
        -- rewrite lookup_insert_ne by done. apply Hdom.
      * intros q. destruct (decide (q = p)) as [-> |]; [|by apply Hother].
        rewrite lookup_insert_eq, Hl', Hz.
        by destruct (decide (Some p = Some p)).
      * rewrite weight_insert_new by done. lia.
    + rewrite Hp. simpl default.
      destruct (decide _) as [_|]; [|lia].
      eexists. split; [reflexivity|]. intros l' Hl'. split; [|split]; simpl.
      * intros q m. destruct (decide (q = p)) as [-> |].
        -- intros _. by apply Hv.
        -- rewrite lookup_insert_ne by done. apply Hdom.
      * intros q. destruct (decide (q = p)) as [-> |]; [|by apply Hother].
        rewrite lookup_insert_eq, Hl'.
        destruct (decide (Some p = Some p)); [|done].
        destruct (decide _); [lia|]. f_equal.
      * rewrite (weight_insert_old _ _ _ _ _ Hp). lia.
  - eexists. split; [reflexivity|]. intros l' Hl'. split; [|split]; simpl.
    + apply Hdom.
    + intros q. rewrite Hl'. destruct (decide (None = Some q)); [done|].
      apply Hcnt.
    + lia.
Qed.

Lemma PushItem_post n item v :
  accounted v -> valid (heap v) item ->
  post (fun _ v' => heap v' = heap v) (PushItem n item v).
Proof.
  intros [Hflat Hc]%accounted_counts Hv. unfold PushItem, acctFuel.
  destruct (counts_add (base.size (heap v) + base.size (itemCount v))
              (heap v) item (size v, itemCount v) (stacks v) (depth v)
              Hflat Hv Hc) as (c' & -> & Hc').
  simpl. split; [|by rewrite heap_setStack].
  apply accounted_counts. rewrite heap_setStack. split; [done|].
  rewrite size_setStack, itemCount_setStack, push_depth.
  rewrite <- surjective_pairing. apply Hc'.
  intros p. apply push_occurrences.
Qed.

(** Counting one item less. *)
Lemma counts_remove f h item c l d :
  flat h -> counts h c l d ->
  (forall p, compound item = Some p -> (0 < occurrences p l)%nat) ->
  exists c',
    updateSizeRemove (S (S f)) h item c = Some c' /\
    forall l',
      (forall p, occurrences p l =
         ((if decide (compound item = Some p) then 1 else 0) +
          occurrences p l')%nat) ->
      counts h c' l' (d - 1).
Proof.
  intros Hflat (Hdom & Hcnt & Hsz) Hin. rewrite updateSizeRemove_S.
  destruct (compound item) as [p|] eqn:Hc.
  - cbv zeta. pose proof (Hcnt p) as Hp. cbv zeta in Hp.
    specialize (Hin p eq_refl).
    destruct (decide (occurrences p l = 0)%nat) as [|_]; [lia|].
    assert (Hother : forall q l',
      (forall p0, occurrences p0 l =
         ((if decide (Some p = Some p0) then 1 else 0) +
          occurrences p0 l')%nat) ->
      q <> p ->
      c.2 !! q =
        (if decide (occurrences q l' = 0)%nat then None
         else Some (occurrences q l'))).
    { intros q l' Hl' Hq. rewrite Hcnt. cbv zeta. rewrite (Hl' q).
      by destruct (decide (Some p = Some q)); [congruence|]. }
    rewrite Hp. simpl default.
    destruct (decide (1 < occurrences p l)%nat) as [Hmany|Hone].
    + eexists. split; [reflexivity|]. intros l' Hl'. split; [|split]; simpl.
      * intros q m. destruct (decide (q = p)) as [-> |].
        -- intros _. by eapply Hdom.
        -- rewrite lookup_insert_ne by done. apply Hdom.
      * intros q. destruct (decide (q = p)) as [-> |].
        -- rewrite lookup_insert_eq. specialize (Hl' p).
           destruct (decide (Some p = Some p)); [|done].
           destruct (decide _); [lia|]. f_equal. lia.
        -- rewrite lookup_insert_ne by done. by apply Hother.
      * rewrite (weight_insert_old _ _ _ _ _ Hp). lia.
    + rewrite foldl_remove_scalars by apply Hflat.
      eexists. split; [reflexivity|]. intros l' Hl'. split; [|split]; simpl.
      * intros q m. rewrite lookup_delete_Some. intros [_ Hq]. by eapply Hdom.
      * intros q. destruct (decide (q = p)) as [-> |].
        -- rewrite lookup_delete_eq. specialize (Hl' p).
           destruct (decide (Some p = Some p)); [|done].
           destruct (decide _); [done|lia].
        -- rewrite lookup_delete_ne by done. by apply Hother.
      * rewrite (weight_delete _ _ _ _ Hp). lia.
  - eexists. split; [reflexivity|]. intros l' Hl'. split; [|split]; simpl.
    + apply Hdom.
    + intros q. rewrite Hcnt. cbv zeta. rewrite (Hl' q).
      by destruct (decide (None = Some q)).
    + lia.
Qed.

Lemma Pop_post n v :
  accounted v ->
  post (fun e v' =>
          heap v' = heap v /\
          forall item, e = Some item -> valid (heap v) item)
       (Pop n v).
Proof.
  intros Hacc. pose proof Hacc as [Hflat Hc]%accounted_counts.
  unfold Pop, acctFuel.
  destruct (getStack n v) as [|item rest] eqn:Hs.
  { simpl. split; [done|]. split; [done|]. by intros. }
  assert (Hin : item ∈ estack v ++ astack v).
  { destruct n; simpl in Hs; rewrite Hs;
      [apply elem_of_app; left | apply elem_of_app; right];
      apply elem_of_cons; by left. }
  destruct (counts_remove (base.size (heap v) + base.size (itemCount v))
              (heap v) item (size v, itemCount v) (stacks v) (depth v)
              Hflat Hc) as (c' & -> & Hc').
  { intros p. by apply occurrences_elem. }
  simpl. split; [|split; [by rewrite heap_setStack|]].
  - apply accounted_counts. rewrite heap_setStack. split; [done|].
    rewrite size_setStack, itemCount_setStack.
    rewrite (pop_depth n item rest c' v Hs) in Hc'.
    replace (1 + depth (setStack n rest c' v) - 1)
      with (depth (setStack n rest c' v)) in Hc' by lia.
    rewrite <- surjective_pairing. apply Hc'.
    intros p. by apply pop_occurrences.
  - intros ? [= <-]. by apply valid_on_stack.
Qed.

Lemma Push_post n e v :
  accounted v -> (forall item, e = Some item -> valid (heap v) item) ->
  post (fun _ v' => heap v' = heap v) (Push n e v).
Proof.
  intros Hacc Hv. destruct e as [item|]; simpl; [|done].
  apply PushItem_post; auto.
Qed.

Lemma Dup_post n i v :
  accounted v ->
  post (fun e v' =>
          v' = v /\ forall item, e = Some item -> valid (heap v) item)
       (Dup n i v).
Proof.
  intros Hacc. simpl. split; [done|]. split; [done|].
  intros item Hi. apply valid_on_stack; [done|].
  apply list_elem_of_lookup_2 in Hi.
  destruct n; simpl in Hi; apply elem_of_app; auto.
Qed.

Lemma alloc_post o v :
  accounted v ->
  match o with
  | Slice items => Forall (fun it => compound it = None) items
  | Table entries => Forall (fun it => compound it = None) entries.*2
  end ->
  post (fun p v' =>
          heap v' = <[p := o]> (heap v) /\ heap v !! p = None)
       (alloc o v).
Proof.
  intros (Hflat & Hdom & Hcnt & Hsz) Ho. unfold alloc, post.
  set (p := fresh (dom (heap v))). unfold accounted.
  change (heap (setHeap (<[p:=o]> (heap v)) v)) with (<[p:=o]> (heap v)).
  change (itemCount (setHeap (<[p:=o]> (heap v)) v)) with (itemCount v).
  change (size (setHeap (<[p:=o]> (heap v)) v)) with (size v).
  change (estack (setHeap (<[p:=o]> (heap v)) v)) with (estack v).
  change (astack (setHeap (<[p:=o]> (heap v)) v)) with (astack v).
  assert (Hp : heap v !! p = None).
  { apply not_elem_of_dom. apply is_fresh. }
  assert (Hc : itemCount v !! p = None).
  { destruct (itemCount v !! p) eqn:E; [|done].
    apply Hdom in E. rewrite Hp in E. by destruct E. }
  split; [|done]. split; [|split; [|split]].
  - intros q. destruct (decide (q = p)) as [-> |].
    + unfold children. rewrite lookup_insert_eq. by destruct o.
    + rewrite children_insert_ne by done. apply Hflat.
  - intros q m Hq. destruct (decide (q = p)) as [-> |].
    + rewrite lookup_insert_eq. by eexists.
    + rewrite lookup_insert_ne by done. by eapply Hdom.
  - done.
  - rewrite weight_alloc by done. done.
Qed.

Lemma post_reads {A B} (m : M A) (k : A -> M B) R v :
  reads m -> accounted v ->
  (forall a, post R (k a v)) -> post R (bind m k v).
Proof.
  intros Hm Hacc Hk. unfold bind. specialize (Hm v).
  destruct (m v) as [a v'|msg v'|]; subst; simpl; auto.
Qed.

Lemma reads_try {A} (t : Try A) : reads (try t).
Proof. by intros v; destruct t. Qed.

Lemma reads_elemBigInt e : reads (elemBigInt e).
Proof. destruct e; [apply reads_try | done]. Qed.

Lemma reads_elemBytes e : reads (elemBytes e).
Proof. destruct e; [apply reads_try | done]. Qed.

Lemma reads_elemValue e : reads (elemValue e).
Proof. by destruct e. Qed.

Lemma reads_Len n : reads (Len n).
Proof. done. Qed.

Lemma reads_goSlice s lo hi : reads (goSlice s lo hi).
Proof. intros v. unfold goSlice. by destruct (_ && _). Qed.

Lemma reads_checkBigIntSize a : reads (checkBigIntSize a).
Proof. intros v. unfold checkBigIntSize. by destruct (_ <? _). Qed.

Lemma reads_reflectDeepEqual a b : reads (reflectDeepEqual a b).
Proof. intros v. unfold reflectDeepEqual. by destruct (DeepEqual _ _ _). Qed.

Lemma reads_getCheckhash : reads getCheckhash.
Proof. done. Qed.

Lemma reads_sliceOf p : reads (sliceOf p).
Proof. done. Qed.

Lemma post_ret {A} (a : A) (R : A -> VM -> Prop) v :
  accounted v -> R a v -> post R (ret a v).
Proof. by split. Qed.

Lemma post_panic {A} msg (R : A -> VM -> Prop) v :
  accounted v -> post R (panic msg v).
Proof. done. Qed.

Ltac solve_valid :=
  intros;
  repeat match goal with
         | H : heap _ = _ |- _ => progress (rewrite H in * )
         end;
  eauto using valid_scalar, valid_insert.

Ltac reads_tac :=
  first [ apply reads_elemBigInt | apply reads_elemBytes
        | apply reads_elemValue | apply reads_Len | apply reads_goSlice
        | apply reads_checkBigIntSize | apply reads_reflectDeepEqual
        | apply reads_getCheckhash | apply reads_sliceOf | apply reads_try ].

(** One step through a handler. *)
Ltac step :=
  cbv beta zeta;
  lazymatch goal with
  | |- post _ (bind (Pop _) _ _) =>
      eapply post_bind; [apply Pop_post; assumption|];
      let e := fresh "e" in
      let v' := fresh "v" in
      let Hacc := fresh "Hacc" in
      let Hh := fresh "Hh" in
      let Hv := fresh "Hv" in
      intros e v' Hacc [Hh Hv]
  | |- post _ (bind (Dup _ _) _ _) =>
      eapply post_bind; [apply Dup_post; assumption|];
      let e := fresh "e" in
      let v' := fresh "v" in
      let Hv := fresh "Hv" in
      intros e v' _ [-> Hv]
  | |- post _ (bind (Push _ _) _ _) =>
      eapply post_bind; [apply Push_post; [assumption|solve_valid]|];
      let v' := fresh "v" in
      let Hacc := fresh "Hacc" in
      let Hh := fresh "Hh" in
      intros ? v' Hacc Hh; cbv beta in Hh
  | |- post _ (bind _ _ _) =>
      apply post_reads; [reads_tac|assumption|]; intros ?
  | |- post _ (Push _ _ _) =>
      eapply post_mono; [apply Push_post; [assumption|solve_valid]|done]
  | |- post _ (PushVal _ _) =>
      eapply post_mono; [apply PushItem_post; [assumption|solve_valid]|done]
  | |- post _ (PushItem _ _ _) =>
      eapply post_mono; [apply PushItem_post; [assumption|solve_valid]|done]
  | |- post _ (panic _ _) => by apply post_panic
  | |- post _ (ret _ _) => by apply post_ret
  | |- post _ ((if ?c then _ else _) _) => destruct c
  | |- post _ ((match ?e with _ => _ end) _) => destruct e
  end.

Lemma opPUSHBYTES_keeps parameter : keeps (opPUSHBYTES parameter).
Proof. intros v Hv. unfold opPUSHBYTES. by step. Qed.

Lemma opPUSHINT_keeps op : keeps (opPUSHINT op).
Proof. intros v Hv. unfold opPUSHINT. by step. Qed.

Lemma opPUSH0_keeps : keeps opPUSH0.
Proof. intros v Hv. unfold opPUSH0. by step. Qed.

Lemma opTOALTSTACK_keeps : keeps opTOALTSTACK.
Proof. intros v Hv. unfold opTOALTSTACK. by repeat step. Qed.

Lemma opFROMALTSTACK_keeps : keeps opFROMALTSTACK.
Proof. intros v Hv. unfold opFROMALTSTACK. by repeat step. Qed.

Lemma opDUPFROMALTSTACK_keeps : keeps opDUPFROMALTSTACK.
Proof. intros v Hv. unfold opDUPFROMALTSTACK. by repeat step. Qed.

Lemma opDUP_keeps : keeps opDUP.
Proof. intros v Hv. unfold opDUP. by repeat step. Qed.

Lemma opSWAP_keeps : keeps opSWAP.
Proof. intros v Hv. unfold opSWAP. by repeat step. Qed.

Lemma opCAT_keeps : keeps opCAT.
Proof. intros v Hv. unfold opCAT. by repeat step. Qed.

Lemma opSUBSTR_keeps : keeps opSUBSTR.
Proof. intros v Hv. unfold opSUBSTR. by repeat step. Qed.

Lemma opLEFT_keeps : keeps opLEFT.
Proof. intros v Hv. unfold opLEFT. by repeat step. Qed.

Lemma opRIGHT_keeps : keeps opRIGHT.
Proof. intros v Hv. unfold opRIGHT. by repeat step. Qed.

Lemma opDEPTH_keeps : keeps opDEPTH.
Proof. intros v Hv. unfold opDEPTH. by repeat step. Qed.

Lemma opDROP_keeps : keeps opDROP.
Proof. intros v Hv. unfold opDROP. by repeat step. Qed.

Lemma opSIZE_keeps : keeps opSIZE.
Proof. intros v Hv. unfold opSIZE. by repeat step. Qed.

Lemma opEQUAL_keeps : keeps opEQUAL.
Proof. intros v Hv. unfold opEQUAL. by repeat step. Qed.

Lemma opSHIFT_keeps op : keeps (opSHIFT op).
Proof. intros v Hv. unfold opSHIFT. by repeat step. Qed.

Lemma newSliceOfFalses_post what item v :
  accounted v ->
  post (fun items v' =>
          v' = v /\ Forall (fun it => compound it = None) items)
       (newSliceOfFalses what item v).
Proof.
  intros Hv. unfold newSliceOfFalses, bind, try.
  destruct (BigInt item); simpl; [|done].
  destruct (_ <? _); [done|]. destruct (_ <? _); [done|].
  simpl. split; [done|]. split; [done|]. apply replicate_scalar.
Qed.

(** A new collection without collections in it, pushed. *)
Lemma alloc_push_keeps (own : ref -> StackItem) items v :
  (forall p, compound (own p) = Some p) ->
  Forall (fun it => compound it = None) items ->
  accounted v ->
  post (fun _ _ => True)
       (bind (alloc (Slice items)) (fun p => PushVal (own p)) v).
Proof.
  intros Hown Hitems Hv.
  eapply post_bind; [by apply alloc_post|].
  intros p v' Hacc [Hh Hp]. cbv beta.
  eapply post_mono; [apply PushItem_post; [done|]|done].
  intros q Hq. rewrite Hown in Hq. injection Hq as <-.
  rewrite Hh, lookup_insert_eq. by eexists.
Qed.

Lemma post_sliceOf {B} p (k : list StackItem -> M B) R v :
  post R (k (children (heap v) p) v) -> post R (bind (sliceOf p) k v).
Proof. done. Qed.

Lemma post_elemValue {B} e (k : StackItem -> M B) R v :
  accounted v ->
  (forall item, e = Some item -> post R (k item v)) ->
  post R (bind (elemValue e) k v).
Proof. intros Hv Hk. destruct e as [item|]; [by apply Hk | done]. Qed.

Lemma opNEWARRAY_keeps : keeps opNEWARRAY.
Proof.
  intros v Hv. unfold opNEWARRAY. step.
  apply post_elemValue; [done|]. intros a Ha.
  assert (Hflat : forall t, Forall (fun it => compound it = None)
                              (children (heap v0) t)) by apply Hacc.
  destruct a; try by (eapply post_bind;
    [by apply newSliceOfFalses_post|];
    intros items v' _ [-> Hitems]; cbv beta;
    by apply (alloc_push_keeps ArrayItem)).
  - by step.
  - apply post_sliceOf. by apply (alloc_push_keeps ArrayItem).
Qed.

Lemma opNEWSTRUCT_keeps : keeps opNEWSTRUCT.
Proof.
  intros v Hv. unfold opNEWSTRUCT. step.
  apply post_elemValue; [done|]. intros a Ha.
  assert (Hflat : forall t, Forall (fun it => compound it = None)
                              (children (heap v0) t)) by apply Hacc.
  destruct a; try by (eapply post_bind;
    [by apply newSliceOfFalses_post|];
    intros items v' _ [-> Hitems]; cbv beta;
    by apply (alloc_push_keeps StructItem)).
  - apply post_sliceOf. by apply (alloc_push_keeps StructItem).
  - by step.
Qed.

Lemma opNEWMAP_keeps : keeps opNEWMAP.
Proof.
  intros v Hv. unfold opNEWMAP.
  eapply post_bind; [by apply alloc_post|].
  intros p v' Hacc [Hh Hp]. cbv beta.
  eapply post_mono; [apply PushItem_post; [done|]|done].
  intros q [= <-]. rewrite Hh, lookup_insert_eq. by eexists.
Qed.

Lemma accounted_setIstack s v : accounted v -> accounted (setIstack s v).
Proof. done. Qed.

Lemma accounted_setState st v : accounted v -> accounted (setState st v).
Proof. done. Qed.

Lemma opRET_keeps : keeps opRET.
Proof.
  intros v Hv. unfold opRET.
  destruct (istack v) as [|oldCtx rest]; [done|].
  destruct (_ && _); [done|]. by destruct rest.
Qed.

Lemma popBytes_post n : forall v,
  accounted v -> post (fun _ v' => heap v' = heap v) (popBytes n v).
Proof.
  induction n as [|n IH]; intros v Hv; simpl; [done|].
  step. step.
  eapply post_bind; [by apply IH|]. intros l v' Hacc' Hh'. cbv beta in *.
  split; [done|]. congruence.
Qed.

Lemma popSigElements_post v :
  accounted v -> post (fun _ v' => heap v' = heap v) (popSigElements v).
Proof.
  intros Hv. unfold popSigElements. step.
  assert (Hbytes : forall item,
    post (fun _ v' => heap v' = heap v)
      (bind (try (BigInt item))
         (fun nz =>
            bind (Len Evaluation)
              (fun n =>
                 if (Go.Int64 nz <? 1) || (n <? Go.Int64 nz)
                 then ret (Throw "wrong number of elements")
                 else bind (popBytes (Z.to_nat (Go.Int64 nz)))
                        (fun elems => ret (Val elems)))) v0)).
  { intros item. step. step. destruct (_ || _); [by split|].
    eapply post_bind; [by apply popBytes_post|].
    intros l v' Hacc' Hh'. cbv beta in *. split; [done|]. congruence. }
  destruct e as [[]|]; try apply Hbytes.
  - apply post_sliceOf. destruct (_ <? _)%nat; [by split|].
    destruct (mapM _ _); by split.
  - by split.
Qed.

Lemma opCHECKMULTISIG_keeps : keeps (opCHECKMULTISIG crypto).
Proof.
  intros v Hv. unfold opCHECKMULTISIG.
  eapply post_bind; [by apply popSigElements_post|].
  intros [pkeys|e] v1 Hacc1 Hh1; cbv beta iota; [|done].
  eapply post_bind; [by apply popSigElements_post|].
  intros [sigs|e] v2 Hacc2 Hh2; cbv beta iota; [|done].
  destruct (_ <? _); [done|].
  apply post_reads; [reads_tac|done|]. intros [hash|]; [|done].
  destruct (multisigLoop _ _ _ _ _ _ _ _) as [[sigok|e]|]; [|done..].
  by step.
Qed.

Lemma dispatch_keeps op parameter : keeps (dispatch crypto op parameter).
Proof.
  unfold dispatch.
  repeat match goal with
         | |- keeps (if ?c then _ else _) => destruct c
         end;
    auto using opPUSHBYTES_keeps, opPUSHINT_keeps, opPUSH0_keeps,
      opTOALTSTACK_keeps, opFROMALTSTACK_keeps, opDUPFROMALTSTACK_keeps,
      opDUP_keeps, opSWAP_keeps, opCAT_keeps, opSUBSTR_keeps, opLEFT_keeps,
      opRIGHT_keeps, opDEPTH_keeps, opDROP_keeps, opSIZE_keeps,
      opEQUAL_keeps, opSHIFT_keeps, opNEWARRAY_keeps, opNEWSTRUCT_keeps,
      opNEWMAP_keeps, opRET_keeps, opCHECKMULTISIG_keeps.
  - intros v Hv. by split.
  - by intros v Hv.
  - by intros v Hv.
Qed.

Lemma execute_accounted ctx_ip op parameter v v' e :
  accounted v ->
  execute crypto ctx_ip op parameter v = Returned v' e -> accounted v'.
Proof.
  intros Hv. unfold execute. pose proof (dispatch_keeps op parameter v Hv) as H.
  destruct (dispatch crypto op parameter v) as [[] v1|msg v1|]; [| |done].
  - destruct H as [H _]. destruct (_ <? _); by intros [= <- <-].
  - by intros [= <- <-].
Qed.

Lemma Step_accounted v v' e :
  accounted v -> Step crypto v = Returned v' e -> accounted v'.
Proof.
  intros Hv. unfold Step. destruct (istack v) as [|ctx rest]; [done|].
  destruct (Next ctx) as [[[[ctx' op] param] [msg|]]|]; [| |done].
  - by intros [= <- <-].
  - by apply execute_accounted.
Qed.

Lemma runLoop_accounted fuel : forall v v' e,
  accounted v -> runLoop crypto fuel v = Returned v' e -> accounted v'.
Proof.
  induction fuel as [|fuel IH]; intros v v' e Hv; [done|].
  simpl.
  set (v0 := match istack v with
             | [] => v
             | ctx :: _ =>
                 if atBreakPoint ctx
                 then setState (Z.lor (state v) breakState) v else v
             end).
  assert (Hv0 : accounted v0).
  { unfold v0. destruct (istack v) as [|ctx ?]; [done|].
    by destruct (atBreakPoint ctx). }
  clearbody v0.
  destruct (HasFlag (state v0) faultState); [by intros [= <- <-]|].
  destruct (_ || _); [by intros [= <- <-]|].
  destruct (state v0 =? noneState); [|by intros [= <- <-]].
  destruct (Step crypto v0) as [v1 [e1|]| | |] eqn:Hs; try done.
  - intros [= <- <-]. by eapply Step_accounted.
  - apply IH. by eapply Step_accounted.
Qed.

Lemma Run_accounted fuel v v' e :
  accounted v -> Run crypto fuel v = Returned v' e -> accounted v'.
Proof.
  intros Hv. unfold Run.
  destruct (negb (Ready v)); [by intros [= <- <-]|].
  destruct (HasFlag (state v) faultState); [by intros [= <- <-]|].
  by apply runLoop_accounted.
Qed.

Lemma load_accounted prog : accounted (load prog).
Proof.
  split; [|split; [|split]]; simpl.
  - intros p. unfold children. by rewrite lookup_empty.
  - intros p n. by rewrite lookup_empty.
  - intros p. by rewrite lookup_empty.
  - by rewrite weight_empty.
Qed.

Lemma reachable_accounted v : reachable crypto v -> accounted v.
Proof.
  induction 1 as [prog|h v _ IH|v v' e _ IH Hs|fuel v v' e _ IH Hr].
  - apply load_accounted.
  - exact IH.
  - by eapply Step_accounted.
  - by eapply Run_accounted.
Qed.




End Accounting.

(** * Examples: the machines of the repository's tests *)

Section VMExamples.

Import vm.





(** C8 at the count -1: SHR pushes 0 where a shift of 4 by -1 is 8, and
    SHL faults. *)
Lemma SHIFT_counts_witness :
  execute exampleCurve 0 SHR [] negativeCount =
    Returned (replaced negativeCount (BigIntegerItem (Go.NewInt 0)) [] 1)
             None /\
  exists v' e,
    execute exampleCurve 0 SHL [] negativeCount = Returned v' (Some e) /\
    HasFailed v' = true.
Proof.
  split.
  - destruct (SHIFT_counts exampleCurve 0 SHR [] negativeCount
                (BigIntegerItem (Go.NewInt (-1))) (-1)
                [BigIntegerItem (Go.NewInt 4)])
      as (_ & _ & H); [by right | by vm_compute ..|].
    destruct (H (BigIntegerItem (Go.NewInt 4)) 4 []) as [_ Hneg]; [done..|].
    destruct Hneg as [Hshr _]; [by vm_compute|].
    apply Hshr; by vm_compute.
  - destruct (SHIFT_counts exampleCurve 0 SHL [] negativeCount
                (BigIntegerItem (Go.NewInt (-1))) (-1)
                [BigIntegerItem (Go.NewInt 4)])
      as (_ & _ & H); [by left | by vm_compute ..|].
    destruct (H (BigIntegerItem (Go.NewInt 4)) 4 []) as [_ Hneg]; [done..|].
    destruct Hneg as [_ Hshl]; [by vm_compute|].
    apply Hshl; by vm_compute.
Defined.








End VMExamples.

(** * Properties of the encoders and decoders *)

Lemma byte_to_Z_range b : 0 <= Go.byte_to_Z b < 256.
Proof.
  unfold Go.byte_to_Z. pose proof (Byte.to_N_bounded b). lia.
Qed.

Lemma byte_to_of_Z z : Go.byte_to_Z (Go.byte_of_Z z) = z mod 256.
Proof.
  unfold Go.byte_to_Z, Go.byte_of_Z.
  pose proof (Z.mod_pos_bound z 256 ltac:(lia)) as Hm.
  destruct (Byte.of_N (Z.to_N (z mod 256))) as [b|] eqn:E.
  - apply Byte.to_of_N in E. simpl. rewrite E. lia.
  - apply Byte.of_N_None_iff in E. lia.
Qed.

Lemma byte_of_to_Z b : Go.byte_of_Z (Go.byte_to_Z b) = b.
Proof.
  unfold Go.byte_of_Z. rewrite Z.mod_small by apply byte_to_Z_range.
  unfold Go.byte_to_Z. rewrite N2Z.id, Byte.of_to_N. done.
Qed.

Lemma le_to_Z_putLE n : forall x,
  0 <= x < 256 ^ Z.of_nat n -> Go.le_to_Z (io.putLE n x) = x.
Proof.
  induction n as [|n IH]; intros x Hx.
  - simpl in *. lia.
  - rewrite Nat2Z.inj_succ, Z.pow_succ_r in Hx by lia.
    simpl. rewrite byte_to_of_Z, IH.
    + rewrite Z.mod_mod by lia. pose proof (Z.div_mod x 256 ltac:(lia)). lia.
    + split; [apply Z.div_pos; lia|].
      apply Z.div_lt_upper_bound; lia.
Qed.

Lemma length_putLE n x : length (io.putLE n x) = n.
Proof. revert x. induction n; intros; simpl; auto. Qed.

Lemma readN_app (bs rest : list byte) :
  io.readN (length bs) (ready (bs ++ rest)) = (Some bs, ready rest).
Proof.
  unfold io.readN, ready. simpl.
  rewrite length_app.
  destruct (Nat.ltb_spec (length bs + length rest) (length bs)); [lia|].
  by rewrite take_app_length, drop_app_length.
Qed.

Lemma ReadLE_WriteLE n x rest :
  0 <= x < 256 ^ Z.of_nat n ->
  io.ReadLE n (ready (io.WriteLE n x ++ rest)) = (x, ready rest).
Proof.
  intros Hx. unfold io.ReadLE, io.andThen, io.WriteLE.
  rewrite <- (length_putLE n x) at 1. rewrite readN_app.
  unfold io.pure. by rewrite le_to_Z_putLE.
Qed.

Lemma ReadBool_WriteBool b rest :
  io.ReadBool (ready (io.WriteBool b ++ rest)) = (b, ready rest).
Proof.
  unfold io.ReadBool, io.WriteBool, io.andThen.
  rewrite ReadLE_WriteLE by (destruct b; simpl; lia).
  by destruct b.
Qed.

Lemma ReadVarUint_WriteVarUint x rest :
  0 <= x < 2 ^ 64 ->
  io.ReadVarUint (ready (io.WriteVarUint x ++ rest)) = (x, ready rest).
Proof.
  intros Hx. unfold io.ReadVarUint, io.WriteVarUint, io.andThen.
  destruct (Z.ltb_spec x 253).
  { rewrite ReadLE_WriteLE by (simpl; lia).
    destruct (Z.eqb_spec x 253); [lia|].
    destruct (Z.eqb_spec x 254); [lia|].
    destruct (Z.eqb_spec x 255); [lia|]. done. }
  destruct (Z.leb_spec x 65535); [|destruct (Z.leb_spec x 4294967295)];
    rewrite <- app_assoc;
    rewrite ReadLE_WriteLE by (simpl; lia);
    cbv beta iota zeta.
  - change (253 =? 253) with true. cbv iota.
    rewrite ReadLE_WriteLE; [done|]. simpl; lia.
  - change (254 =? 253) with false. change (254 =? 254) with true. cbv iota.
    rewrite ReadLE_WriteLE; [done|]. simpl; lia.
  - change (255 =? 253) with false. change (255 =? 254) with false.
    change (255 =? 255) with true. cbv iota.
    rewrite ReadLE_WriteLE; [done|]. simpl; lia.
Qed.

Lemma ReadBytes_WriteBytes (b rest : list byte) :
  Go.len b < 2 ^ 64 ->
  io.ReadBytes (ready (io.WriteBytes b ++ rest)) = (b, ready rest).
Proof.
  intros Hb. unfold io.ReadBytes, io.WriteBytes, io.andThen.
  rewrite <- app_assoc.
  rewrite ReadVarUint_WriteVarUint by (unfold Go.len in *; lia).
  unfold Go.len. rewrite Nat2Z.id, readN_app. done.
Qed.

(** One read of a decoder against the write of the encoder. *)
Ltac read_step :=
  first
    [ rewrite ReadLE_WriteLE by (cbn; lia)
    | rewrite ReadBool_WriteBool
    | rewrite ReadBytes_WriteBytes by assumption
    | rewrite ReadVarUint_WriteVarUint by (unfold Go.len in *; lia) ];
  cbv beta iota zeta.

Section VersionFacts.

Import payload.

Lemma Version_roundtrip p rest :
  validVersion p ->
  Version_DecodeBinary (ready (Version_EncodeBinary p ++ rest)) = (p, ready rest).
Proof.
  intros (H1 & H2 & H3 & H4 & H5 & H6 & H7).
  unfold Version_DecodeBinary, Version_EncodeBinary, io.andThen.
  rewrite <- !app_assoc.
  do 8 read_step.
  by destruct p.
Qed.

Lemma readUint256_app (h : util.Uint256) rest :
  util.validUint256 h -> readUint256 (ready (h ++ rest)) = (h, ready rest).
Proof.
  intros Hh. unfold readUint256, io.andThen.
  rewrite <- Hh. by rewrite readN_app.
Qed.

Lemma readMany_Uint256 (hs : list util.Uint256) rest :
  Forall util.validUint256 hs ->
  io.readMany readUint256 (length hs) (ready (concat hs ++ rest)) =
    (hs, ready rest).
Proof.
  induction 1 as [|h hs Hh _ IH]; [done|].
  simpl. unfold io.andThen in *. rewrite <- app_assoc.
  rewrite readUint256_app by done. by rewrite IH.
Qed.

Lemma GetBlocks_roundtrip p rest :
  validGetBlocks p ->
  GetBlocks_DecodeBinary (ready (GetBlocks_EncodeBinary p ++ rest)) =
    (p, ready rest).
Proof.
  intros (H1 & H2 & H3).
  unfold GetBlocks_DecodeBinary, GetBlocks_EncodeBinary, io.andThen.
  rewrite <- !app_assoc. read_step.
  unfold Go.len. rewrite Nat2Z.id, readMany_Uint256 by done.
  rewrite readUint256_app by done. by destruct p.
Qed.

End VersionFacts.

Section PublishFacts.

Import transaction.

Lemma readParamType_app (param : ParamType) rest :
  0 <= param < 2 ^ 8 ->
  readParamType (ready (io.WriteLE 1 (Go.uint8 param) ++ rest)) =
    (param, ready rest).
Proof.
  intros Hp. unfold readParamType, io.andThen, Go.uint8.
  rewrite Z.mod_small by done.
  by rewrite ReadLE_WriteLE by (cbn; lia).
Qed.

Lemma readMany_ParamType (ps : list ParamType) rest :
  Forall (fun param => 0 <= param < 2 ^ 8) ps ->
  io.readMany readParamType (length ps)
    (ready (concat ((fun param => io.WriteLE 1 (Go.uint8 param)) <$> ps)
            ++ rest)) =
    (ps, ready rest).
Proof.
  induction 1 as [|param ps Hp _ IH]; [done|].
  cbn [length io.readMany fmap list_fmap concat]. unfold io.andThen in *.
  rewrite <- app_assoc.
  rewrite readParamType_app by done. by rewrite IH.
Qed.

Lemma PublishTX_roundtrip tx rest :
  validPublishTX tx ->
  1 <= Version0 tx \/ NeedStorage tx = false ->
  PublishTX_DecodeBinary (Version0 tx)
    (ready (PublishTX_EncodeBinary tx ++ rest)) = (tx, ready rest).
Proof.
  intros (H1 & Hps & Hr & H3 & H4 & H5 & H6 & H7 & H8 & H9) H2.
  unfold PublishTX_DecodeBinary, PublishTX_EncodeBinary, io.andThen,
    io.WriteString, io.ReadString.
  rewrite <- !app_assoc.
  do 2 read_step.
  unfold Go.len at 1. rewrite Nat2Z.id, readMany_ParamType by done.
  rewrite readParamType_app by done.
  destruct (Z.leb_spec 1 (Version0 tx)).
  - do 6 read_step. by destruct tx.
  - destruct H2 as [?|H2]; [lia|]. simpl app. unfold io.pure at 1.
    do 5 read_step. destruct tx; simpl in *. by rewrite H2.
Qed.

(** In a body of version 0 the storage flag is not written, and read back
    as false. *)
Lemma PublishTX_version0 tx rest :
  validPublishTX tx -> Version0 tx < 1 ->
  PublishTX_DecodeBinary (Version0 tx)
    (ready (PublishTX_EncodeBinary tx ++ rest)) =
    (mkPublishTX (Script tx) (ParamList tx) (ReturnType tx) false (Name tx)
                 (CodeVersion tx) (Author tx) (Email tx) (Description tx)
                 (Version0 tx),
     ready rest).
Proof.
  intros (H1 & Hps & Hr & H3 & H4 & H5 & H6 & H7 & H8 & H9) H2.
  unfold PublishTX_DecodeBinary, PublishTX_EncodeBinary, io.andThen,
    io.WriteString, io.ReadString.
  rewrite <- !app_assoc.
  do 2 read_step.
  unfold Go.len at 1. rewrite Nat2Z.id, readMany_ParamType by done.
  rewrite readParamType_app by done.
  destruct (Z.leb_spec 1 (Version0 tx)); [lia|].
  simpl app. unfold io.pure at 1.
  by do 5 read_step.
Qed.

End PublishFacts.

(** C9 (amended): decoding reads back what encoding wrote, and leaves the
    bytes that follow: for every version payload, for every getblocks
    payload, and for every publish body whose storage flag is false or
    whose version is at least 1, decoded into a body of the same version.
    In a body of a version below 1 the flag is not written, and it is read
    back as false. *)
Theorem Decode_Encode_roundtrip :
  (forall p rest,
     validVersion p ->
     payload.Version_DecodeBinary
       (ready (payload.Version_EncodeBinary p ++ rest)) = (p, ready rest)) /\
  (forall p rest,
     validGetBlocks p ->
     payload.GetBlocks_DecodeBinary
       (ready (payload.GetBlocks_EncodeBinary p ++ rest)) = (p, ready rest)) /\
  (forall tx rest,
     validPublishTX tx ->
     let decoded :=
       transaction.PublishTX_DecodeBinary (transaction.Version0 tx)
         (ready (transaction.PublishTX_EncodeBinary tx ++ rest)) in
     (1 <= transaction.Version0 tx \/ transaction.NeedStorage tx = false ->
      decoded = (tx, ready rest)) /\
     (transaction.Version0 tx < 1 ->
      transaction.NeedStorage decoded.1 = false)).
Proof.
  split; [exact Version_roundtrip|]. split; [exact GetBlocks_roundtrip|].
  intros tx rest Hv decoded. subst decoded. split.
  - by apply PublishTX_roundtrip.
  - intros Hlt. by rewrite PublishTX_version0.
Qed.

Section WireExamples.

(** C9 on these three values. *)
Lemma Decode_Encode_roundtrip_witness :
  payload.Version_DecodeBinary
    (ready (payload.Version_EncodeBinary exampleVersion ++ [])) =
    (exampleVersion, ready []) /\
  payload.GetBlocks_DecodeBinary
    (ready (payload.GetBlocks_EncodeBinary exampleGetBlocks ++ [])) =
    (exampleGetBlocks, ready []) /\
  transaction.PublishTX_DecodeBinary 1
    (ready (transaction.PublishTX_EncodeBinary examplePublish ++ [])) =
    (examplePublish, ready []).
Proof.
  destruct Decode_Encode_roundtrip as (Hv & Hg & Hp).
  split; [|split].
  - apply Hv. unfold validVersion. repeat split; by vm_compute.
  - apply Hg. unfold validGetBlocks.
    split; [by repeat constructor|]. split; by vm_compute.
  - apply (Hp examplePublish []); [|by left].
    unfold validPublishTX.
    split; [by vm_compute|]. split; [repeat constructor; by vm_compute|].
    repeat split; by vm_compute.
Defined.

(** C9, counterexample: a publish body of version 0 whose storage flag is
    set does not come back from its encoding. *)
Lemma PublishTX_version0_drops_NeedStorage :
  (transaction.PublishTX_DecodeBinary 0
     (io.NewBinReaderFromBuf
        (transaction.PublishTX_EncodeBinary publishVersion0))).1
  <> publishVersion0.
Proof. vm_compute. discriminate. Qed.

End WireExamples.

(** * Properties of the server *)

Section ServerFacts.

Import network.

Variable Chain : Type.
Variable HasTransaction : Chain -> util.Uint256 -> bool.
Variable VerifyTx : Chain -> transaction.Transaction -> option string.
Variable TryAdd :
  Chain -> util.Uint256 -> transaction.Transaction -> bool * Chain.

Lemma relayLoop_handshaked (s : Server Chain) t ps : forall sent,
  Forall handshaked ps ->
  relayLoop s t ps sent = (None, sent ++ (invOf s t <$> List.filter relays ps)).
Proof.
  induction ps as [|p ps IH]; intros sent Hps; simpl.
  - by rewrite app_nil_r.
  - apply Forall_cons in Hps as [[version Hp] Hps].
    unfold RelayDirectly, relays. rewrite Hp.
    destruct (payload.Relay version); simpl.
    + rewrite IH by done. by rewrite <- app_assoc.
    + rewrite app_nil_r. by apply IH.
Qed.

(** A peer without a version stops the loop with a panic. *)
Lemma relayLoop_nil_version (s : Server Chain) t ps p ps' : forall sent,
  Forall handshaked ps -> Version p = None ->
  relayLoop s t (ps ++ p :: ps') sent =
    (Some "invalid memory address or nil pointer dereference",
     sent ++ (invOf s t <$> List.filter relays ps)).
Proof.
  induction ps as [|q ps IH]; intros sent Hps Hp; simpl.
  - unfold RelayDirectly. rewrite Hp. by rewrite app_nil_r.
  - apply Forall_cons in Hps as [[version Hq] Hps].
    unfold RelayDirectly at 1, relays at 1. rewrite Hq.
    destruct (payload.Relay version); simpl.
    + rewrite IH by done. by rewrite <- app_assoc.
    + rewrite app_nil_r. by apply IH.
Qed.

(** C3 (amended): the result of RelayTxn, decided in this order.  A Miner
    transaction is Invalid, whatever the chain holds.  Any other
    transaction: AlreadyExists when the chain has its hash; else Invalid
    when the verification fails; else OutOfMemory when the pool does not
    take it; else, with every known peer past its version message, Succeed
    after one inv message with the hash of the transaction was written to
    each peer whose version has the relay flag, and to no other peer.
    UnableToVerify and PolicyFail are never returned. *)
Theorem RelayTxn_results (s : Server Chain) (t : transaction.Transaction) :
  let hash := transaction.Hash t in
  let relayed := RelayTxn HasTransaction VerifyTx TryAdd s t in
  (transaction.Type_ t = transaction.MinerType ->
   relayed = (Returns RelayInvalid, chain s, [])) /\
  (transaction.Type_ t <> transaction.MinerType ->
   (HasTransaction (chain s) hash = true ->
    relayed = (Returns RelayAlreadyExists, chain s, [])) /\
   (HasTransaction (chain s) hash = false ->
    (forall e, VerifyTx (chain s) t = Some e ->
       relayed = (Returns RelayInvalid, chain s, [])) /\
    (forall ok chain',
       VerifyTx (chain s) t = None ->
       TryAdd (chain s) hash t = (ok, chain') ->
       (ok = false -> relayed = (Returns RelayOutOfMemory, chain', [])) /\
       (ok = true -> Forall handshaked (peers s) ->
          relayed = (Returns RelaySucceed, chain',
                     invOf s t <$> List.filter relays (peers s)))))) /\
  (forall r, relayed.1.1 = Returns r ->
     r <> RelayUnableToVerify /\ r <> RelayPolicyFail).
Proof.
  intros hash relayed. subst hash relayed. unfold RelayTxn.
  split; [|split].
  - intros Hm. by destruct (decide _).
  - intros Hm. destruct (decide _) as [|_]; [done|]. split.
    + by intros ->.
    + intros ->. split.
      * by intros e ->.
      * intros ok chain' -> ->. split; intros ->; [done|].
        intros Hps. simpl. by rewrite relayLoop_handshaked.
  - intros r.
    destruct (decide _); [by intros [= <-]|].
    destruct (HasTransaction _ _); [by intros [= <-]|].
    destruct (VerifyTx _ _); [by intros [= <-]|].
    destruct (TryAdd _ _ _) as [[] chain']; simpl; [|by intros [= <-]].
    destruct (relayLoop _ _ _ _) as [[msg|] sent]; simpl; [done|].
    by intros [= <-].
Qed.

(** C4 (amended): the reply to an inv message is one getdata message to
    the peer that sent it, for the announced type and all the announced
    hashes, in their order; what the chain or the pool hold plays no part
    in it. *)
Theorem handleInvCmd_requests_all (s : Server Chain) (p : Peer)
    (inv : payload.Inventory) :
  exists m,
    handleInvCmd s p inv = [(p, m)] /\
    Magic m = Net s /\
    Command m = CMDGetData /\
    payload.Type_ (Payload m) = payload.Type_ inv /\
    payload.Hashes (Payload m) = payload.Hashes inv.
Proof. by eexists. Qed.

End ServerFacts.

Section ServerExamples.

Import network.

(** C3 on a new Contract transaction: it is accepted and announced to the
    peer that asked for relaying, and to no other. *)
Lemma RelayTxn_results_witness :
  RelayTxn exampleHas exampleVerify exampleTryAdd exampleServer
           (transaction.mkTransaction transaction.ContractType newHash) =
    (Returns RelaySucceed, [knownHash],
     [(relayingPeer,
       NewMessage 56753 CMDInv (payload.NewInventory payload.TXType [newHash]))]).
Proof.
  destruct (RelayTxn_results exampleChain exampleHas exampleVerify
              exampleTryAdd exampleServer
              (transaction.mkTransaction transaction.ContractType newHash))
    as (_ & H & _).
  destruct H as [_ H]; [done|].
  destruct H as [_ H]; [by vm_compute|].
  destruct (H true [knownHash]) as [_ H']; [done..|].
  apply H'; [done|]. repeat constructor; by eexists.
Defined.

(** C3, counterexample: the chain has the hash of a Miner transaction, and
    the result is Invalid, not AlreadyExists. *)
Lemma RelayTxn_known_miner_transaction :
  exampleHas (chain exampleServer) knownHash = true /\
  (RelayTxn exampleHas exampleVerify exampleTryAdd exampleServer
            (transaction.mkTransaction transaction.MinerType knownHash)).1.1 =
    Returns RelayInvalid /\
  Returns RelayInvalid <> Returns RelayAlreadyExists.
Proof. by vm_compute. Qed.

(** C4 on an announcement of two blocks, one of them known. *)
Lemma handleInvCmd_requests_all_witness :
  handleInvCmd exampleServer relayingPeer
               (payload.NewInventory payload.BlockType [newHash; knownHash]) =
    [(relayingPeer,
      NewMessage 56753 CMDGetData
                 (payload.NewInventory payload.BlockType [newHash; knownHash]))].
Proof.
  destruct (handleInvCmd_requests_all exampleChain exampleServer relayingPeer
              (payload.NewInventory payload.BlockType [newHash; knownHash]))
    as (m & -> & Hn & Hc & Ht & Hh).
  destruct m as [magic command [type hashes]]. simpl in *.
  by rewrite Hn, Hc, Ht, Hh.
Defined.

(** C4, counterexample: the server has a transaction, a peer announces
    its hash, and the getdata message asks for it. *)
Lemma handleInvCmd_requests_known_hash :
  exampleHas (chain exampleServer) knownHash = true /\
  exists m,
    handleInvCmd exampleServer relayingPeer
                 (payload.NewInventory payload.TXType [knownHash]) =
      [(relayingPeer, m)] /\
    Command m = CMDGetData /\
    knownHash ∈ payload.Hashes (Payload m).
Proof.
  split; [by vm_compute|]. eexists. split; [reflexivity|].
  split; [reflexivity|]. simpl. apply elem_of_cons. by left.
Qed.

End ServerExamples.

(** * More properties of the virtual machine *)

Section StackFacts.

Import vm.

Variable crypto : keys.Curve.

(** The counter is a function of the heap and the two stacks. *)
Lemma accounted_unique v v' :
  accounted v -> accounted v' ->
  heap v' = heap v -> estack v' = estack v -> astack v' = astack v ->
  itemCount v' = itemCount v /\ size v' = size v.
Proof.
  intros (_ & _ & Hc & Hs) (_ & _ & Hc' & Hs') Hh He Ha.
  assert (Hm : itemCount v' = itemCount v).
  { apply map_eq. intros p. by rewrite Hc, Hc', He, Ha. }
  split; [done|]. by rewrite Hs, Hs', Hm, Hh, He, Ha.
Qed.

Lemma VM_eq v v' :
  state v' = state v -> istack v' = istack v -> estack v' = estack v ->
  astack v' = astack v -> checkhash v' = checkhash v ->
  itemCount v' = itemCount v -> size v' = size v -> heap v' = heap v ->
  v' = v.
Proof. destruct v, v'; simpl; congruence. Qed.

(** Two accounted machines that differ at most in their counters. *)
Lemma accounted_eq v v' :
  accounted v -> accounted v' ->
  state v' = state v -> istack v' = istack v -> estack v' = estack v ->
  astack v' = astack v -> checkhash v' = checkhash v -> heap v' = heap v ->
  v' = v.
Proof.
  intros Hv Hv' Hst Hi He Ha Hch Hh.
  destruct (accounted_unique v v' Hv Hv' Hh He Ha) as [Hm Hs].
  by apply VM_eq.
Qed.

(** On an accounted machine a pop returns. *)
Lemma Pop_accounted n v :
  accounted v ->
  match getStack n v with
  | [] => Pop n v = Ok None v
  | item :: rest =>
      exists c, Pop n v = Ok (Some item) (setStack n rest c v) /\
                accounted (setStack n rest c v)
  end.
Proof.
  intros Hv. pose proof (Pop_post n v Hv) as Hp. unfold Pop in *.
  destruct (getStack n v) as [|item rest] eqn:Hs; [done|].
  pose proof Hv as [Hflat Hc]%accounted_counts.
  destruct (counts_remove (base.size (heap v) + base.size (itemCount v))
              (heap v) item (size v, itemCount v) (stacks v) (depth v)
              Hflat Hc) as (c' & E & _).
  { intros p. apply occurrences_elem.
    destruct n; simpl in Hs; unfold stacks; rewrite Hs;
      apply elem_of_app; [left|right]; apply elem_of_cons; by left. }
  unfold acctFuel in *. rewrite E in *. exists c'. split; [done|].
  by destruct Hp.
Qed.

Lemma PushItem_accounted n item v :
  accounted v -> valid (heap v) item ->
  exists c, PushItem n item v = Ok tt (setStack n (item :: getStack n v) c v) /\
            accounted (setStack n (item :: getStack n v) c v).
Proof.
  intros Hv Hi. pose proof (PushItem_post n item v Hv Hi) as Hp.
  destruct (PushItem_total n item v) as (c & E & _).
  rewrite E in Hp. exists c. split; [done|]. by destruct Hp.
Qed.

Lemma sameBut_refl v : sameBut v v.
Proof. by repeat split. Qed.

Lemma sameBut_trans v1 v2 v3 : sameBut v1 v2 -> sameBut v2 v3 -> sameBut v1 v3.
Proof. unfold sameBut. intros (?&?&?&?) (?&?&?&?). repeat split; congruence. Qed.

Lemma sameBut_setStack n s c v : sameBut v (setStack n s c v).
Proof. by destruct n. Qed.

(** Two accounted machines with the same items on each stack. *)
Lemma accounted_same v v' :
  accounted v -> accounted v' -> sameBut v v' ->
  estack v' = estack v -> astack v' = astack v -> v' = v.
Proof.
  intros Hv Hv' (Hst & Hi & Hch & Hh) He Ha. by apply accounted_eq.
Qed.

(** The counter does not depend on which of the two stacks holds an
    item. *)
Lemma accounted_size v v' :
  accounted v -> accounted v' -> heap v' = heap v ->
  (forall p, occurrences p (stacks v') = occurrences p (stacks v)) ->
  depth v' = depth v ->
  size v' = size v.
Proof.
  intros (_ & _ & Hc & Hs) (_ & _ & Hc' & Hs') Hh Ho Hd.
  assert (Hm : itemCount v' = itemCount v).
  { apply map_eq. intros p. rewrite Hc, Hc'. cbv zeta.
    fold (stacks v) (stacks v'). by rewrite Ho. }
  rewrite Hs, Hs', Hm, Hh. fold (depth v) (depth v'). by rewrite Hd.
Qed.

Lemma getStack_setStack n s c v : getStack n (setStack n s c v) = s.
Proof. by destruct n. Qed.

Lemma getStack_setStack_ne n m s c v :
  n <> m -> getStack m (setStack n s c v) = getStack m v.
Proof. by destruct n, m. Qed.

(** The top of one stack moved to the other stack. *)
Lemma move_top src dst v item rest :
  accounted v -> getStack src v = item :: rest -> src <> dst ->
  exists v1,
    bind (Pop src) (fun e => Push dst e) v = Ok tt v1 /\
    accounted v1 /\ sameBut v v1 /\
    getStack src v1 = rest /\ getStack dst v1 = item :: getStack dst v /\
    size v1 = size v.
Proof.
  intros Hv Hs Hne.
  pose proof (Pop_accounted src v Hv) as Hp. rewrite Hs in Hp.
  destruct Hp as (c1 & Hp & Hv0).
  assert (Hi : valid (heap v) item).
  { apply valid_on_stack; [done|].
    destruct src; simpl in Hs; rewrite Hs; apply elem_of_app;
      [left|right]; apply elem_of_cons; by left. }
  set (v0 := setStack src rest c1 v) in *.
  destruct (PushItem_accounted dst item v0 Hv0) as (c2 & Hq & Hv1).
  { unfold v0. by rewrite heap_setStack. }
  exists (setStack dst (item :: getStack dst v0) c2 v0).
  rewrite (bind_Ok _ _ _ _ _ Hp). simpl Push. split; [done|].
  split; [done|].
  assert (Hd : getStack dst v0 = getStack dst v).
  { unfold v0. by apply getStack_setStack_ne. }
  split; [|split; [|split]].
  - eapply sameBut_trans; apply sameBut_setStack.
  - rewrite getStack_setStack_ne by (by intros ->). unfold v0.
    apply getStack_setStack.
  - by rewrite getStack_setStack, Hd.
  - apply accounted_size; [done..| | |].
    + unfold v0. by rewrite !heap_setStack.
    + intros p. rewrite Hd. unfold stacks, v0.
      destruct src, dst; try done; simpl in *; rewrite Hs;
        rewrite !occurrences_app; simpl; lia.
    + rewrite Hd. unfold depth, v0, Go.len.
      destruct src, dst; try done; simpl in *; rewrite Hs; simpl; lia.
Qed.

(** X1: TOALTSTACK moves the top of the evaluation stack to the alt stack
    and leaves the counter as it is; FROMALTSTACK then restores the machine
    exactly. *)
Theorem TOALTSTACK_FROMALTSTACK ip1 ip2 par1 par2 v item rest :
  reachable crypto v ->
  estack v = item :: rest ->
  size v <= MaxStackSize ->
  exists v1,
    execute crypto ip1 TOALTSTACK par1 v = Returned v1 None /\
    estack v1 = rest /\ astack v1 = item :: astack v /\
    size v1 = size v /\
    execute crypto ip2 FROMALTSTACK par2 v1 = Returned v None.
Proof.
  intros Hr He Hsz. apply reachable_accounted in Hr.
  destruct (move_top Evaluation Alt v item rest Hr He)
    as (v1 & E1 & Hv1 & Hs1 & He1 & Ha1 & Hz1); [done|].
  simpl in He1, Ha1.
  destruct (move_top Alt Evaluation v1 item (astack v) Hv1 Ha1)
    as (v2 & E2 & Hv2 & Hs2 & Ha2 & He2 & Hz2); [done|].
  simpl in He2, Ha2.
  assert (v2 = v) as ->.
  { apply accounted_same; [done..| |congruence|done].
    destruct Hs1 as (?&?&?&?), Hs2 as (?&?&?&?).
    repeat split; congruence. }
  exists v1. unfold execute.
  change (dispatch crypto TOALTSTACK par1) with opTOALTSTACK.
  change (dispatch crypto FROMALTSTACK par2) with opFROMALTSTACK.
  unfold opTOALTSTACK, opFROMALTSTACK. rewrite E1, E2.
  destruct (Z.ltb_spec MaxStackSize (size v1)); [lia|].
  destruct (Z.ltb_spec MaxStackSize (size v)); [lia|]. done.
Qed.

Lemma top_valid n v item rest :
  accounted v -> getStack n v = item :: rest -> valid (heap v) item.
Proof.
  intros Hv Hs. apply valid_on_stack; [done|].
  destruct n; simpl in Hs; rewrite Hs; apply elem_of_app;
    [left|right]; apply elem_of_cons; by left.
Qed.

(** One pop from the evaluation stack of an accounted machine. *)
Lemma pop_top v item rest :
  accounted v -> estack v = item :: rest ->
  exists v1,
    Pop Evaluation v = Ok (Some item) v1 /\
    accounted v1 /\ sameBut v v1 /\
    estack v1 = rest /\ astack v1 = astack v.
Proof.
  intros Hv He.
  pose proof (Pop_accounted Evaluation v Hv) as Hp.
  change (getStack Evaluation v) with (estack v) in Hp.
  rewrite He in Hp. destruct Hp as (c & Hp & Hv1).
  eexists. split; [exact Hp|]. split; [done|].
  split; [apply sameBut_setStack|]. done.
Qed.

(** One push onto the evaluation stack of an accounted machine. *)
Lemma push_top v item :
  accounted v -> valid (heap v) item ->
  exists v1,
    PushItem Evaluation item v = Ok tt v1 /\
    accounted v1 /\ sameBut v v1 /\
    estack v1 = item :: estack v /\ astack v1 = astack v.
Proof.
  intros Hv Hi.
  destruct (PushItem_accounted Evaluation item v Hv Hi) as (c & Hp & Hv1).
  eexists. split; [exact Hp|]. split; [done|].
  split; [apply sameBut_setStack|]. done.
Qed.

Lemma sameBut_heap v v' : sameBut v v' -> heap v' = heap v.
Proof. by intros (_ & _ & _ & ?). Qed.

(** A second copy of an item that is on a stack counts for one. *)
Lemma push_copy v item :
  accounted v -> item ∈ estack v ->
  exists v1,
    PushItem Evaluation item v = Ok tt v1 /\
    accounted v1 /\ sameBut v v1 /\
    estack v1 = item :: estack v /\ astack v1 = astack v /\
    size v1 = size v + 1.
Proof.
  intros Hv Hin.
  assert (Hi : valid (heap v) item).
  { apply valid_on_stack; [done|]. apply elem_of_app. by left. }
  destruct (push_top v item Hv Hi) as (v1 & Hp & Hv1 & Hs & He & Ha).
  exists v1. repeat (split; [done|]).
  unfold PushItem, acctFuel in Hp. rewrite updateSizeAdd_S in Hp.
  destruct (compound item) as [p|] eqn:Hc.
  - destruct Hv as (_ & _ & Hcnt & _). specialize (Hcnt p).
    cbv zeta in Hcnt, Hp. simpl fst in Hp. simpl snd in Hp.
    assert (0 < occurrences p (estack v ++ astack v))%nat.
    { eapply occurrences_elem; [|done]. apply elem_of_app. by left. }
    destruct (decide (occurrences p (estack v ++ astack v) = 0)%nat);
      [lia|].
    rewrite Hcnt in Hp. simpl default in Hp.
    destruct (decide _) in Hp; [|lia]. by injection Hp as <-.
  - by injection Hp as <-.
Qed.

(** The top item of the evaluation stack dropped. *)
Lemma drop_top v item rest :
  accounted v -> estack v = item :: rest ->
  exists v1,
    opDROP v = Ok tt v1 /\ accounted v1 /\ sameBut v v1 /\
    estack v1 = rest /\ astack v1 = astack v.
Proof.
  intros Hv He.
  destruct (pop_top v item rest Hv He) as (v1 & Hq & Hv1 & Hs1 & He1 & Ha1).
  exists v1. split; [|done].
  unfold opDROP, bind, Len. cbv beta.
  change (getStack Evaluation v) with (estack v). rewrite He.
  unfold Go.len.
  destruct (Z.ltb_spec (Z.of_nat (length (item :: rest))) 1) as [Hl|_].
  { simpl length in Hl. lia. }
  by rewrite Hq.
Qed.

(** X2: in a state that the instructions of [dispatch] reach from a
    loaded script, where the stacks are those that [New] created and share
    the machine's counter, DUP pushes a second copy of the top item, which
    counts for one; DROP then restores the machine exactly.  On an empty
    evaluation stack both instructions fault. *)
Theorem DUP_DROP ip1 ip2 par1 par2 v :
  reachable crypto v ->
  (forall item rest,
     estack v = item :: rest ->
     size v + 1 <= MaxStackSize ->
     exists v1,
       execute crypto ip1 DUP par1 v = Returned v1 None /\
       estack v1 = item :: item :: rest /\
       size v1 = size v + 1 /\
       execute crypto ip2 DROP par2 v1 = Returned v None) /\
  (estack v = [] ->
   (exists v' e,
      execute crypto ip1 DUP par1 v = Returned v' (Some e) /\
      HasFailed v' = true) /\
   (exists v' e,
      execute crypto ip2 DROP par2 v = Returned v' (Some e) /\
      HasFailed v' = true)).
Proof.
  intros Hr. apply reachable_accounted in Hr. unfold execute.
  change (dispatch crypto DUP par1) with opDUP.
  change (dispatch crypto DROP par2) with opDROP.
  split.
  - intros item rest He Hsz.
    destruct (push_copy v item Hr) as (v1 & Hp & Hv1 & Hs1 & He1 & Ha1 & Hz1).
    { rewrite He. apply elem_of_cons. by left. }
    rewrite He in He1.
    destruct (drop_top v1 item (item :: rest) Hv1 He1)
      as (v2 & Hq & Hv2 & Hs2 & He2 & Ha2).
    assert (v2 = v) as ->.
    { apply accounted_same; [done..| |congruence|congruence].
      eapply sameBut_trans; [exact Hs1|]. exact Hs2. }
    exists v1. rewrite Hq.
    assert (Hd : opDUP v = Ok tt v1).
    { unfold opDUP, bind, Dup. cbv beta.
      change (getStack Evaluation v) with (estack v). rewrite He. exact Hp. }
    rewrite Hd.
    destruct (Z.ltb_spec MaxStackSize (size v1)); [lia|].
    destruct (Z.ltb_spec MaxStackSize (size v)); [lia|]. done.
  - intros He. unfold opDUP, opDROP, bind, Dup, Len. cbv beta.
    change (getStack Evaluation v) with (estack v).
    rewrite He. simpl. eauto 10.
Qed.

(** The two top items of the evaluation stack exchanged. *)
Lemma swap_top v a b rest :
  accounted v -> estack v = a :: b :: rest ->
  exists v1,
    opSWAP v = Ok tt v1 /\ accounted v1 /\ sameBut v v1 /\
    estack v1 = b :: a :: rest /\ astack v1 = astack v /\
    size v1 = size v.
Proof.
  intros Hv He. unfold opSWAP.
  pose proof (top_valid Evaluation v a _ Hv He) as Hva.
  destruct (pop_top v a _ Hv He) as (v1 & E1 & Hv1 & Hs1 & He1 & Ha1).
  pose proof (top_valid Evaluation v1 b _ Hv1 He1) as Hvb.
  destruct (pop_top v1 b _ Hv1 He1) as (v2 & E2 & Hv2 & Hs2 & He2 & Ha2).
  rewrite (sameBut_heap _ _ Hs1) in Hvb.
  assert (Hh2 : heap v2 = heap v).
  { rewrite (sameBut_heap _ _ Hs2). apply (sameBut_heap _ _ Hs1). }
  destruct (push_top v2 a Hv2) as (v3 & E3 & Hv3 & Hs3 & He3 & Ha3).
  { by rewrite Hh2. }
  destruct (push_top v3 b Hv3) as (v4 & E4 & Hv4 & Hs4 & He4 & Ha4).
  { by rewrite (sameBut_heap _ _ Hs3), Hh2. }
  exists v4.
  rewrite (bind_Ok _ _ _ _ _ E1), (bind_Ok _ _ _ _ _ E2).
  simpl Push. rewrite (bind_Ok _ _ _ _ _ E3). split; [exact E4|].
  split; [done|].
  assert (Hs : sameBut v v4).
  { eapply sameBut_trans; [exact Hs1|]. eapply sameBut_trans; [exact Hs2|].
    eapply sameBut_trans; [exact Hs3|]. exact Hs4. }
  split; [done|]. split; [congruence|]. split; [congruence|].
  apply accounted_size; [done..|by apply sameBut_heap| |].
  - intros p. unfold stacks. rewrite He4, He3, He2, Ha4, Ha3, Ha2, Ha1, He.
    simpl. lia.
  - unfold depth, Go.len. rewrite He4, He3, He2, Ha4, Ha3, Ha2, Ha1, He.
    simpl. lia.
Qed.

(** X3: SWAP exchanges the two top items and leaves the counter as it is;
    a second SWAP restores the machine exactly.  With one item on the
    evaluation stack SWAP faults. *)
Theorem SWAP_SWAP ip1 ip2 par1 par2 v :
  reachable crypto v ->
  (forall a b rest,
     estack v = a :: b :: rest ->
     size v <= MaxStackSize ->
     exists v1,
       execute crypto ip1 SWAP par1 v = Returned v1 None /\
       estack v1 = b :: a :: rest /\
       size v1 = size v /\
       execute crypto ip2 SWAP par2 v1 = Returned v None) /\
  (forall a,
     estack v = [a] ->
     exists v' e,
       execute crypto ip1 SWAP par1 v = Returned v' (Some e) /\
       HasFailed v' = true).
Proof.
  intros Hr. apply reachable_accounted in Hr. unfold execute.
  change (dispatch crypto SWAP par1) with opSWAP.
  change (dispatch crypto SWAP par2) with opSWAP.
  split.
  - intros a b rest He Hsz.
    destruct (swap_top v a b rest Hr He)
      as (v1 & E1 & Hv1 & Hs1 & He1 & Ha1 & Hz1).
    destruct (swap_top v1 b a rest Hv1 He1)
      as (v2 & E2 & Hv2 & Hs2 & He2 & Ha2 & Hz2).
    assert (v2 = v) as ->.
    { apply accounted_same; [done..| |congruence|congruence].
      eapply sameBut_trans; [exact Hs1|]. exact Hs2. }
    exists v1. rewrite E1, E2.
    destruct (Z.ltb_spec MaxStackSize (size v1)); [lia|].
    destruct (Z.ltb_spec MaxStackSize (size v)); [lia|]. done.
  - intros a He. unfold opSWAP.
    destruct (pop_top v a [] Hr He) as (v1 & E1 & Hv1 & Hs1 & He1 & Ha1).
    rewrite (bind_Ok _ _ _ _ _ E1).
    assert (E2 : Pop Evaluation v1 = Ok None v1).
    { unfold Pop. simpl. by rewrite He1. }
    rewrite (bind_Ok _ _ _ _ _ E2).
    pose proof (top_valid Evaluation v a _ Hr He) as Hva.
    destruct (push_top v1 a Hv1) as (v3 & E3 & _).
    { by rewrite (sameBut_heap _ _ Hs1). }
    simpl Push at 1. rewrite (bind_Ok _ _ _ _ _ E3). simpl. eauto.
Qed.

(** X9: CAT takes its two operands off the stack and pushes a byte array
    that holds the bytes of the lower operand followed by the bytes of the
    top operand, when the two together are at most [MaxItemSize] bytes
    long: the stack is one item shorter, one item less is counted and the
    state flags are as they were.  When the operands are longer together
    the machine is put into the fault state.  Nothing is stated about the
    bytes of the items below, which Go's [append] can write to. *)
Theorem CAT_concatenates ctx_ip parameter v ia ib a b rest :
  estack v = ib :: ia :: rest ->
  Bytes ia = Val a -> Bytes ib = Val b ->
  size v <= MaxStackSize ->
  (Go.len a + Go.len b <= MaxItemSize ->
   exists v' rest',
     execute crypto ctx_ip CAT parameter v = Returned v' None /\
     estack v' = ByteArrayItem (a ++ b) :: rest' /\
     length rest' = length rest /\
     size v' = size v - 1 /\ state v' = state v) /\
  (MaxItemSize < Go.len a + Go.len b ->
   faults (execute crypto ctx_ip CAT parameter v)).
Proof.
  intros He Ha Hb Hsz. unfold faults, execute.
  change (dispatch crypto CAT parameter) with opCAT. unfold opCAT.
  rewrite (pop_Bytes ib b (ia :: rest)) by done.
  rewrite (pop_Bytes ia a rest) by done.
  split; intros Hl.
  - destruct (Z.ltb_spec MaxItemSize (Go.len a + Go.len b)); [lia|].
    rewrite PushVal_scalar by done.
    destruct v as [st ist es ast ch ic sz hp]; simpl in *.
    destruct (Z.ltb_spec MaxStackSize (sz - 1 - 1 + 1)); [lia|].
    eexists _, rest. split; [reflexivity|]. simpl.
    split; [done|]. split; [done|]. split; [lia|done].
  - destruct (Z.ltb_spec MaxItemSize (Go.len a + Go.len b)); [|lia].
    unfold panic. eauto.
Qed.

Lemma Int64_range x : - 2 ^ 63 <= Go.Int64 x < 2 ^ 63.
Proof.
  unfold Go.Int64, Go.int64_of_uint64, Go.neg_int64.
  pose proof (Z.mod_pos_bound (Z.abs x) (2 ^ 64) ltac:(lia)).
  destruct (Z.ltb_spec (Z.abs x mod 2 ^ 64) (2 ^ 63));
    destruct (Z.ltb_spec x 0); try lia;
    match goal with
    | |- context [?a =? ?b] => destruct (Z.eqb_spec a b); lia
    end.
Qed.

Lemma slice_take_drop (s : list byte) lo hi :
  Go.slice s lo hi = take (Z.to_nat (hi - lo)) (drop (Z.to_nat lo) s).
Proof. done. Qed.

(** X21: SUBSTR with an offset [o] inside the string and a length [l]
    pushes the [l] bytes from [o] on, or those that are left when the
    string ends before; but when [l + o] does not fit a 64-bit integer
    the sum wraps to a negative end and the machine faults. *)
Theorem SUBSTR_in_range ctx_ip parameter v lit oit sit lz oz s rest :
  estack v = lit :: oit :: sit :: rest ->
  BigInt lit = Val lz -> BigInt oit = Val oz -> Bytes sit = Val s ->
  0 <= Go.Int64 lz -> 0 <= Go.Int64 oz <= Go.len s ->
  size v <= MaxStackSize ->
  (Go.Int64 lz + Go.Int64 oz < 2 ^ 63 ->
   execute crypto ctx_ip SUBSTR parameter v =
     Returned
       (replaced v
          (ByteArrayItem
             (take (Z.to_nat (Go.Int64 lz)) (drop (Z.to_nat (Go.Int64 oz)) s)))
          rest (size v - 2)) None) /\
  (2 ^ 63 <= Go.Int64 lz + Go.Int64 oz ->
   faults (execute crypto ctx_ip SUBSTR parameter v)).
Proof.
  intros He Hl Ho Hs Hl0 Ho0 Hsz.
  pose proof (Int64_range lz) as Hlr. pose proof (Int64_range oz) as Hor.
  set (l := Go.Int64 lz) in *. set (o := Go.Int64 oz) in *.
  unfold faults, execute.
  change (dispatch crypto SUBSTR parameter) with opSUBSTR. unfold opSUBSTR.
  rewrite (pop_BigInt lit lz (oit :: sit :: rest)) by done. fold l.
  destruct (Z.ltb_spec l 0); [lia|].
  rewrite (pop_BigInt oit oz (sit :: rest)) by done. fold o.
  destruct (Z.ltb_spec o 0); [lia|].
  rewrite (pop_Bytes sit s rest) by done.
  destruct (Z.ltb_spec (Go.len s) o); [lia|].
  unfold Go.int64_of_uint64. rewrite (Z.mod_small (l + o)) by lia.
  split; intros Hlo.
  - destruct (Z.ltb_spec (l + o) (2 ^ 63)); [|lia].
    set (last := if Go.len s <? l + o then Go.len s else l + o).
    assert (Hlast : o <= last <= Go.len s)
      by (unfold last; destruct (Z.ltb_spec (Go.len s) (l + o)); lia).
    rewrite goSlice_ok by lia.
    rewrite (bind_Ok _ _ _ (Go.slice s o last) _ eq_refl).
    rewrite PushVal_scalar by done.
    assert (Ht : Go.slice s o last = take (Z.to_nat l) (drop (Z.to_nat o) s)).
    { rewrite slice_take_drop. unfold last.
      destruct (Z.ltb_spec (Go.len s) (l + o)); [|f_equal; lia].
      rewrite !take_ge; [done|rewrite length_drop..];
        unfold Go.len in *; lia. }
    rewrite Ht.
    destruct v as [st ist es ast ch ic sz hp]; simpl in *.
    destruct (Z.ltb_spec MaxStackSize (sz - 1 - 1 - 1 + 1)); [lia|].
    unfold replaced. simpl. do 2 f_equal. lia.
  - destruct (Z.ltb_spec (l + o) (2 ^ 63)); [lia|].
    destruct (Z.ltb_spec (Go.len s) (l + o - 2 ^ 64)); [lia|].
    rewrite goSlice_panic by lia.
    rewrite (bind_Panic _ _ _ sliceOutOfRange _ eq_refl). eauto.
Qed.

(** X22: with a length [l] that is at most the length of the string, LEFT
    pushes the first [l] bytes of the string and RIGHT its last [l]
    bytes. *)
Theorem LEFT_RIGHT_in_range ctx_ip parameter v lit sit lz s rest :
  estack v = lit :: sit :: rest ->
  BigInt lit = Val lz -> Bytes sit = Val s ->
  0 <= Go.Int64 lz <= Go.len s ->
  size v <= MaxStackSize ->
  execute crypto ctx_ip LEFT parameter v =
    Returned
      (replaced v (ByteArrayItem (take (Z.to_nat (Go.Int64 lz)) s)) rest
         (size v - 1)) None /\
  execute crypto ctx_ip RIGHT parameter v =
    Returned
      (replaced v
         (ByteArrayItem (drop (length s - Z.to_nat (Go.Int64 lz)) s)) rest
         (size v - 1)) None.
Proof.
  intros He Hl Hs Hl0 Hsz. set (l := Go.Int64 lz) in *.
  unfold execute.
  change (dispatch crypto LEFT parameter) with opLEFT.
  change (dispatch crypto RIGHT parameter) with opRIGHT.
  unfold opLEFT, opRIGHT.
  rewrite !(pop_BigInt lit lz (sit :: rest)) by done. fold l.
  destruct (Z.ltb_spec l 0); [lia|].
  rewrite !(pop_Bytes sit s rest) by done.
  destruct (Z.ltb_spec (Go.len s) l); [lia|].
  rewrite !goSlice_ok by lia.
  rewrite (bind_Ok _ _ _ (Go.slice s 0 l) _ eq_refl).
  rewrite (bind_Ok _ _ _ (Go.slice s (Go.len s - l) (Go.len s)) _ eq_refl).
  rewrite !PushVal_scalar by done.
  assert (H1 : Go.slice s 0 l = take (Z.to_nat l) s).
  { rewrite slice_take_drop. simpl. f_equal. lia. }
  assert (H2 : Go.slice s (Go.len s - l) (Go.len s) =
               drop (length s - Z.to_nat l) s).
  { rewrite slice_take_drop.
    replace (Z.to_nat (Go.len s - l)) with (length s - Z.to_nat l)%nat
      by (unfold Go.len in *; lia).
    apply take_ge. rewrite length_drop. unfold Go.len in *. lia. }
  rewrite H1, H2.
  destruct v as [st ist es ast ch ic sz hp]; simpl in *.
  destruct (Z.ltb_spec MaxStackSize (sz - 1 - 1 + 1)); [lia|].
  unfold replaced. simpl. split; do 2 f_equal; lia.
Qed.

(** An error of [Step] comes with the fault state, and a step that
    returns without one leaves the fault flag as the machine had it or
    halts the machine. *)
Lemma Step_error v v' e :
  Step crypto v = Returned v' (Some e) -> HasFailed v' = true.
Proof.
  unfold Step. destruct (istack v) as [|ctx rest]; [done|].
  destruct (Next ctx) as [[[[ctx' op] param] [msg|]]|]; [| |done].
  - by intros [= <- _].
  - unfold execute.
    destruct (dispatch crypto op param _) as [[] v1|msg v1|]; [| |done].
    + destruct (MaxStackSize <? size v1); [|done]. by intros [= <- _].
    + by intros [= <- _].
Qed.

Lemma runLoop_result fuel : forall v, runResult (runLoop crypto fuel v).
Proof.
  induction fuel as [|fuel IH]; intros v; [done|].
  simpl.
  set (v0 := match istack v with
             | [] => v
             | ctx :: _ =>
                 if atBreakPoint ctx
                 then setState (Z.lor (state v) breakState) v else v
             end).
  clearbody v0.
  destruct (HasFlag (state v0) faultState) eqn:Hf.
  { simpl. unfold HasFailed. rewrite Hf. split; [|done].
    split; [done|]. intros _. by eexists. }
  destruct (HasFlag (state v0) haltState || HasFlag (state v0) breakState)
    eqn:Hh.
  { simpl. unfold HasFailed, HasHalted. rewrite Hf. split.
    - split; [by intros [? ?]|done].
    - intros _. by apply orb_prop in Hh. }
  destruct (state v0 =? noneState).
  - destruct (Step crypto v0) as [v1 [e1|]| | |] eqn:Hs;
      [|apply IH|done..].
    simpl. rewrite (Step_error _ _ _ Hs). split; [|done].
    split; [done|]. intros _. by eexists.
  - simpl. split; [|done]. split; [done|]. intros _. by eexists.
Qed.

(** X10: [Run] returns an error exactly when it leaves the machine in the
    fault state, and when it returns without an error the machine has
    halted or stands at a break-point. *)
Theorem Run_error_iff_failed fuel v : runResult (Run crypto fuel v).
Proof.
  unfold Run.
  destruct (negb (Ready v)).
  { split; [|done]. split; [done|]. intros _. by eexists. }
  destruct (HasFlag (state v) faultState) eqn:Hf.
  { simpl. unfold HasFailed. rewrite Hf. split; [|done].
    split; [done|]. intros _. by eexists. }
  apply (runLoop_result fuel (setState noneState v)).
Qed.

End StackFacts.

Section StackExamples.

Import vm.

Lemma afterSteps_reachable n opcodes :
  steps exampleCurve n (load (makeProgram opcodes)) =
    Some (afterSteps n opcodes) ->
  reachable exampleCurve (afterSteps n opcodes).
Proof.
  intros E. eapply steps_reachable; [apply reach_load | exact E].
Defined.

(** X1 on an array of two elements: it moves to the alt stack and back. *)
Lemma TOALTSTACK_FROMALTSTACK_witness :
  exists v1,
    execute exampleCurve 2 TOALTSTACK [] (afterSteps 2 [PUSH2; NEWARRAY]) =
      Returned v1 None /\
    estack v1 = [] /\ astack v1 = [ArrayItem 0%nat] /\ size v1 = 3 /\
    execute exampleCurve 3 FROMALTSTACK [] v1 =
      Returned (afterSteps 2 [PUSH2; NEWARRAY]) None.
Proof.
  destruct (TOALTSTACK_FROMALTSTACK exampleCurve 2 3 [] []
              (afterSteps 2 [PUSH2; NEWARRAY]) (ArrayItem 0%nat) [])
    as (v1 & E1 & He & Ha & Hs & E2);
    [apply afterSteps_reachable; by vm_compute | by vm_compute ..|].
  exists v1. split; [exact E1|]. split; [exact He|]. split; [exact Ha|].
  split; [exact Hs | exact E2].
Defined.

(** X2 on the same array: the copy counts for one item, not for three. *)
Lemma DUP_DROP_witness :
  exists v1,
    execute exampleCurve 2 DUP [] (afterSteps 2 [PUSH2; NEWARRAY]) =
      Returned v1 None /\
    estack v1 = [ArrayItem 0%nat; ArrayItem 0%nat] /\
    size v1 = 3 + 1 /\
    execute exampleCurve 3 DROP [] v1 =
      Returned (afterSteps 2 [PUSH2; NEWARRAY]) None.
Proof.
  destruct (DUP_DROP exampleCurve 2 3 [] [] (afterSteps 2 [PUSH2; NEWARRAY]))
    as [H _]; [apply afterSteps_reachable; by vm_compute|].
  apply (H (ArrayItem 0%nat) []); by vm_compute.
Defined.

(** X3 on an integer above an array. *)
Lemma SWAP_SWAP_witness :
  exists v1,
    execute exampleCurve 3 SWAP [] (afterSteps 3 [PUSH2; NEWARRAY; PUSH1]) =
      Returned v1 None /\
    estack v1 = [ArrayItem 0%nat; BigIntegerItem (Go.NewInt 1)] /\
    size v1 = 4 /\
    execute exampleCurve 4 SWAP [] v1 =
      Returned (afterSteps 3 [PUSH2; NEWARRAY; PUSH1]) None.
Proof.
  destruct (SWAP_SWAP exampleCurve 3 4 [] []
              (afterSteps 3 [PUSH2; NEWARRAY; PUSH1]))
    as [H _]; [apply afterSteps_reachable; by vm_compute|].
  apply (H (BigIntegerItem (Go.NewInt 1)) (ArrayItem 0%nat) []); by vm_compute.
Defined.

(** X9 on the machine of TestCATGood: the strings abc and def. *)
Lemma CAT_concatenates_witness :
  exists v' rest',
    execute exampleCurve 0 CAT []
        (pushed [ByteArrayItem [x64; x65; x66];
                 ByteArrayItem [x61; x62; x63]]) =
      Returned v' None /\
    estack v' = ByteArrayItem ([x61; x62; x63] ++ [x64; x65; x66]) :: rest' /\
    length rest' = 0%nat /\
    size v' = 2 - 1.
Proof.
  destruct (CAT_concatenates exampleCurve 0 []
              (pushed [ByteArrayItem [x64; x65; x66];
                       ByteArrayItem [x61; x62; x63]])
              (ByteArrayItem [x61; x62; x63]) (ByteArrayItem [x64; x65; x66])
              [x61; x62; x63] [x64; x65; x66] [])
    as [H _]; [reflexivity | reflexivity | reflexivity | by vm_compute |].
  destruct H as (v' & rest' & He & Hs & Hl & Hn & _); [by vm_compute|].
  exists v', rest'. split; [exact He|]. split; [exact Hs|].
  split; [exact Hl | exact Hn].
Defined.

(** X21 on the string abcdef: two bytes from the offset 1, and the fault
    for the largest length. *)
Lemma SUBSTR_in_range_witness :
  execute exampleCurve 0 SUBSTR []
      (pushed [BigIntegerItem (Go.NewInt 2); BigIntegerItem (Go.NewInt 1);
               ByteArrayItem abcdef]) =
    Returned
      (replaced
         (pushed [BigIntegerItem (Go.NewInt 2); BigIntegerItem (Go.NewInt 1);
                  ByteArrayItem abcdef])
         (ByteArrayItem [x62; x63]) [] 1) None /\
  faults
    (execute exampleCurve 0 SUBSTR []
       (pushed [BigIntegerItem (Go.NewInt (2 ^ 63 - 1));
                BigIntegerItem (Go.NewInt 1); ByteArrayItem abcdef])).
Proof.
  split.
  - destruct (SUBSTR_in_range exampleCurve 0 []
                (pushed [BigIntegerItem (Go.NewInt 2);
                         BigIntegerItem (Go.NewInt 1); ByteArrayItem abcdef])
                (BigIntegerItem (Go.NewInt 2)) (BigIntegerItem (Go.NewInt 1))
                (ByteArrayItem abcdef) 2 1 abcdef []) as [H _];
      [reflexivity | reflexivity | reflexivity | reflexivity
      | by vm_compute | by vm_compute | by vm_compute |].
    apply H. by vm_compute.
  - destruct (SUBSTR_in_range exampleCurve 0 []
                (pushed [BigIntegerItem (Go.NewInt (2 ^ 63 - 1));
                         BigIntegerItem (Go.NewInt 1); ByteArrayItem abcdef])
                (BigIntegerItem (Go.NewInt (2 ^ 63 - 1)))
                (BigIntegerItem (Go.NewInt 1))
                (ByteArrayItem abcdef) (2 ^ 63 - 1) 1 abcdef []) as [_ H];
      [reflexivity | reflexivity | reflexivity | reflexivity
      | by vm_compute | by vm_compute | by vm_compute |].
    apply H. by vm_compute.
Defined.

(** X22 on the string abcdef and the length 2. *)
Lemma LEFT_RIGHT_in_range_witness :
  execute exampleCurve 0 LEFT []
      (pushed [BigIntegerItem (Go.NewInt 2); ByteArrayItem abcdef]) =
    Returned
      (replaced (pushed [BigIntegerItem (Go.NewInt 2); ByteArrayItem abcdef])
         (ByteArrayItem [x61; x62]) [] 1) None /\
  execute exampleCurve 0 RIGHT []
      (pushed [BigIntegerItem (Go.NewInt 2); ByteArrayItem abcdef]) =
    Returned
      (replaced (pushed [BigIntegerItem (Go.NewInt 2); ByteArrayItem abcdef])
         (ByteArrayItem [x65; x66]) [] 1) None.
Proof.
  apply (LEFT_RIGHT_in_range exampleCurve 0 []
           (pushed [BigIntegerItem (Go.NewInt 2); ByteArrayItem abcdef])
           (BigIntegerItem (Go.NewInt 2)) (ByteArrayItem abcdef) 2 abcdef []);
    [reflexivity | reflexivity | reflexivity | by vm_compute
    | by vm_compute].
Defined.

End StackExamples.

(** * Properties of the integer cases *)

Section ArithFacts.

Import vm.

Lemma fits_BitLen a : fits a <-> Go.BitLen a <= MaxBigIntegerSizeBits.
Proof.
  unfold fits, Go.BitLen, MaxBigIntegerSizeBits.
  destruct (Z.eqb_spec a 0) as [->|Hne]; [simpl; lia|].
  rewrite (Z.log2_lt_pow2 (Z.abs a) (32 * 8)) by lia. lia.
Qed.

Lemma checkBigIntSize_fits a : fits a -> checkBigIntSize a = ret tt.
Proof.
  intros H%fits_BitLen. unfold checkBigIntSize.
  destruct (Z.ltb_spec MaxBigIntegerSizeBits (Go.BitLen a)); [lia|done].
Qed.

Lemma checkBigIntSize_big a :
  ~ fits a -> checkBigIntSize a = panic "big integer is too big".
Proof.
  intros H. unfold checkBigIntSize.
  destruct (Z.ltb_spec MaxBigIntegerSizeBits (Go.BitLen a)); [done|].
  destruct H. by apply fits_BitLen.
Qed.

Lemma check_fits {B} a (k : unit -> M B) v :
  fits a -> bind (checkBigIntSize a) k v = k tt v.
Proof. intros H. by rewrite checkBigIntSize_fits. Qed.

Lemma check_big {B} a (k : unit -> M B) v :
  ~ fits a -> bind (checkBigIntSize a) k v = Panic "big integer is too big" v.
Proof. intros H. by rewrite checkBigIntSize_big. Qed.

Lemma faults_panic ctx_ip op (case : M unit) v msg v' :
  case v = Panic msg v' -> faults (executeCase ctx_ip op case v).
Proof. intros E. unfold faults, executeCase. rewrite E. eauto. Qed.

(** The machine after two operands were replaced by one scalar. *)
Lemma replaced_two v (item a b : StackItem) rest :
  estack v = a :: b :: rest -> compound item = None ->
  size v <= MaxStackSize ->
  forall ctx_ip op (case : M unit),
    case v =
      PushVal item
        (setStack Evaluation rest (size v - 1 - 1, itemCount v)
           (setStack Evaluation (b :: rest) (size v - 1, itemCount v) v)) ->
    executeCase ctx_ip op case v =
      Returned (replaced v item rest (size v - 1)) None.
Proof.
  intros He Hc Hsz ctx_ip op case E. unfold executeCase. rewrite E.
  rewrite PushVal_scalar by done.
  destruct v as [st ist es ast ch ic sz hp]; simpl in *.
  destruct (Z.ltb_spec MaxStackSize (sz - 1 - 1 + 1)); [lia|].
  unfold replaced. simpl. do 2 f_equal. lia.
Qed.

(** Two operands that read as integers are popped. *)
Lemma pop_two {B} a b x y rest (k : Z -> Z -> M B) v :
  estack v = a :: b :: rest -> BigInt a = Val x -> BigInt b = Val y ->
  (let* ea := Pop Evaluation in
   let* x := elemBigInt ea in
   let* eb := Pop Evaluation in
   let* y := elemBigInt eb in
   k x y) v =
  k x y (setStack Evaluation rest (size v - 1 - 1, itemCount v)
           (setStack Evaluation (b :: rest) (size v - 1, itemCount v) v)).
Proof.
  intros He Ha Hb.
  rewrite (pop_BigInt a x (b :: rest)) by done.
  by rewrite (pop_BigInt b y rest).
Qed.

(** The same with the size checks of the arithmetic cases. *)
Lemma pop_two_checked {B} a b x y rest (k : Z -> Z -> M B) v :
  estack v = a :: b :: rest -> BigInt a = Val x -> BigInt b = Val y ->
  (let* ea := Pop Evaluation in
   let* x := elemBigInt ea in
   let* _ := checkBigIntSize x in
   let* eb := Pop Evaluation in
   let* y := elemBigInt eb in
   let* _ := checkBigIntSize y in
   k x y) v =
  if decide (fits x) then
    if decide (fits y) then
      k x y (setStack Evaluation rest (size v - 1 - 1, itemCount v)
               (setStack Evaluation (b :: rest) (size v - 1, itemCount v) v))
    else Panic "big integer is too big"
           (setStack Evaluation rest (size v - 1 - 1, itemCount v)
              (setStack Evaluation (b :: rest) (size v - 1, itemCount v) v))
  else Panic "big integer is too big"
         (setStack Evaluation (b :: rest) (size v - 1, itemCount v) v).
Proof.
  intros He Ha Hb.
  rewrite (pop_BigInt a x (b :: rest)) by done.
  destruct (decide (fits x)) as [Hx|Hx]; [|by rewrite check_big].
  rewrite check_fits by done.
  rewrite (pop_BigInt b y rest) by done.
  destruct (decide (fits y)) as [Hy|Hy]; [|by rewrite check_big].
  by rewrite check_fits.
Qed.

Lemma exactOrFault_intro (case : M unit) v a b x y r rest :
  estack v = a :: b :: rest ->
  size v <= MaxStackSize ->
  (case v =
   if decide (fits y) then
     if decide (fits x) then
       (let* _ := checkBigIntSize (Go.value r) in
        PushVal (BigIntegerItem r))
         (setStack Evaluation rest (size v - 1 - 1, itemCount v)
            (setStack Evaluation (b :: rest) (size v - 1, itemCount v) v))
     else Panic "big integer is too big"
            (setStack Evaluation rest (size v - 1 - 1, itemCount v)
               (setStack Evaluation (b :: rest) (size v - 1, itemCount v) v))
   else Panic "big integer is too big"
          (setStack Evaluation (b :: rest) (size v - 1, itemCount v) v)) ->
  exactOrFault case v rest x y r.
Proof.
  intros He Hsz E ctx_ip op. split.
  - intros (Hx & Hy & Hr).
    apply (replaced_two v (BigIntegerItem r) a b rest); [done..|].
    rewrite E, !decide_True by done. by rewrite check_fits.
  - intros Hn. unfold faults, executeCase. rewrite E.
    destruct (decide (fits y)) as [Hy|Hy]; [|eauto].
    destruct (decide (fits x)) as [Hx|Hx]; [|eauto].
    rewrite check_big; [eauto|]. intros Hr. by apply Hn.
Qed.

Lemma value_newAdd x y : Go.value (newAdd x y) = x + y.
Proof.
  unfold newAdd.
  destruct (Z.eqb_spec x 0) as [->|]; [|apply value_allocated].
  destruct (Z.eqb_spec y 0) as [->|]; [done|apply value_allocated].
Qed.

Lemma value_newSub x y : Go.value (newSub x y) = x - y.
Proof.
  unfold newSub.
  destruct (Z.eqb_spec x 0) as [->|]; [|apply value_allocated].
  destruct (Z.eqb_spec y 0) as [->|]; [done|apply value_allocated].
Qed.

Lemma value_newMul x y : Go.value (newMul x y) = x * y.
Proof. apply value_NewInt. Qed.

Lemma newAdd_comm x y : newAdd x y = newAdd y x.
Proof. unfold newAdd. by rewrite andb_comm, Z.add_comm. Qed.

Lemma newMul_comm x y : newMul x y = newMul y x.
Proof. unfold newMul. by rewrite Z.mul_comm. Qed.

(** X4: ADD, SUB and MUL on two operands that read as the integers [x]
    (below) and [y] (top) push exactly [x + y], [x - y] and [x * y], in
    the new integer that [Add], [Sub] or [Mul] leaves, when both operands
    and the result are below [2^256] in absolute value, and put the
    machine into the fault state otherwise. *)
Theorem ADD_SUB_MUL_exact v ix iy x y rest :
  estack v = iy :: ix :: rest ->
  BigInt ix = Val x -> BigInt iy = Val y ->
  size v <= MaxStackSize ->
  exactOrFault opADD v rest x y (newAdd x y) /\
  exactOrFault opSUB v rest x y (newSub x y) /\
  exactOrFault opMUL v rest x y (newMul x y) /\
  Go.value (newAdd x y) = x + y /\
  Go.value (newSub x y) = x - y /\
  Go.value (newMul x y) = x * y.
Proof.
  intros He Hx Hy Hsz.
  split; [|split; [|split; [|split; [|split]]]].
  - apply (exactOrFault_intro _ v iy ix); [done..|].
    unfold opADD.
    rewrite (pop_two_checked iy ix y x rest) by done.
    by rewrite (newAdd_comm y x).
  - apply (exactOrFault_intro _ v iy ix); [done..|].
    unfold opSUB.
    by rewrite (pop_two_checked iy ix y x rest).
  - apply (exactOrFault_intro _ v iy ix); [done..|].
    unfold opMUL.
    rewrite (pop_two_checked iy ix y x rest) by done.
    by rewrite (newMul_comm y x).
  - apply value_newAdd.
  - apply value_newSub.
  - apply value_newMul.
Qed.

(** One operand replaced by a scalar. *)
Lemma replaced_one v (item a : StackItem) rest :
  estack v = a :: rest -> compound item = None ->
  size v <= MaxStackSize ->
  forall ctx_ip op (case : M unit),
    case v =
      PushVal item
        (setStack Evaluation rest (size v - 1, itemCount v) v) ->
    executeCase ctx_ip op case v =
      Returned (replaced v item rest (size v)) None.
Proof.
  intros He Hc Hsz ctx_ip op case E. unfold executeCase. rewrite E.
  rewrite PushVal_scalar by done.
  destruct v as [st ist es ast ch ic sz hp]; simpl in *.
  destruct (Z.ltb_spec MaxStackSize (sz - 1 + 1)); [lia|].
  unfold replaced. simpl. do 2 f_equal. lia.
Qed.

Lemma INC_step ctx_ip op v ix x rest :
  estack v = ix :: rest -> BigInt ix = Val x -> size v <= MaxStackSize ->
  fits (x + 1) ->
  executeCase ctx_ip op opINC v =
    Returned (replaced v (BigIntegerItem (newAdd x 1)) rest (size v)) None.
Proof.
  intros He Hx Hsz Hf.
  apply (replaced_one v _ ix rest); [done..|].
  unfold opINC. rewrite (pop_BigInt ix x rest) by done.
  rewrite check_fits; [done|]. by rewrite value_newAdd.
Qed.

Lemma DEC_step ctx_ip op v ix x rest :
  estack v = ix :: rest -> BigInt ix = Val x -> size v <= MaxStackSize ->
  fits (x - 1) ->
  executeCase ctx_ip op opDEC v =
    Returned (replaced v (BigIntegerItem (newSub x 1)) rest (size v)) None.
Proof.
  intros He Hx Hsz Hf.
  apply (replaced_one v _ ix rest); [done..|].
  unfold opDEC. rewrite (pop_BigInt ix x rest) by done.
  rewrite check_fits; [done|]. by rewrite value_newSub.
Qed.

Lemma newSub_newAdd x : newSub (x + 1) 1 = Go.allocated x.
Proof. unfold newSub. rewrite andb_false_r. f_equal. lia. Qed.

Lemma newAdd_newSub x : newAdd (x - 1) 1 = Go.allocated x.
Proof. unfold newAdd. rewrite andb_false_r. f_equal. lia. Qed.

(** X5: INC and DEC are inverse to each other on the value of an integer
    item, as long as the value and the result are below [2^256] in
    absolute value: the second instruction leaves the machine as it was
    except for the integer on top, which is a new one with the value that
    the first instruction found and an allocated magnitude.  That is the
    integer that was there when the value is not zero, and the machine is
    then restored exactly; a zero comes back with an allocated magnitude,
    which the zero of [big.NewInt] does not have.  When the result is not
    below the bound the instruction faults. *)
Theorem INC_DEC_inverse v i rest :
  estack v = BigIntegerItem i :: rest ->
  size v <= MaxStackSize ->
  let x := Go.value i in
  let back := replaced v (BigIntegerItem (Go.allocated x)) rest (size v) in
  forall ip1 op1 ip2 op2,
    (fits x -> fits (x + 1) ->
     exists v1,
       executeCase ip1 op1 opINC v = Returned v1 None /\
       estack v1 = BigIntegerItem (newAdd x 1) :: rest /\
       executeCase ip2 op2 opDEC v1 = Returned back None) /\
    (fits x -> fits (x - 1) ->
     exists v1,
       executeCase ip1 op1 opDEC v = Returned v1 None /\
       estack v1 = BigIntegerItem (newSub x 1) :: rest /\
       executeCase ip2 op2 opINC v1 = Returned back None) /\
    Go.value (newAdd x 1) = x + 1 /\
    Go.value (newSub x 1) = x - 1 /\
    Go.value (Go.allocated x) = x /\
    (x <> 0 -> back = v) /\
    (i = Go.NewInt 0 -> back <> v) /\
    (~ fits (x + 1) -> faults (executeCase ip1 op1 opINC v)) /\
    (~ fits (x - 1) -> faults (executeCase ip1 op1 opDEC v)).
Proof.
  intros He Hsz x back ip1 op1 ip2 op2.
  assert (Hi : BigInt (BigIntegerItem i) = Val x) by done.
  split; [|split; [|split; [|split; [|split; [|split; [|split; [|split]]]]]]].
  - intros Hx Hx1. eexists.
    split; [by apply (INC_step _ _ v (BigIntegerItem i) x rest)|].
    split; [done|].
    rewrite (DEC_step _ _ _ (BigIntegerItem (newAdd x 1)) (x + 1) rest);
      [|done|simpl; by rewrite value_newAdd|done|by rewrite Z.add_simpl_r].
    by rewrite newSub_newAdd.
  - intros Hx Hx1. eexists.
    split; [by apply (DEC_step _ _ v (BigIntegerItem i) x rest)|].
    split; [done|].
    rewrite (INC_step _ _ _ (BigIntegerItem (newSub x 1)) (x - 1) rest);
      [|done|simpl; by rewrite value_newSub|done|by rewrite Z.sub_simpl_r].
    by rewrite newAdd_newSub.
  - apply value_newAdd.
  - apply value_newSub.
  - apply value_allocated.
  - intros Hx0.
    assert (Go.allocated x = i) as Ei.
    { apply Int_nonzero_eq; rewrite value_allocated; done. }
    unfold back. rewrite Ei.
    destruct v as [st ist es ast ch ic sz hp]; simpl in *.
    unfold replaced. simpl. by rewrite He.
  - intros -> Hb. apply (f_equal estack) in Hb. unfold back in Hb.
    simpl in Hb. rewrite He in Hb. discriminate Hb.
  - intros Hn. eapply faults_panic. unfold opINC.
    rewrite (pop_BigInt _ x rest) by done.
    rewrite check_big; [done|]. by rewrite value_newAdd.
  - intros Hn. eapply faults_panic. unfold opDEC.
    rewrite (pop_BigInt _ x rest) by done.
    rewrite check_big; [done|]. by rewrite value_newSub.
Qed.

Lemma bigDiv_bigMod x y :
  y <> 0 ->
  x = y * bigDiv x y + bigMod x y /\ 0 <= bigMod x y < Z.abs y.
Proof.
  intros Hy. unfold bigDiv, bigMod.
  pose proof (Z.div_mod x (Z.abs y)) as Hd.
  pose proof (Z.mod_pos_bound x (Z.abs y)) as Hm.
  destruct (Z.lt_trichotomy y 0) as [Hlt|[->|Hgt]]; [|done|].
  - rewrite Z.sgn_neg by done. rewrite Z.abs_neq in * by lia. lia.
  - rewrite Z.sgn_pos by done. rewrite Z.abs_eq in * by lia. lia.
Qed.

Lemma bigDiv_fits x y : y <> 0 -> fits x -> fits (bigDiv x y).
Proof.
  unfold fits, bigDiv. intros Hy Hx.
  assert (Z.abs (Z.sgn y * (x / Z.abs y)) <= Z.abs x); [|lia].
  pose proof (Z.div_mod x (Z.abs y)) as Hd.
  pose proof (Z.mod_pos_bound x (Z.abs y)) as Hm.
  set (q := x / Z.abs y) in *. set (r := x mod Z.abs y) in *.
  destruct (Z.lt_trichotomy y 0) as [Hlt|[->|Hgt]]; [|done|].
  - rewrite Z.sgn_neg by done. nia.
  - rewrite Z.sgn_pos by done. nia.
Qed.

Lemma bigMod_fits x y : y <> 0 -> fits y -> fits (bigMod x y).
Proof.
  unfold fits. intros Hy Hf.
  destruct (bigDiv_bigMod x y Hy) as [_ Hr]. lia.
Qed.

Lemma value_newDiv x y : Go.value (newDiv x y) = bigDiv x y.
Proof. apply value_NewInt. Qed.

Lemma value_newMod x y : Go.value (newMod x y) = bigMod x y.
Proof.
  unfold newMod.
  destruct (Z.eqb_spec (bigMod x y) 0) as [E|]; [|apply value_allocated].
  destruct ((x =? 0) || (Z.abs y <? 2 ^ 64)); simpl;
    [by rewrite E | apply value_allocated].
Qed.

(** X6: DIV and MOD on a dividend that reads as [x] (below) and a divisor
    that reads as [y] (top), both below [2^256] in absolute value, push the
    quotient [q] and the remainder [r] of the Euclidean division, in the
    new integers that [Div] and [Mod] leave: [x = y * q + r] with
    [0 <= r < |y|], whatever the signs; both results are below [2^256]
    again.  A divisor that reads as zero puts the machine into the fault
    state. *)
Theorem DIV_MOD_euclidean v ix iy x y rest :
  estack v = iy :: ix :: rest ->
  BigInt ix = Val x -> BigInt iy = Val y ->
  fits x -> fits y ->
  size v <= MaxStackSize ->
  (y <> 0 ->
   exists q r,
     (forall ctx_ip op,
        executeCase ctx_ip op opDIV v =
          Returned (replaced v (BigIntegerItem (newDiv x y)) rest
                      (size v - 1)) None) /\
     (forall ctx_ip op,
        executeCase ctx_ip op opMOD v =
          Returned (replaced v (BigIntegerItem (newMod x y)) rest
                      (size v - 1)) None) /\
     Go.value (newDiv x y) = q /\ Go.value (newMod x y) = r /\
     x = y * q + r /\ 0 <= r < Z.abs y /\ fits q /\ fits r) /\
  (y = 0 ->
   forall ctx_ip op,
     faults (executeCase ctx_ip op opDIV v) /\
     faults (executeCase ctx_ip op opMOD v)).
Proof.
  intros He Hx Hy Hfx Hfy Hsz.
  assert (Ed : forall (k : Z -> Z -> M unit),
    (let* eb := Pop Evaluation in
     let* b := elemBigInt eb in
     let* _ := checkBigIntSize b in
     let* ea := Pop Evaluation in
     let* a := elemBigInt ea in
     let* _ := checkBigIntSize a in
     k b a) v =
    k y x (setStack Evaluation rest (size v - 1 - 1, itemCount v)
             (setStack Evaluation (ix :: rest)
                (size v - 1, itemCount v) v))).
  { intros k. rewrite (pop_two_checked iy ix y x rest) by done.
    by rewrite !decide_True. }
  split.
  - intros Hy0. exists (bigDiv x y), (bigMod x y).
    destruct (bigDiv_bigMod x y Hy0) as [Heq Hr].
    split; [|split; [|split; [|split; [|split; [done|split; [done|split]]]]]].
    + intros ctx_ip op.
      apply (replaced_two v _ iy ix rest); [done..|].
      unfold opDIV. rewrite Ed.
      by destruct (Z.eqb_spec y 0).
    + intros ctx_ip op.
      apply (replaced_two v _ iy ix rest); [done..|].
      unfold opMOD. rewrite Ed.
      by destruct (Z.eqb_spec y 0).
    + apply value_newDiv.
    + apply value_newMod.
    + by apply bigDiv_fits.
    + by apply bigMod_fits.
  - intros -> ctx_ip op. split; eapply faults_panic.
    + unfold opDIV. by rewrite Ed.
    + unfold opMOD. by rewrite Ed.
Qed.

Lemma Cmp_cases a b :
  (Cmp a b =? -1) = (a <? b) /\ (Cmp a b =? 1) = (b <? a) /\
  (Cmp a b =? 0) = (a =? b) /\ (Cmp a b <=? 0) = (a <=? b) /\
  (0 <=? Cmp a b) = (b <=? a).
Proof.
  unfold Cmp. destruct (Z.compare_spec a b); repeat split; simpl; lia.
Qed.

Lemma pushesBool_two (case : M unit) v a b rest r :
  estack v = a :: b :: rest ->
  size v <= MaxStackSize ->
  case v =
    PushVal (BoolItem r)
      (setStack Evaluation rest (size v - 1 - 1, itemCount v)
         (setStack Evaluation (b :: rest) (size v - 1, itemCount v) v)) ->
  pushesBool case v rest r (size v - 1).
Proof.
  intros He Hsz E ctx_ip op. by apply (replaced_two v _ a b rest).
Qed.

(** X7: the comparisons compare the integer readings of their operands,
    whatever the variants of the items, the lower operand [x] on the left
    and the top operand [y] on the right: LT pushes [x < y], GT [x > y],
    LTE [x <= y], GTE [x >= y], NUMEQUAL [x = y] and NUMNOTEQUAL [x <> y]. *)
Theorem comparisons_of_readings v ix iy x y rest :
  estack v = iy :: ix :: rest ->
  BigInt ix = Val x -> BigInt iy = Val y ->
  size v <= MaxStackSize ->
  pushesBool opLT v rest (x <? y) (size v - 1) /\
  pushesBool opGT v rest (y <? x) (size v - 1) /\
  pushesBool opLTE v rest (x <=? y) (size v - 1) /\
  pushesBool opGTE v rest (y <=? x) (size v - 1) /\
  pushesBool opNUMEQUAL v rest (x =? y) (size v - 1) /\
  pushesBool opNUMNOTEQUAL v rest (negb (x =? y)) (size v - 1).
Proof.
  intros He Hx Hy Hsz.
  destruct (Cmp_cases x y) as (Hlt & Hgt & Heq & Hle & Hge).
  repeat split; apply (pushesBool_two _ v iy ix); try done.
  - unfold opLT. by rewrite (pop_two iy ix y x rest), Hlt.
  - unfold opGT. by rewrite (pop_two iy ix y x rest), Hgt.
  - unfold opLTE. by rewrite (pop_two iy ix y x rest), Hle.
  - unfold opGTE. by rewrite (pop_two iy ix y x rest), Hge.
  - unfold opNUMEQUAL. by rewrite (pop_two iy ix y x rest), Heq.
  - unfold opNUMNOTEQUAL. by rewrite (pop_two iy ix y x rest), Heq.
Qed.

(** Popping an operand as the integer that it holds or makes. *)
Lemma pop_Integer {B} item z rest (k : Go.Int -> M B) v :
  estack v = item :: rest -> Integer item = Val z ->
  bind (Pop Evaluation) (fun e => bind (elemInteger e) k) v =
    k z (setStack Evaluation rest (size v - 1, itemCount v) v).
Proof.
  intros He Hz.
  assert (Hc : compound item = None) by (by destruct item).
  rewrite (bind_Ok _ _ _ _ _ (Pop_scalar _ _ _ He Hc)).
  unfold bind, elemInteger, try. rewrite Hz. reflexivity.
Qed.

Lemma pop_two_integers {B} a b x y rest (k : Go.Int -> Go.Int -> M B) v :
  estack v = a :: b :: rest -> Integer a = Val x -> Integer b = Val y ->
  (let* ea := Pop Evaluation in
   let* x := elemInteger ea in
   let* eb := Pop Evaluation in
   let* y := elemInteger eb in
   k x y) v =
  k x y (setStack Evaluation rest (size v - 1 - 1, itemCount v)
           (setStack Evaluation (b :: rest) (size v - 1, itemCount v) v)).
Proof.
  intros He Ha Hb.
  rewrite (pop_Integer a x (b :: rest)) by done.
  by rewrite (pop_Integer b y rest).
Qed.

(** An item that reads as a number holds or makes an integer that stands
    for this number. *)
Lemma BigInt_Integer item z :
  BigInt item = Val z -> exists a, Integer item = Val a /\ Go.value a = z.
Proof.
  destruct item as [b|i|bs|p|p|p|h]; simpl; try discriminate;
    intros [= <-]; eexists; (split; [reflexivity|]).
  - by rewrite value_NewInt.
  - done.
  - destruct (decide (bs = [])) as [->|];
      [done | by rewrite value_allocated].
Qed.

(** X8: WITHIN tests the half-open interval: with [x] below the bounds
    [a] and [b] (top) it pushes whether [a <= x < b].  MIN and MAX push
    the smaller and the larger reading of their two operands as an integer
    item: the integer of the operand that has it, the lower operand's when
    the two readings are equal. *)
Theorem WITHIN_MIN_MAX v ix ia ib x a b rest :
  estack v = ib :: ia :: ix :: rest ->
  BigInt ix = Val x -> BigInt ia = Val a -> BigInt ib = Val b ->
  size v <= MaxStackSize ->
  exists ja jb,
    Integer ia = Val ja /\ Integer ib = Val jb /\
    Go.value ja = a /\ Go.value jb = b /\
    Go.value (if b <? a then jb else ja) = Z.min a b /\
    Go.value (if a <? b then jb else ja) = Z.max a b /\
    forall ctx_ip op,
      executeCase ctx_ip op opWITHIN v =
        Returned (replaced v (BoolItem ((a <=? x) && (x <? b))) rest
                    (size v - 2)) None /\
      executeCase ctx_ip op opMIN v =
        Returned (replaced v (BigIntegerItem (if b <? a then jb else ja))
                    (ix :: rest) (size v - 1)) None /\
      executeCase ctx_ip op opMAX v =
        Returned (replaced v (BigIntegerItem (if a <? b then jb else ja))
                    (ix :: rest) (size v - 1)) None.
Proof.
  intros He Hx Ha Hb Hsz.
  destruct (BigInt_Integer ia a Ha) as (ja & Hja & Va).
  destruct (BigInt_Integer ib b Hb) as (jb & Hjb & Vb).
  exists ja, jb. split; [done|]. split; [done|].
  split; [done|]. split; [done|].
  split; [destruct (Z.ltb_spec b a); lia|].
  split; [destruct (Z.ltb_spec a b); lia|].
  intros ctx_ip op.
  destruct (Cmp_cases a x) as (_ & _ & _ & Hle & _).
  destruct (Cmp_cases x b) as (Hlt & _).
  destruct (Cmp_cases a b) as (Hab & Hba & _).
  split; [|split].
  - unfold executeCase, opWITHIN.
    rewrite (pop_BigInt ib b (ia :: ix :: rest)) by done.
    rewrite (pop_BigInt ia a (ix :: rest)) by done.
    rewrite (pop_BigInt ix x rest) by done.
    rewrite PushVal_scalar by done. rewrite Hle, Hlt.
    destruct v as [st ist es ast ch ic sz hp]; simpl in *.
    destruct (Z.ltb_spec MaxStackSize (sz - 1 - 1 - 1 + 1)); [lia|].
    unfold replaced. simpl. do 2 f_equal. lia.
  - apply (replaced_two v _ ib ia (ix :: rest)); [done..|].
    unfold opMIN.
    rewrite (pop_two_integers ib ia jb ja (ix :: rest)) by done.
    by rewrite Va, Vb, Hba.
  - apply (replaced_two v _ ib ia (ix :: rest)); [done..|].
    unfold opMAX.
    rewrite (pop_two_integers ib ia jb ja (ix :: rest)) by done.
    by rewrite Va, Vb, Hab.
Qed.

End ArithFacts.

Section ArithExamples.

Import vm.

(** X4 on the machine of TestAdd, TestSub and TestMul: 4 below 2. *)
Lemma ADD_SUB_MUL_exact_witness :
  exactOrFault opADD fourBelowTwo [] 4 2 (Go.NewInt 6) /\
  exactOrFault opSUB fourBelowTwo [] 4 2 (Go.NewInt 2) /\
  exactOrFault opMUL fourBelowTwo [] 4 2 (Go.NewInt 8).
Proof.
  destruct (ADD_SUB_MUL_exact fourBelowTwo
              (BigIntegerItem (Go.NewInt 4)) (BigIntegerItem (Go.NewInt 2))
              4 2 []) as (Ha & Hs & Hm & _);
    [reflexivity | reflexivity | reflexivity | by vm_compute |].
  split; [exact Ha | split; [exact Hs | exact Hm]].
Defined.

(** X5 on the machine of TestINC: INC makes 2 of 1, and DEC restores the
    machine. *)
Lemma INC_DEC_inverse_witness :
  exists v1,
    executeCase 0 INC opINC (pushed [BigIntegerItem (Go.NewInt 1)]) =
      Returned v1 None /\
    estack v1 = [BigIntegerItem (Go.NewInt 2)] /\
    executeCase 1 DEC opDEC v1 =
      Returned (pushed [BigIntegerItem (Go.NewInt 1)]) None.
Proof.
  destruct (INC_DEC_inverse (pushed [BigIntegerItem (Go.NewInt 1)])
              (Go.NewInt 1) [])
    with (ip1 := 0) (op1 := INC) (ip2 := 1) (op2 := DEC) as [H _];
    [reflexivity | by vm_compute |].
  apply H; by vm_compute.
Defined.

(** X6 at -7 and 2: the quotient is -4 and the remainder 1. *)
Lemma DIV_MOD_euclidean_witness :
  exists q r,
    executeCase 0 DIV opDIV minusSevenBelowTwo =
      Returned (replaced minusSevenBelowTwo (BigIntegerItem (Go.NewInt q))
                  [] 1) None /\
    executeCase 0 MOD opMOD minusSevenBelowTwo =
      Returned (replaced minusSevenBelowTwo (BigIntegerItem (Go.NewInt r))
                  [] 1) None /\
    -7 = 2 * q + r /\ 0 <= r < 2.
Proof.
  destruct (DIV_MOD_euclidean minusSevenBelowTwo
              (BigIntegerItem (Go.NewInt (-7))) (BigIntegerItem (Go.NewInt 2))
              (-7) 2 []) as [H _];
    [reflexivity | reflexivity | reflexivity | by vm_compute ..|].
  destruct H as (q & r & Hd & Hm & Hq & Hr & Heq & Hb & _); [lia|].
  exists q, r. subst q r. split; [exact (Hd 0 DIV)|].
  split; [exact (Hm 0 MOD)|]. split; [exact Heq | exact Hb].
Defined.

(** X7 on the machine of TestLT: 4 below 3. *)
Lemma comparisons_of_readings_witness :
  pushesBool opLT
    (pushed [BigIntegerItem (Go.NewInt 3); BigIntegerItem (Go.NewInt 4)])
    [] false 1 /\
  pushesBool opGT
    (pushed [BigIntegerItem (Go.NewInt 3); BigIntegerItem (Go.NewInt 4)])
    [] true 1.
Proof.
  destruct (comparisons_of_readings
              (pushed [BigIntegerItem (Go.NewInt 3);
                       BigIntegerItem (Go.NewInt 4)])
              (BigIntegerItem (Go.NewInt 4)) (BigIntegerItem (Go.NewInt 3))
              4 3 [])
    as (Hlt & Hgt & _);
    [reflexivity | reflexivity | reflexivity | by vm_compute |].
  split; [exact Hlt | exact Hgt].
Defined.

(** X8 at the upper bound: 5 is not within 1 and 5; the smaller of the
    bounds is 1. *)
Lemma WITHIN_MIN_MAX_witness :
  executeCase 0 WITHIN opWITHIN fiveInOneFive =
    Returned (replaced fiveInOneFive (BoolItem false) [] 1) None /\
  executeCase 0 MIN opMIN fiveInOneFive =
    Returned (replaced fiveInOneFive (BigIntegerItem (Go.NewInt 1))
                [BigIntegerItem (Go.NewInt 5)] 2) None.
Proof.
  destruct (WITHIN_MIN_MAX fiveInOneFive
              (BigIntegerItem (Go.NewInt 5)) (BigIntegerItem (Go.NewInt 1))
              (BigIntegerItem (Go.NewInt 5)) 5 1 5 [])
    as (ja & jb & Hja & Hjb & _ & _ & _ & _ & H);
    [reflexivity | reflexivity | reflexivity | reflexivity
    | by vm_compute |].
  injection Hja as <-. injection Hjb as <-.
  split; [exact (proj1 (H 0 WITHIN)) | exact (proj1 (proj2 (H 0 MIN)))].
Defined.

End ArithExamples.

(** * Properties of the public keys *)

Section KeyFacts.

Import keys.

Variable c : Curve.

(** X11: [Less] orders two keys by their X coordinates alone: it returns
    whether the first X is below the second, so of two keys with the same
    X coordinate neither is less than the other, whatever their Y
    coordinates are, nil included. *)
Theorem Less_compares_X_only ks i j ki kj xi xj :
  index ks i = Some ki -> index ks j = Some kj ->
  X ki = Some xi -> X kj = Some xj ->
  Less ks i j = Val (xi <? xj) /\
  (xi = xj -> Less ks i j = Val false /\ Less ks j i = Val false).
Proof.
  intros Hi Hj Hxi Hxj.
  assert (E : forall a b ka kb xa xb,
             index ks a = Some ka -> index ks b = Some kb ->
             X ka = Some xa -> X kb = Some xb ->
             Less ks a b = Val (xa <? xb)).
  { intros a b ka kb xa xb Ha Hb Hxa Hxb. unfold Less.
    rewrite Ha, Hb, Hxa, Hxb. unfold Cmp.
    destruct (Z.compare_spec xa xb); simpl;
      destruct (Z.ltb_spec xa xb); try done; lia. }
  split; [by apply (E i j ki kj)|].
  intros ->. rewrite (E i j ki kj xj xj), (E j i kj ki xj xj) by done.
  by rewrite Z.ltb_irrefl.
Qed.

(** X12: a key decoded without an error is either empty or a point of the
    curve with both coordinates below [P]; a key decoded with an error is
    empty.  A compressed key whose X coordinate has no point on the curve
    decodes without an error to the empty key, for which [Verify] answers
    false. *)
Theorem DecodeBytes_point_or_empty data :
  match DecodeBytes c data with
  | (k, None) =>
      k = emptyKey \/
      exists x y, k = mkPublicKey (Some x) (Some y) /\
                  IsOnCurve c x y = true /\ x < P c /\ y < P c
  | (k, Some _) => k = emptyKey
  end /\
  (forall prefix rest signature hash,
     data = prefix :: rest ->
     Go.byte_to_Z prefix = 2 \/ Go.byte_to_Z prefix = 3 ->
     (32 <= length rest)%nat ->
     decodeCompressedY c (Go.be_to_Z (take 32 rest))
       (Z.land (Go.byte_to_Z prefix) 1) = None ->
     DecodeBytes c data = (emptyKey, None) /\
     Verify c (DecodeBytes c data).1 signature hash = Val false).
Proof.
  assert (Hcp : forall x y,
    match checkPoint c x y with
    | (k, None) =>
        k = emptyKey \/
        exists x y, k = mkPublicKey (Some x) (Some y) /\
                    IsOnCurve c x y = true /\ x < P c /\ y < P c
    | (k, Some _) => k = emptyKey
    end).
  { intros x y. unfold checkPoint.
    destruct (IsOnCurve c x y) eqn:Hon; simpl; [|done].
    destruct (Z.leb_spec (P c) x); simpl; [done|].
    destruct (Z.leb_spec (P c) y); simpl; [done|].
    right. exists x, y. auto. }
  split.
  - unfold DecodeBytes. destruct data as [|prefix rest]; [done|].
    cbv zeta.
    destruct (Go.byte_to_Z prefix =? 0); [by left|].
    destruct (_ || _).
    { destruct (length rest <? 32)%nat; [done|].
      destruct (decodeCompressedY _ _ _); [apply Hcp|by left]. }
    destruct (Go.byte_to_Z prefix =? 4); [|done].
    destruct (length rest <? 64)%nat; [done|]. apply Hcp.
  - intros prefix rest signature hash -> Hp Hl Hd.
    assert (E : DecodeBytes c (prefix :: rest) = (emptyKey, None)).
    { unfold DecodeBytes. cbv zeta. rewrite Hd.
      destruct (Nat.ltb_spec (length rest) 32); [lia|].
      destruct Hp as [-> | ->]; reflexivity. }
    by rewrite E.
Qed.

Lemma le_to_Z_to_le fuel : forall n,
  0 <= n < 256 ^ Z.of_nat fuel -> Go.le_to_Z (Go.Z_to_le fuel n) = n.
Proof.
  induction fuel as [|fuel IH]; intros n Hn.
  - simpl in *. lia.
  - rewrite Nat2Z.inj_succ, Z.pow_succ_r in Hn by lia. simpl.
    destruct (Z.eqb_spec n 0) as [->|Hne]; [done|].
    simpl. rewrite byte_to_of_Z, Z.mod_mod by lia.
    rewrite IH.
    + pose proof (Z.div_mod n 256 ltac:(lia)). lia.
    + split; [apply Z.div_pos; lia|].
      apply Z.div_lt_upper_bound; lia.
Qed.

Lemma length_Z_to_le fuel : forall n k,
  0 <= n < 256 ^ Z.of_nat k -> (length (Go.Z_to_le fuel n) <= k)%nat.
Proof.
  induction fuel as [|fuel IH]; intros n k Hn; simpl; [lia|].
  destruct (Z.eqb_spec n 0) as [->|Hne]; simpl; [lia|].
  destruct k as [|k]; [simpl in Hn; lia|].
  rewrite Nat2Z.inj_succ, Z.pow_succ_r in Hn by lia.
  apply le_n_S, IH.
  split; [apply Z.div_pos; lia|].
  apply Z.div_lt_upper_bound; lia.
Qed.

Lemma le_to_Z_zeros l k :
  Go.le_to_Z (l ++ replicate k x00) = Go.le_to_Z l.
Proof.
  induction l as [|b l IH]; simpl.
  - induction k as [|k IHk]; simpl; [done|]. rewrite IHk. done.
  - by rewrite IH.
Qed.

Lemma be_to_Z_bigBytes x k :
  0 <= x -> Go.be_to_Z (replicate k x00 ++ bigBytes x) = x.
Proof.
  intros Hx. unfold Go.be_to_Z, bigBytes.
  rewrite reverse_app, reverse_involutive, reverse_replicate.
  rewrite le_to_Z_zeros, Z.abs_eq by done.
  apply le_to_Z_to_le. split; [done|].
  destruct (Z.eqb_spec x 0) as [->|Hne]; [simpl; lia|].
  rewrite Nat2Z.inj_succ, Z2Nat.id by apply Z.log2_nonneg.
  pose proof (Z.log2_spec x ltac:(lia)) as [_ Hl].
  eapply Z.lt_le_trans; [exact Hl|].
  change 256 with (2 ^ 8). rewrite <- Z.pow_mul_r by (pose proof (Z.log2_nonneg x); lia).
  apply Z.pow_le_mono_r; [lia|]. pose proof (Z.log2_nonneg x). lia.
Qed.

Lemma len_bigBytes x : 0 <= x < 2 ^ 256 -> Go.len (bigBytes x) <= 32.
Proof.
  intros Hx. unfold Go.len, bigBytes. rewrite length_reverse.
  rewrite Z.abs_eq by lia.
  pose proof (length_Z_to_le (S (Z.to_nat (Z.log2 x))) x 32) as H.
  assert (0 <= x < 256 ^ Z.of_nat 32) by (change (256 ^ Z.of_nat 32) with (2 ^ 256); lia).
  specialize (H ltac:(done)). lia.
Qed.

(** X13: the bytes of a key decode to the key.  The empty key is the
    single byte zero.  A point of the curve with coordinates below [P] and
    below [2^256] is 33 bytes, and decodes to itself without an error
    provided that the square root of the curve recovers its Y coordinate
    from the X coordinate and the lowest bit. *)
Theorem Bytes_DecodeBytes_roundtrip :
  (PublicKey_Bytes emptyKey = Val [x00] /\
   DecodeBytes c [x00] = (emptyKey, None)) /\
  (forall x y,
     0 <= x < 2 ^ 256 -> 0 <= y ->
     IsOnCurve c x y = true -> x < P c -> y < P c ->
     recovers c x y ->
     exists bs,
       PublicKey_Bytes (mkPublicKey (Some x) (Some y)) = Val bs /\
       length bs = 33%nat /\
       DecodeBytes c bs = (mkPublicKey (Some x) (Some y), None)).
Proof.
  split; [done|].
  intros x y Hx Hy Hon HxP HyP Hrec.
  pose proof (len_bigBytes x Hx) as Hlen.
  set (pad := replicate (Z.to_nat (32 - Go.len (bigBytes x))) x00).
  assert (Hl : length (pad ++ bigBytes x) = 32%nat).
  { unfold pad. rewrite length_app, length_replicate.
    unfold Go.len in *. lia. }
  assert (Hb : PublicKey_Bytes (mkPublicKey (Some x) (Some y)) =
               Val ((if Z.testbit y 0 then x03 else x02) :: pad ++ bigBytes x)).
  { unfold PublicKey_Bytes. simpl.
    destruct (Z.ltb_spec 32 (Go.len (bigBytes x))); [lia|]. done. }
  eexists. split; [exact Hb|]. split; [simpl; by rewrite Hl|].
  assert (Hcp : checkPoint c x y = (mkPublicKey (Some x) (Some y), None)).
  { unfold checkPoint. rewrite Hon. simpl.
    destruct (Z.leb_spec (P c) x); [lia|].
    destruct (Z.leb_spec (P c) y); [lia|]. done. }
  assert (Ht : take 32 (pad ++ bigBytes x) = pad ++ bigBytes x).
  { apply take_ge. lia. }
  unfold recovers in Hrec.
  unfold DecodeBytes. cbv zeta. rewrite Ht.
  unfold pad. rewrite be_to_Z_bigBytes by lia. fold pad.
  destruct (Nat.ltb_spec (length (pad ++ bigBytes x)) 32); [lia|].
  destruct (Z.testbit y 0); simpl in Hrec |- *.
  - change (Z.land (Go.byte_to_Z "003") 1) with 1. by rewrite Hrec.
  - change (Z.land (Go.byte_to_Z "002") 1) with 0. by rewrite Hrec.
Qed.

End KeyFacts.

Section KeyExamples.

Import keys.

(** X11 on two keys with the X coordinate 5: neither is less. *)
Lemma Less_compares_X_only_witness :
  Less twins 0 1 = Val false /\ Less twins 1 0 = Val false.
Proof.
  destruct (Less_compares_X_only twins 0 1
              (mkPublicKey (Some 5) (Some 1)) (mkPublicKey (Some 5) (Some 2))
              5 5) as [_ H]; [reflexivity..|].
  apply H. reflexivity.
Defined.

(** X13 on the point (1, 5) of a curve whose square root is 5. *)
Lemma Bytes_DecodeBytes_roundtrip_witness :
  exists bs,
    PublicKey_Bytes (mkPublicKey (Some 1) (Some 5)) = Val bs /\
    length bs = 33%nat /\
    DecodeBytes rootFive bs = (mkPublicKey (Some 1) (Some 5), None).
Proof.
  destruct (Bytes_DecodeBytes_roundtrip rootFive) as [_ H].
  apply (H 1 5); [lia | lia | reflexivity | reflexivity | reflexivity
                 | reflexivity].
Defined.

End KeyExamples.

(** * Properties of the transaction output *)

Section OutputFacts.

Lemma readArray_app (bs old rest : list byte) :
  readArray (length bs) old (ready (bs ++ rest)) = (bs, ready rest).
Proof. unfold readArray, io.andThen. by rewrite readN_app. Qed.

Lemma readInt64_WriteInt64 x old rest :
  - 2 ^ 63 <= x < 2 ^ 63 ->
  readInt64 old (ready (WriteInt64 x ++ rest)) = (x, ready rest).
Proof.
  intros Hx. unfold readInt64, WriteInt64, io.andThen, io.WriteLE.
  rewrite <- (length_putLE 8 (x mod 2 ^ 64)) at 1. rewrite readN_app.
  unfold io.pure. rewrite le_to_Z_putLE
    by (change (256 ^ Z.of_nat 8) with (2 ^ 64); apply Z.mod_pos_bound; lia).
  f_equal. unfold Go.int64_of_uint64.
  destruct (Z.lt_ge_cases x 0).
  - rewrite <- (Z.mod_unique x (2 ^ 64) (-1) (x + 2 ^ 64)) by lia.
    destruct (Z.ltb_spec (x + 2 ^ 64) (2 ^ 63)); lia.
  - rewrite Z.mod_small by lia.
    destruct (Z.ltb_spec x (2 ^ 63)); lia.
Qed.

Lemma readN_short n (bs : list byte) :
  (length bs < n)%nat ->
  io.readN n (ready bs) = (None, io.mkReader [] (Some "unexpected EOF")).
Proof.
  intros H. unfold io.readN, ready. simpl.
  by destruct (Nat.ltb_spec (length bs) n); [|lia].
Qed.

(** X14: an output that is encoded and decoded again is the output that
    was encoded, negative amounts included, except for [Position], which
    is not written and stays as the receiver had it; the bytes after the
    60 bytes of the output are left to the reader.  An input of fewer than
    60 bytes leaves an error in the reader. *)
Theorem Output_roundtrip out receiver rest :
  validOutput out ->
  Output_DecodeBinary receiver (ready (Output_EncodeBinary out ++ rest)) =
    (mkOutput (AssetID out) (Amount out) (ScriptHash out) (Position receiver),
     ready rest) /\
  length (Output_EncodeBinary out) = 60%nat /\
  (forall bs, (length bs < 60)%nat ->
     is_Some (io.Err (Output_DecodeBinary receiver (ready bs)).2)).
Proof.
  intros (Ha & Hm & Hs). unfold util.validUint256 in Ha.
  split; [|split].
  - unfold Output_DecodeBinary, Output_EncodeBinary, io.andThen.
    rewrite <- !app_assoc.
    rewrite <- Ha at 1. rewrite readArray_app.
    rewrite readInt64_WriteInt64 by done.
    rewrite <- Hs at 1.
    rewrite <- (app_nil_r (ScriptHash out ++ rest)), <- app_assoc.
    rewrite readArray_app. by rewrite app_nil_r.
  - unfold Output_EncodeBinary, WriteInt64, io.WriteLE.
    rewrite !length_app, length_putLE, Ha, Hs. done.
  - intros bs Hl. exists "unexpected EOF".
    unfold Output_DecodeBinary, readArray, readInt64, io.andThen, io.pure.
    destruct (Nat.ltb_spec (length bs) util.Uint256Size) as [H1|H1].
    { by rewrite readN_short. }
    unfold io.readN at 1. unfold ready at 1. simpl io.Err. cbv iota.
    simpl io.buf.
    destruct (Nat.ltb_spec (length bs) util.Uint256Size) as [|_]; [lia|].
    fold (ready (drop util.Uint256Size bs)).
    assert (Hd : length (drop util.Uint256Size bs) =
                 (length bs - 32)%nat) by apply length_drop.
    destruct (Nat.ltb_spec (length (drop util.Uint256Size bs)) 8) as [H2|H2].
    { by rewrite (readN_short 8). }
    unfold io.readN at 1. unfold ready at 1. simpl io.Err. cbv iota.
    simpl io.buf.
    destruct (Nat.ltb_spec (length (drop util.Uint256Size bs)) 8) as [|_];
      [lia|].
    fold (ready (drop 8 (drop util.Uint256Size bs))).
    rewrite readN_short; [done|].
    rewrite length_drop, Hd. unfold Uint160Size.
    unfold util.Uint256Size in *. lia.
Qed.

End OutputFacts.

Section OutputExamples.

(** X14 on an output with a negative amount, decoded into a new output. *)
Lemma Output_roundtrip_witness :
  Output_DecodeBinary (NewOutput [] 0 [])
      (ready (Output_EncodeBinary exampleOutput)) =
    (mkOutput (AssetID exampleOutput) (Amount exampleOutput)
              (ScriptHash exampleOutput) 0, ready []).
Proof.
  destruct (Output_roundtrip exampleOutput (NewOutput [] 0 []) []) as [H _].
  - split; [reflexivity|]. split; [|reflexivity]. by vm_compute.
  - rewrite app_nil_r in H. exact H.
Defined.

End OutputExamples.

(** * More properties of the server *)

Section MoreServerFacts.

Import network.

Variable Chain : Type.
Variable BlockHeight : Chain -> Z.
Variable HeaderHeight : Chain -> Z.
Variable GetHeaderHash : Chain -> Z -> util.Uint256.
Variable CurrentHeaderHash : Chain -> util.Uint256.

Lemma collectHashes_seqZ c hh fuel : forall start hashes,
  0 <= start -> hh < 2 ^ 32 - 1 ->
  Go.len hashes = maxBlockBatch - Z.of_nat fuel ->
  collectHashes GetHeaderHash c fuel start hh hashes =
    hashes ++
    (GetHeaderHash c <$> seqZ start (Z.min (Z.of_nat fuel) (hh - start + 1))).
Proof.
  induction fuel as [|fuel IH]; intros start hashes Hs Hh Hl.
  - simpl. rewrite seqZ_nil by lia. by rewrite app_nil_r.
  - simpl collectHashes.
    destruct (Z.ltb_spec (Go.len hashes) maxBlockBatch); [|lia].
    destruct (Z.leb_spec start hh); simpl andb; cbv iota.
    + rewrite Z.mod_small by lia. rewrite IH.
      * rewrite <- app_assoc. f_equal.
        rewrite (seqZ_cons start) by lia. simpl. f_equal. f_equal. f_equal.
        lia.
      * lia.
      * done.
      * unfold Go.len in *. rewrite length_app. simpl. lia.
    + rewrite seqZ_nil by lia. by rewrite app_nil_r.
Qed.

(** X15: with the block height [h] below the header height [hh],
    [requestBlocks] asks the peer in one getdata message for the blocks at
    the heights [h + 1], [h + 2], ... up to [hh], and for at most 200 of
    them; with no header ahead of the blocks it asks for headers when the
    peer's start height is above the header height, and writes nothing
    otherwise. *)
Theorem requestBlocks_batch (s : Server Chain) (p : Peer) :
  let h := BlockHeight (chain s) in
  let hh := HeaderHeight (chain s) in
  0 <= h < 2 ^ 32 - 1 -> 0 <= hh < 2 ^ 32 - 1 ->
  let written :=
    requestBlocks BlockHeight HeaderHeight GetHeaderHash CurrentHeaderHash
                  s p in
  (h < hh ->
   written =
     Val [(p, WriteInventory
               (NewMessage (Net s) CMDGetData
                  (payload.NewInventory payload.BlockType
                     (GetHeaderHash (chain s) <$>
                        seqZ (h + 1) (Z.min maxBlockBatch (hh - h))))))]) /\
  (hh <= h ->
   forall version, Version p = Some version ->
     written =
       Val (if hh <? payload.StartHeight version
            then requestHeaders CurrentHeaderHash s p else [])).
Proof.
  intros h hh Hh Hhh written. subst written. unfold requestBlocks.
  fold h hh. rewrite (Z.mod_small (h + 1)) by lia.
  destruct (Z.le_gt_cases hh h) as [Hle|Hlt].
  - split; [intros ?; lia|]. intros _ version Hv.
    rewrite collectHashes_seqZ; [|lia|lia|done].
    rewrite seqZ_nil by lia. simpl. rewrite Hv.
    by destruct (hh <? payload.StartHeight version).
  - split; [|intros ?; lia]. intros _.
    rewrite collectHashes_seqZ; [|lia|lia|done].
    rewrite Z2Nat.id by done. simpl app.
    replace (hh - (h + 1) + 1) with (hh - h) by lia.
    set (n := Z.min maxBlockBatch (hh - h)).
    assert (0 < n) by (unfold n, maxBlockBatch; lia).
    unfold Go.len. rewrite length_fmap, length_seqZ.
    destruct (Z.ltb_spec 0 (Z.of_nat (Z.to_nat n))); [done|lia].
Qed.

End MoreServerFacts.

Section RPCFacts.

Import network.

Variable Chain : Type.
Variable HasTransaction : Chain -> util.Uint256 -> bool.
Variable VerifyTx : Chain -> transaction.Transaction -> option string.
Variable TryAdd :
  Chain -> util.Uint256 -> transaction.Transaction -> bool * Chain.

(** X16: [sendrawtransaction] answers true, without an error, only for a
    transaction that is not of type Miner, that the chain does not have
    yet, that passes the verification and that the pool takes.  Every
    other answer is an error without a result, with one of three
    messages (already exists, pool full, validation failed), and then
    nothing was sent to the peers; the messages for an unverifiable block
    and for a failed policy are never answered. *)
Theorem sendrawtransaction_answers (s : Server Chain)
    (tx : transaction.Transaction) :
  match sendrawtransaction HasTransaction VerifyTx TryAdd s tx with
  | (Val (Some b, None), chain', sent) =>
      b = true /\
      transaction.Type_ tx <> transaction.MinerType /\
      HasTransaction (chain s) (transaction.Hash tx) = false /\
      VerifyTx (chain s) tx = None /\
      TryAdd (chain s) (transaction.Hash tx) tx = (true, chain')
  | (Val (None, Some msg), chain', sent) => msg ∈ refusals /\ sent = []
  | (Val _, _, _) => False
  | (Throw _, _, _) => exists p, p ∈ peers s /\ Version p = None
  end.
Proof.
  unfold sendrawtransaction, RelayTxn.
  destruct (decide (transaction.Type_ tx = transaction.MinerType)).
  { simpl. split; [|done]. unfold refusals. set_solver. }
  destruct (HasTransaction (chain s) (transaction.Hash tx)) eqn:Hh.
  { simpl. split; [|done]. unfold refusals. set_solver. }
  destruct (VerifyTx (chain s) tx) eqn:Hv.
  { simpl. split; [|done]. unfold refusals. set_solver. }
  destruct (TryAdd (chain s) (transaction.Hash tx) tx) as [ok chain'] eqn:Ht.
  destruct ok; simpl.
  2: { split; [|done]. unfold refusals. set_solver. }
  destruct (relayLoop s tx (peers s) []) as [[msg|] sent] eqn:Hl; simpl;
    [|done].
  clear - Hl. revert Hl. generalize (@nil (Peer * Message)).
  induction (peers s) as [|p ps IH]; intros sent0; simpl; [done|].
  unfold RelayDirectly at 1.
  destruct (Version p) as [version|] eqn:Hp.
  - destruct (negb (payload.Relay version)); intros Hl;
      destruct (IH _ Hl) as (q & Hq & Hqv); exists q; split; try done;
      apply elem_of_cons; by right.
  - intros _. exists p. split; [apply elem_of_cons; by left|done].
Qed.

End RPCFacts.

Section MoreServerExamples.

Import network.

(** X15 on a server with 10 blocks and 500 headers: the blocks 11 to 210
    are asked for. *)
Lemma requestBlocks_batch_witness :
  requestBlocks fst snd heightHash (fun _ => []) behind relayingPeer =
    Val [(relayingPeer,
          WriteInventory
            (NewMessage 56753 CMDGetData
               (payload.NewInventory payload.BlockType
                  (heightHash (10, 500) <$> seqZ 11 200))))].
Proof.
  destruct (requestBlocks_batch heights fst snd heightHash (fun _ => [])
              behind relayingPeer) as [H _];
    [simpl; lia | simpl; lia |].
  apply H. simpl. lia.
Defined.

End MoreServerExamples.

(** * Properties of package core *)

Section CoreFacts.

Context {Header : Type}.

Lemma index_middle (l1 l2 : list Header) x :
  index (l1 ++ x :: l2) (Go.len l1) = Some x.
Proof.
  unfold index, Go.len.
  destruct (Z.ltb_spec (Z.of_nat (length l1)) 0); [lia|].
  rewrite Nat2Z.id. by apply list_lookup_middle.
Qed.

Lemma insert_middle (l1 l2 : list Header) x y :
  <[length l1 := x]> (l1 ++ y :: l2) = l1 ++ x :: l2.
Proof.
  rewrite <- (Nat.add_0_r (length l1)) at 1. by rewrite insert_app_r.
Qed.

Lemma reverseLoop_middle fuel : forall (l1 mid l2 : list Header),
  (length mid <= 2 * fuel)%nat ->
  reverseLoop fuel (Go.len l1) (Go.len l1 + Go.len mid - 1)
              (l1 ++ mid ++ l2) =
    Val (l1 ++ reverse mid ++ l2).
Proof.
  induction fuel as [|fuel IH]; intros l1 mid l2 Hl.
  - destruct mid; [done|simpl in Hl; lia].
  - simpl reverseLoop.
    destruct mid as [|a mid].
    { unfold Go.len. simpl.
      match goal with
      | |- context [?x <? ?y] => destruct (Z.ltb_spec x y); [lia|reflexivity]
      end. }
    destruct (decide (mid = [])) as [->|Hne].
    { unfold Go.len. simpl.
      match goal with
      | |- context [?x <? ?y] => destruct (Z.ltb_spec x y); [lia|reflexivity]
      end. }
    destruct (exists_last Hne) as (mid' & b & ->).
    assert (Hj : Go.len l1 + Go.len (a :: mid' ++ [b]) - 1 =
                 Go.len (l1 ++ a :: mid')).
    { unfold Go.len. rewrite !length_app. simpl. rewrite length_app. simpl.
      lia. }
    rewrite Hj.
    destruct (Z.ltb_spec (Go.len l1) (Go.len (l1 ++ a :: mid'))) as [_|H];
      [|unfold Go.len in H; rewrite length_app in H; simpl in H; lia].
    replace (l1 ++ (a :: mid' ++ [b]) ++ l2)
      with ((l1 ++ a :: mid') ++ b :: l2)
      by (rewrite <- !app_assoc; simpl; by rewrite <- app_assoc).
    rewrite index_middle.
    rewrite <- (app_assoc l1). simpl app at 2.
    rewrite index_middle.
    unfold Go.len at 3 4. rewrite !Nat2Z.id.
    change ((a :: mid') ++ b :: l2) with (a :: mid' ++ b :: l2).
    rewrite (insert_middle l1).
    replace (l1 ++ b :: mid' ++ b :: l2)
      with ((l1 ++ b :: mid') ++ b :: l2)
      by (by rewrite <- app_assoc).
    replace (length (l1 ++ a :: mid')) with (length (l1 ++ b :: mid'))
      by (rewrite !length_app; done).
    rewrite insert_middle.
    replace ((l1 ++ b :: mid') ++ a :: l2)
      with ((l1 ++ [b]) ++ mid' ++ (a :: l2))
      by (rewrite <- !app_assoc; done).
    replace (Go.len l1 + 1) with (Go.len (l1 ++ [b]))
      by (unfold Go.len; rewrite length_app; simpl; lia).
    replace (Go.len (l1 ++ a :: mid') - 1)
      with (Go.len (l1 ++ [b]) + Go.len mid' - 1)
      by (unfold Go.len; rewrite !length_app; simpl; lia).
    rewrite IH.
    + f_equal. rewrite reverse_cons, reverse_app. simpl.
      rewrite <- !app_assoc. done.
    + simpl in Hl. rewrite length_app in Hl. simpl in Hl. lia.
Qed.

(** X17: [headerSliceReverse] leaves the slice reversed and indexes no
    element outside of it, the empty slice included; reversing twice
    restores the slice. *)
Theorem headerSliceReverse_reverses (dest : list Header) :
  headerSliceReverse dest = Val (reverse dest) /\
  headerSliceReverse (reverse dest) = Val dest.
Proof.
  assert (E : forall l : list Header, headerSliceReverse l = Val (reverse l)).
  { intros l. unfold headerSliceReverse.
    pose proof (reverseLoop_middle (length l) [] l []) as H.
    rewrite !app_nil_r in H. simpl in H.
    change (Go.len []) with 0 in H. apply H. lia. }
  split; [apply E|]. by rewrite E, reverse_involutive.
Qed.

End CoreFacts.

Section ConsensusFacts.

Variable emitScript : Z -> list keys.PublicKey -> Try (list byte).
Variable Hash160 : list byte -> list byte.

(** X18: for [n] validators with [2 <= n <= 1535] the consensus address
    is the hash of a script that asks for [m = n - (n - 1) / 3] of the
    [n] signatures, which is more than two thirds of them, so that two
    sets of [m] validators share more than a third; and the script of the
    genesis block asks for [n / 2 + 1] signatures, a majority, for
    [2 <= n <= 2047].  A single validator, or none, gets neither of the
    two: both calls return an error. *)
Theorem multisig_thresholds (validators : list keys.PublicKey) :
  let n := Go.len validators in
  (2 <= n <= 1535 ->
   exists m,
     getNextConsensusAddress emitScript Hash160 validators =
       match emitScript m validators with
       | Val raw => Val (Hash160 raw)
       | Throw err => Throw err
       end /\
     m <= n /\ 2 * n < 3 * m /\ n < 3 * (2 * m - n)) /\
  (2 <= n <= 2047 ->
   exists m,
     genesisScript emitScript validators = emitScript m validators /\
     m <= n /\ n < 2 * m) /\
  (n < 2 ->
   (exists err,
      getNextConsensusAddress emitScript Hash160 validators = Throw err) /\
   (exists err, genesisScript emitScript validators = Throw err)).
Proof.
  intros n. split; [|split].
  - intros Hn. exists (n - (n - 1) ÷ 3).
    pose proof (Z.quot_rem' (n - 1) 3) as Hq.
    pose proof (Z.rem_bound_pos (n - 1) 3 ltac:(lia) ltac:(lia)) as Hr.
    split; [|lia].
    unfold getNextConsensusAddress, CreateMultiSigRedeemScript. fold n.
    destruct (Z.leb_spec (n - (n - 1) ÷ 3) 1); [lia|].
    destruct (Z.ltb_spec n (n - (n - 1) ÷ 3)); [lia|].
    destruct (Z.ltb_spec 1024 (n - (n - 1) ÷ 3)); [lia|]. done.
  - intros Hn. exists (n ÷ 2 + 1).
    pose proof (Z.quot_rem' n 2) as Hq.
    pose proof (Z.rem_bound_pos n 2 ltac:(lia) ltac:(lia)) as Hr.
    split; [|lia].
    unfold genesisScript, CreateMultiSigRedeemScript. fold n.
    destruct (Z.leb_spec (n ÷ 2 + 1) 1); [lia|].
    destruct (Z.ltb_spec n (n ÷ 2 + 1)); [lia|].
    destruct (Z.ltb_spec 1024 (n ÷ 2 + 1)); [lia|]. done.
  - intros Hn.
    assert (Hn0 : 0 <= n) by (unfold n, Go.len; lia).
    assert (Hc : n = 0 \/ n = 1) by lia.
    unfold getNextConsensusAddress, genesisScript,
      CreateMultiSigRedeemScript. fold n.
    destruct Hc as [-> | ->]; simpl; eauto.
Qed.

End ConsensusFacts.

Section ConsensusExamples.

(** X18 on four validators: three signatures for the consensus address
    and for the genesis script. *)
Lemma multisig_thresholds_witness :
  exists m,
    getNextConsensusAddress thresholdOnly id fourValidators =
      match thresholdOnly m fourValidators with
      | Val raw => Val (id raw)
      | Throw err => Throw err
      end /\
    m <= 4 /\ 2 * 4 < 3 * m /\ 4 < 3 * (2 * m - 4).
Proof.
  destruct (multisig_thresholds thresholdOnly id fourValidators) as [H _].
  apply H. by vm_compute.
Defined.

End ConsensusExamples.

(** * Properties of the dump and the restore of the chain *)

Section DumpRestoreFacts.

Variable Block : Type.
Variable blockAt : Z -> option Block.
Variable EncodeBinary : Block -> list byte.
Variable DecodeBinary : io.Reader Block.
Variable Chain : Type.
Variable AddBlock : Chain -> Block -> Try Chain.

Lemma dumpLoop_seqZ (blk : Z -> Block) chainHeight n fuel : forall i out,
  1 <= i -> n <= chainHeight -> chainHeight < 2 ^ 32 - 1 ->
  (forall i, 1 <= i <= chainHeight -> blockAt i = Some (blk i)) ->
  (Z.to_nat (n - i + 1) < fuel)%nat ->
  dumpLoop blockAt EncodeBinary fuel i n out =
    Some (Val (out ++
               concat ((fun i => EncodeBinary (blk i)) <$>
                       seqZ i (n - i + 1)))).
Proof.
  induction fuel as [|fuel IH]; intros i out Hi Hn Hc Hb Hf; [lia|].
  simpl dumpLoop.
  destruct (Z.leb_spec i n).
  - rewrite Hb by lia. unfold uint32. rewrite Z.mod_small by lia.
    rewrite IH; [|lia|done|done|done|lia].
    rewrite (seqZ_cons i) by lia. simpl.
    rewrite <- app_assoc.
    replace (Z.succ i) with (i + 1) by lia.
    by replace (Z.pred (n - i + 1)) with (n - (i + 1) + 1) by lia.
  - rewrite seqZ_nil by lia. simpl. by rewrite app_nil_r.
Qed.

(** X19: [dumpDB] writes the number [n] of blocks, which is [count], or
    the height of the chain less [skip] when [count] is 0, followed by the
    blocks at the heights [skip + 1] to [n]: these are [n - skip] blocks
    when [skip < n] and none otherwise, so that the number written is the
    number of blocks that follow only for [skip = 0]. *)
Theorem dumpDB_blocks (blk : Z -> Block) chainHeight count skip fuel :
  0 <= skip -> 0 <= count -> skip + count <= chainHeight ->
  chainHeight < 2 ^ 32 - 1 ->
  (forall i, 1 <= i <= chainHeight -> blockAt i = Some (blk i)) ->
  let n := if count =? 0 then chainHeight - skip else count in
  (Z.to_nat (n - skip) < fuel)%nat ->
  dumpDB blockAt EncodeBinary fuel chainHeight count skip =
    Some (Val (io.WriteLE 4 n ++
               concat ((fun i => EncodeBinary (blk i)) <$>
                       seqZ (skip + 1) (n - skip)))).
Proof.
  intros Hs Hc Hsc Hh Hb n Hf. unfold dumpDB, uint32.
  rewrite (Z.mod_small (skip + count)), (Z.mod_small (skip + 1)) by lia.
  rewrite (Z.mod_small (chainHeight - skip)) by lia. fold n.
  destruct (Z.ltb_spec chainHeight (skip + count)); [lia|].
  assert (n <= chainHeight) by (unfold n; destruct (count =? 0); lia).
  rewrite (dumpLoop_seqZ blk chainHeight n); [|lia|done|done|done|lia].
  by replace (n - (skip + 1) + 1) with (n - skip) by lia.
Qed.

Hypothesis readsBack : forall b rest,
  DecodeBinary (ready (EncodeBinary b ++ rest)) = (b, ready rest).

Lemma skipBlocks_drop rest : forall (n : nat) (bs : list Block),
  (n <= length bs)%nat ->
  skipBlocks DecodeBinary n (ready (concat (EncodeBinary <$> bs) ++ rest)) =
    Val (ready (concat (EncodeBinary <$> drop n bs) ++ rest)).
Proof.
  induction n as [|n IH]; intros bs Hn; [done|].
  destruct bs as [|b bs]; [simpl in Hn; lia|].
  simpl. rewrite <- app_assoc, readsBack. simpl.
  apply IH. simpl in Hn. lia.
Qed.

Lemma addBlocks_take rest : forall (n : nat) (bs : list Block) chain,
  (n <= length bs)%nat ->
  addBlocks DecodeBinary AddBlock n
    (ready (concat (EncodeBinary <$> bs) ++ rest)) chain =
    added AddBlock (take n bs) chain.
Proof.
  induction n as [|n IH]; intros bs chain Hn; [done|].
  destruct bs as [|b bs]; [simpl in Hn; lia|].
  simpl. rewrite <- app_assoc, readsBack. simpl.
  destruct (AddBlock chain b) as [chain'|err]; [|done].
  apply IH. simpl in Hn. lia.
Qed.

(** X20: from a file that holds the number of its blocks and the blocks,
    [restoreDB] adds to the chain the blocks at the places [skip] to
    [n - 1] of the file, in their order, where [n] is [count], or the
    number of blocks of the file when [count] is 0: it reads [skip] blocks
    without adding them and then adds [n - skip] blocks, not [count], and
    none when [n <= skip]. *)
Theorem restoreDB_blocks (bs : list Block) rest count skip chain :
  0 <= skip -> 0 <= count -> skip + count <= Go.len bs ->
  Go.len bs < 2 ^ 32 ->
  let n := if count =? 0 then Go.len bs else count in
  restoreDB DecodeBinary AddBlock
    (io.WriteLE 4 (Go.len bs) ++ concat (EncodeBinary <$> bs) ++ rest)
    count skip chain =
  added AddBlock (drop (Z.to_nat skip) (take (Z.to_nat n) bs)) chain.
Proof.
  intros Hs Hc Hsc Hl n. unfold restoreDB.
  change (io.NewBinReaderFromBuf ?x) with (ready x).
  rewrite ReadLE_WriteLE
    by (change (256 ^ Z.of_nat 4) with (2 ^ 32); unfold Go.len in *; lia).
  simpl io.Err. cbv iota. unfold uint32.
  rewrite Z.mod_small by (unfold Go.len in *; lia).
  destruct (Z.ltb_spec (Go.len bs) (skip + count)); [lia|]. fold n.
  assert (Hn : 0 <= n <= Go.len bs)
    by (unfold n; destruct (Z.eqb_spec count 0); unfold Go.len in *; lia).
  rewrite skipBlocks_drop by (unfold Go.len in *; lia).
  rewrite addBlocks_take
    by (rewrite length_drop; unfold Go.len in *; lia).
  destruct (Z.le_gt_cases skip n).
  - rewrite take_drop_commute.
    by replace (Z.to_nat skip + Z.to_nat (n - skip))%nat with (Z.to_nat n)
      by lia.
  - replace (Z.to_nat (n - skip)) with 0%nat by lia.
    rewrite take_0, drop_ge; [done|].
    rewrite length_take. lia.
Qed.

End DumpRestoreFacts.

Section DumpRestoreExamples.

(** X19 on a chain of ten blocks, with the flags count 4 and skip 2: the
    number 4 and the two blocks 3 and 4. *)
Lemma dumpDB_blocks_witness :
  dumpDB byteAt byteBlock 3 10 4 2 =
    Some (Val (io.WriteLE 4 4 ++ [x03; x04])).
Proof.
  apply (dumpDB_blocks byte byteAt byteBlock Go.byte_of_Z 10 4 2 3);
    [lia | lia | lia | lia | reflexivity | simpl; lia].
Defined.

(** X20 on a file of four blocks, with the flags count 3 and skip 1: the
    blocks at the places 1 and 2 are added. *)
Lemma restoreDB_blocks_witness :
  restoreDB readByteBlock consBlock
    (io.WriteLE 4 4 ++ [x01; x02; x03; x04]) 3 1 [] =
    Val [x03; x02].
Proof.
  apply (restoreDB_blocks byte byteBlock readByteBlock (list byte) consBlock
           (fun b rest => eq_refl) [x01; x02; x03; x04] [] 3 1 []);
    [lia | lia | by vm_compute | by vm_compute].
Defined.

End DumpRestoreExamples.

(** * The end of a run *)

Section RunFacts.

Import vm.

Variable crypto : keys.Curve.

Lemma still_bind {A B} (m : M A) (k : A -> M B) :
  still m -> (forall a, still (k a)) -> still (bind m k).
Proof.
  intros Hm Hk v. unfold bind. specialize (Hm v).
  destruct (m v) as [a v1|msg v1|]; [|done..].
  specialize (Hk a v1). destruct (k a v1); congruence.
Qed.

Lemma reads_still {A} (m : M A) : reads m -> still m.
Proof.
  intros Hm v. specialize (Hm v). destruct (m v); by subst.
Qed.

Lemma still_ret {A} (a : A) : still (ret a).
Proof. done. Qed.

Lemma still_panic {A} msg : still (@panic A msg).
Proof. done. Qed.

Lemma still_Stuck {A} : still (fun _ => @Stuck A).
Proof. done. Qed.

Lemma still_Pop n : still (Pop n).
Proof.
  intros v. unfold Pop. destruct (getStack n v); [done|].
  destruct (updateSizeRemove _ _ _ _); [|done]. by destruct n.
Qed.

Lemma still_PushItem n item : still (PushItem n item).
Proof.
  intros v. unfold PushItem.
  destruct (updateSizeAdd _ _ _ _); [|done]. by destruct n.
Qed.

Lemma still_Push n e : still (Push n e).
Proof. destruct e; [apply still_PushItem|done]. Qed.

Lemma still_Dup n i : still (Dup n i).
Proof. done. Qed.

Lemma still_alloc o : still (alloc o).
Proof. done. Qed.

Ltac reads_any :=
  first [ apply reads_elemBigInt | apply reads_elemBytes
        | apply reads_elemValue | apply reads_Len | apply reads_goSlice
        | apply reads_checkBigIntSize | apply reads_reflectDeepEqual
        | apply reads_getCheckhash | apply reads_sliceOf | apply reads_try ].

Ltac still_tac :=
  repeat first
    [ apply still_bind; [|intros ?]
    | apply still_Pop | apply still_Push | apply still_PushItem
    | apply still_Dup | apply still_alloc | apply still_ret
    | apply still_panic | apply still_Stuck
    | apply reads_still; reads_any
    | match goal with
      | |- still (if ?c then _ else _) => destruct c
      | |- still (match ?e with _ => _ end) => destruct e
      end ].

Lemma still_popBytes n : still (popBytes n).
Proof. induction n as [|n IH]; simpl; still_tac. apply IH. Qed.

Lemma still_popSigElements : still popSigElements.
Proof.
  unfold popSigElements. still_tac; try apply still_popBytes.
Qed.

Lemma still_opCHECKMULTISIG : still (opCHECKMULTISIG crypto).
Proof.
  unfold opCHECKMULTISIG.
  apply still_bind; [apply still_popSigElements|]. intros [pkeys|e];
    [|apply still_panic].
  apply still_bind; [apply still_popSigElements|]. intros [sigs|e];
    [|apply still_panic].
  still_tac.
Qed.

(** Every case but RET leaves the invocation stack as it is. *)
Lemma dispatch_still op parameter :
  op <> RET -> still (dispatch crypto op parameter).
Proof.
  intros Hop. unfold dispatch.
  repeat match goal with
         | |- still (if ?c then _ else _) => destruct c eqn:?
         end;
    try match goal with
        | H : (op =? RET) = true |- _ => apply Z.eqb_eq in H; contradiction
        end;
    try apply still_opCHECKMULTISIG;
    try apply still_Stuck;
    unfold opPUSHBYTES, opPUSHINT, opPUSH0, opTOALTSTACK,
      opFROMALTSTACK, opDUPFROMALTSTACK, opDUP, opSWAP, opCAT, opSUBSTR,
      opLEFT, opRIGHT, opDEPTH, opDROP, opEQUAL, opSHIFT, opNEWARRAY,
      opNEWSTRUCT, opSIZE, opNEWMAP, PushVal, newSliceOfFalses;
    still_tac.
Qed.

Lemma opRET_pops v :
  match opRET v with
  | Ok _ v' =>
      exists ctx, istack v = ctx :: istack v' /\
                  (istack v' = [] -> HasFlag (state v') haltState = true)
  | _ => True
  end.
Proof.
  unfold opRET. destruct (istack v) as [|ctx rest] eqn:Hi; [done|].
  destruct (_ && _); [done|].
  destruct rest as [|c rest]; simpl; by exists ctx.
Qed.

(** An instruction that returns without an error leaves the invocation
    stack as it is, or pops its top when it is RET. *)
Lemma execute_istack ctx_ip op parameter v v' :
  execute crypto ctx_ip op parameter v = Returned v' None ->
  (op <> RET /\ istack v' = istack v) \/
  (exists ctx, istack v = ctx :: istack v' /\
               (istack v' = [] -> HasFlag (state v') haltState = true)).
Proof.
  unfold execute. destruct (Z.eq_dec op RET) as [->|Hop].
  - change (dispatch crypto RET parameter) with opRET.
    pose proof (opRET_pops v) as H.
    destruct (opRET v) as [[] v1|msg v1|]; [|done..].
    destruct (MaxStackSize <? size v1); [done|].
    intros [= <-]. by right.
  - pose proof (dispatch_still op parameter Hop v) as H.
    destruct (dispatch crypto op parameter v) as [[] v1|msg v1|]; [|done..].
    destruct (MaxStackSize <? size v1); [done|].
    intros [= <-]. by left.
Qed.

Lemma Next_advances ctx ctx' op param :
  Next ctx = Some (ctx', op, param, None) ->
  prog ctx' = prog ctx /\
  (op = RET \/
   (nextip ctx < Go.len (prog ctx) /\ nextip ctx < nextip ctx')).
Proof.
  unfold Next. cbv zeta. simpl.
  destruct (Z.leb_spec (Go.len (prog ctx)) (nextip ctx)).
  { intros [= <- <- _]. auto. }
  destruct (prog ctx !! Z.to_nat (nextip ctx)) as [b|]; [|done].
  destruct (_ && _) eqn:Hp.
  - destruct (_ <? _)%nat; [done|].
    intros [= <- <- _]. simpl. split; [done|]. right. split; [done|].
    apply andb_prop in Hp as [Hp _]. apply Z.leb_le in Hp.
    unfold PUSHBYTES1 in Hp. lia.
  - destruct (noOperand _); [|done].
    intros [= <- <- _]. simpl. split; [done|]. right. lia.
Qed.

(** A step that returns without an error uses up some of what remains. *)
Lemma Step_remaining v v' :
  Step crypto v = Returned v' None ->
  (remaining (istack v') < remaining (istack v))%nat /\
  (istack v' = [] -> HasFlag (state v') haltState = true).
Proof.
  unfold Step. destruct (istack v) as [|ctx rest] eqn:Hi; [done|].
  destruct (Next ctx) as [[[[ctx' op] param] [msg|]]|] eqn:Hn; [done| |done].
  intros He. apply execute_istack in He.
  apply Next_advances in Hn as [Hp Ha].
  destruct He as [[Hop He]|(c & He & Hh)].
  - simpl in He. rewrite He. split; [|done]. simpl. rewrite Hp.
    destruct Ha as [->|[H1 H2]]; [by destruct Hop|]. lia.
  - simpl in He. injection He as _ Hr. rewrite <- Hr at 1.
    split; [simpl; lia|done].
Qed.

Lemma Step_outcome v :
  match Step crypto v with
  | Crashed => istack v = []
  | Unfinished => False
  | _ => True
  end.
Proof.
  unfold Step. destruct (istack v) as [|ctx rest]; [done|].
  destruct (Next ctx) as [[[[ctx' op] param] [msg|]]|]; try done.
  unfold execute.
  destruct (dispatch crypto op param _) as [[] v2|msg v2|]; try done.
  by destruct (MaxStackSize <? size v2).
Qed.

Lemma runLoop_ended fuel : forall v,
  (remaining (istack v) < fuel)%nat ->
  (istack v = [] -> HasFlag (state v) haltState = true \/
                    state v <> noneState) ->
  ended (runLoop crypto fuel v).
Proof.
  induction fuel as [|fuel IH]; intros v Hf Hi; [lia|].
  simpl.
  set (v0 := match istack v with
             | [] => v
             | ctx :: _ =>
                 if atBreakPoint ctx
                 then setState (Z.lor (state v) breakState) v else v
             end).
  assert (Hv0 : istack v0 = istack v).
  { unfold v0. destruct (istack v) as [|ctx ?] eqn:E; [done|].
    by destruct (atBreakPoint ctx). }
  assert (Hs0 : istack v = [] -> v0 = v).
  { unfold v0. by intros ->. }
  clearbody v0.
  destruct (HasFlag (state v0) faultState); [done|].
  destruct (HasFlag (state v0) haltState || HasFlag (state v0) breakState)
    eqn:Hhb; [done|].
  apply orb_false_elim in Hhb as [Hh _].
  destruct (Z.eqb_spec (state v0) noneState) as [Hn|]; [|done].
  pose proof (Step_outcome v0) as Ho.
  destruct (Step crypto v0) as [v1 [e1|]| | |] eqn:Hs; try done.
  - apply Step_remaining in Hs as [Hr Hh1]. apply IH; [|by left; auto].
    rewrite Hv0 in Hr. lia.
  - rewrite Hv0 in Ho. specialize (Hs0 Ho). subst v0.
    destruct (Hi Ho) as [Hi'|Hi']; congruence.
Qed.

(** X23: a run of a machine comes to an end within as many instructions
    as the bytes that its contexts have left, and one return for each
    context: with that much fuel [Run] returns, or meets an instruction
    outside the model; it neither runs on nor dereferences a missing
    context.  A loaded script of [n] bytes ends within [n + 1]
    instructions. *)
Theorem Run_ends v fuel :
  (remaining (istack v) < fuel)%nat -> ended (Run crypto fuel v).
Proof.
  intros Hf. unfold Run.
  destruct (negb (Ready v)) eqn:Hr; [done|].
  destruct (HasFlag (state v) faultState); [done|].
  apply runLoop_ended; [done|].
  intros Hi. simpl in Hi. unfold Ready, Go.len in Hr. rewrite Hi in Hr.
  done.
Qed.

End RunFacts.

Section RunExamples.

Import vm.

(** X23 on a script of three bytes and its return. *)
Lemma Run_ends_witness :
  ended (Run exampleCurve 6 (load (makeProgram [PUSH1; PUSH1; CAT]))).
Proof.
  apply (Run_ends exampleCurve (load (makeProgram [PUSH1; PUSH1; CAT])) 6).
  simpl. lia.
Defined.

End RunExamples.
